(** * TaskForge: a shallow embedding of [taskforge.py]

    The development follows the source file top to bottom:
    - [PyFloat]: the binary64 numbers the scheduler computes with and the
      host language's [float(str)] conversion used by [_parse_time];
    - [PyStr]: the two string operations [_parse_time] uses;
    - the dynamically typed values stored in task records;
    - the scheduler state (task registry, dict objects, group index) and
      the methods of [class TaskForge];
    - the two worker loops (the closures built by [every] and [after]);
    - the properties. *)

From Stdlib Require Import ZArith Ascii String List Lia.
From Stdlib Require Import Floats.SpecFloat.
From stdpp Require Import gmap strings list.

Local Open Scope Z_scope.
Set Warnings "-clear-no-such-hyp".

(** ** Binary64 numbers *)

Module PyFloat.

Definition float := spec_float.

Definition prec : Z := 53.
Definition emax : Z := 1024.

Definition zero : float := S754_zero false.
Definition nan : float := S754_nan.
Definition infinity (neg : bool) : float := S754_infinity neg.

Definition neg : float -> float := SFopp.
Definition add : float -> float -> float := SFadd prec emax.
Definition sub : float -> float -> float := SFsub prec emax.
Definition mul : float -> float -> float := SFmul prec emax.
Definition div : float -> float -> float := SFdiv prec emax.
Definition ltb : float -> float -> bool := SFltb.
Definition eqb : float -> float -> bool := SFeqb.

Definition is_nan (x : float) : bool :=
  match x with S754_nan => true | _ => false end.

Definition is_finite (x : float) : bool :=
  match x with S754_zero _ | S754_finite _ _ _ => true | _ => false end.

(** An integer converted to the nearest binary64 number (ties to even). *)
Definition of_Z (z : Z) : float := binary_normalize prec emax z 0 false.

(** [m * 10^e] rounded to the nearest binary64 number.  For a negative
    exponent the quotient is computed with [prec + 2] significant bits
    and the remainder is handed to the rounding as a location. *)
Definition of_decimal (sign : bool) (m e : Z) : float :=
  match m with
  | Z0 => S754_zero sign
  | Zpos p =>
      if 0 <=? e then binary_round prec emax sign (p * Z.to_pos (10 ^ e)) 0
      else
        let d := 10 ^ (- e) in
        let k := Z.max 0 (prec + 2 + Zdigits2 d - Zdigits2 m) in
        let '(q, r) := Z.div_eucl (Z.shiftl m k) d in
        binary_round_aux prec emax sign q (- k) (new_location d r)
  | Zneg _ => S754_nan
  end.

(** *** [float(s)] on text

    The grammar of the builtin: surrounding white space is dropped, single
    underscores may separate digits, then an optional sign and either
    [inf], [infinity], [nan] (any case) or a decimal numeral with an
    optional fraction and an optional exponent. *)

Definition is_space (c : ascii) : bool :=
  let n := N_of_ascii c in
  (((9 <=? n) && (n <=? 13)) || ((28 <=? n) && (n <=? 32)))%N.

Definition is_digit (c : ascii) : bool :=
  let n := N_of_ascii c in ((48 <=? n) && (n <=? 57))%N.

Definition digit_val (c : ascii) : Z := Z.of_N (N_of_ascii c) - 48.

Definition lower (c : ascii) : ascii :=
  let n := N_of_ascii c in
  if ((65 <=? n) && (n <=? 90))%N then ascii_of_N (n + 32) else c.

Fixpoint lstrip (l : list ascii) : list ascii :=
  match l with
  | c :: l' => if is_space c then lstrip l' else l
  | [] => []
  end.

Definition strip (l : list ascii) : list ascii :=
  rev (lstrip (rev (lstrip l))).

(** Underscores: allowed only directly after a digit and directly before
    a digit; they are removed.  [prev] is the character just read. *)
Fixpoint drop_underscores (prev : option ascii) (l : list ascii)
  : option (list ascii) :=
  match l with
  | [] =>
      match prev with
      | Some "_"%char => None
      | _ => Some []
      end
  | c :: l' =>
      if Ascii.eqb c "_" then
        match prev with
        | Some p => if is_digit p then drop_underscores (Some c) l' else None
        | None => None
        end
      else
        match prev with
        | Some "_"%char =>
            if is_digit c
            then cons c <$> drop_underscores (Some c) l' else None
        | _ => cons c <$> drop_underscores (Some c) l'
        end
  end.

Fixpoint span_digits (l : list ascii) : list ascii * list ascii :=
  match l with
  | c :: l' =>
      if is_digit c
      then let '(ds, r) := span_digits l' in (c :: ds, r)
      else ([], l)
  | [] => ([], [])
  end.

Definition digits_to_Z (ds : list ascii) : Z :=
  fold_left (fun acc c => 10 * acc + digit_val c) ds 0.

Definition split_sign (l : list ascii) : bool * list ascii :=
  match l with
  | "-"%char :: l' => (true, l')
  | "+"%char :: l' => (false, l')
  | _ => (false, l)
  end.

(** The exponent part: empty, or [e]/[E], an optional sign and at least
    one digit, up to the end of the text. *)
Definition parse_exponent (l : list ascii) : option Z :=
  match l with
  | [] => Some 0
  | c :: l' =>
      if Ascii.eqb (lower c) "e" then
        let '(sg, l'') := split_sign l' in
        match span_digits l'' with
        | ((_ :: _) as ds, []) =>
            Some (if sg then - digits_to_Z ds else digits_to_Z ds)
        | _ => None
        end
      else None
  end.

Definition parse_numeral (sign : bool) (l : list ascii) : option float :=
  let '(ip, r1) := span_digits l in
  let '(fp, r2) :=
    match r1 with
    | "."%char :: r => span_digits r
    | _ => ([], r1)
    end in
  match ip ++ fp with
  | [] => None
  | ds =>
      e ← parse_exponent r2;
      Some (of_decimal sign (digits_to_Z ds) (e - Z.of_nat (length fp)))
  end.

Definition parse_special (sign : bool) (l : list ascii) : option float :=
  let w := string_of_list_ascii (map lower l) in
  if String.eqb w "inf" || String.eqb w "infinity"
  then Some (infinity sign)
  else if String.eqb w "nan" then Some nan else None.

Definition of_string (s : string) : option float :=
  l ← drop_underscores None (strip (list_ascii_of_string s));
  let '(sign, body) := split_sign l in
  match parse_special sign body with
  | Some x => Some x
  | None => parse_numeral sign body
  end.

End PyFloat.

(** ** Text operations of [_parse_time] *)

Module PyStr.

Definition chars : string -> list ascii := list_ascii_of_string.

(** [s.endswith(suffix)] *)
Definition endswith (s sfx : string) : bool :=
  bool_decide (chars sfx `suffix_of` chars s).

(** [s[:-n]] for a positive [n]: the text without its last [n]
    characters, empty when there are fewer. *)
Definition drop_last (n : nat) (s : string) : string :=
  string_of_list_ascii (take (length (chars s) - n) (chars s)).

End PyStr.

(** ** Values, callables and exceptions *)

(** The two kinds of closure the decorators build. *)
Inductive wkind := Periodic | OneShot.

(** A callable carries the [__name__] the scheduler keys everything on.
    [Fn name id] is a function of the caller ([id] tells two functions of
    the same name apart); [Wrapper k f] is the closure [wrapper] built by
    [every] ([Periodic]) or [after] ([OneShot]) around [f]. *)
Inductive callable :=
  | Fn (name : string) (id : nat)
  | Wrapper (k : wkind) (f : callable).

(** [functools.wraps] copies [__name__] from the wrapped function. *)
Fixpoint fn_name (c : callable) : string :=
  match c with
  | Fn name _ => name
  | Wrapper _ f => fn_name f
  end.

Inductive value :=
  | VNone
  | VBool (b : bool)
  | VInt (z : Z)
  | VFloat (x : PyFloat.float)
  | VStr (s : string)
  | VFunc (c : callable).

(** Truth value of an object, as tested by [if v:]. *)
Definition truthy (v : value) : bool :=
  match v with
  | VNone => false
  | VBool b => b
  | VInt z => negb (z =? 0)
  | VFloat x => negb (PyFloat.eqb x PyFloat.zero)
  | VStr s => negb (String.eqb s "")
  | VFunc _ => true
  end.

Inductive exn :=
  | InvalidIntervalFormat            (* ValueError("Invalid interval format") *)
  | FloatSyntax (s : string)         (* ValueError raised by float(s) *)
  | NegativeInterval                 (* ValueError("Interval must be non-negative") *)
  | GroupNotFound (target : string)  (* ValueError("Group '...' not found") *)
  | TaskExists (name : string)       (* NameError("Task '...' already exists.") *)
  | TaskNotFound (task : value)      (* ValueError("Task '...' not found") *)
  | NoSuchProperty (prop name : string)  (* ValueError("Property ... does not exist ...") *)
  | BadArguments (task : value)      (* ValueError("Arguments for task ... must be a list or tuple") *)
  | TaskError (name : string) (e : exn)  (* RuntimeError("Error in task '...': ...") *)
  | KeyError (key : value)           (* subscript of a missing dict key *)
  | NotInList (x : string)           (* ValueError of list.remove *)
  | AttributeError (v : value) (attr : string)
  | TypeError (v : value)
  | SleepValueError (v : value)      (* ValueError of time.sleep: negative or NaN *)
  | OverflowError (v : value)
  | UserError (tag : string)         (* an Exception instance raised by a task body *)
  | SystemExit                       (* BaseException, not an Exception *)
  | KeyboardInterrupt.               (* BaseException, not an Exception *)

(** The exception classes of the taxonomy. *)
Inductive exn_class :=
  | CValueError | CNameError | CRuntimeError | CKeyError | CAttributeError
  | CTypeError | COverflowError | CException | CBaseException.

Definition class_of (e : exn) : exn_class :=
  match e with
  | InvalidIntervalFormat | FloatSyntax _ | NegativeInterval
  | GroupNotFound _ | TaskNotFound _ | NoSuchProperty _ _ | BadArguments _
  | NotInList _ | SleepValueError _ => CValueError
  | TaskExists _ => CNameError
  | TaskError _ _ => CRuntimeError
  | KeyError _ => CKeyError
  | AttributeError _ _ => CAttributeError
  | TypeError _ => CTypeError
  | OverflowError _ => COverflowError
  | UserError _ => CException
  | SystemExit | KeyboardInterrupt => CBaseException
  end.

(** [isinstance(e, Exception)]: what [except Exception] intercepts. *)
Definition is_Exception (e : exn) : bool :=
  match class_of e with
  | CBaseException => false
  | _ => true
  end.

(** *** Decidable equality and countability (values are dict keys) *)

Global Instance wkind_eq_dec : EqDecision wkind.
Proof. solve_decision. Defined.
Global Instance float_eq_dec : EqDecision PyFloat.float.
Proof. unfold PyFloat.float. solve_decision. Defined.
Global Instance callable_eq_dec : EqDecision callable.
Proof. solve_decision. Defined.
Global Instance value_eq_dec : EqDecision value.
Proof. solve_decision. Defined.

Global Instance wkind_countable : Countable wkind.
Proof.
  refine (inj_countable'
            (fun k => match k with Periodic => true | OneShot => false end)
            (fun b : bool => if b then Periodic else OneShot) _).
  by intros [].
Defined.

Global Instance float_countable : Countable PyFloat.float.
Proof.
  refine (inj_countable'
            (fun x : PyFloat.float =>
               match x with
               | S754_zero s => inl (inl s)
               | S754_infinity s => inl (inr s)
               | S754_nan => inr (inl ())
               | S754_finite s m e => inr (inr (s, m, e))
               end)
            (fun t : (bool + bool) + (() + bool * positive * Z) =>
               match t with
               | inl (inl s) => S754_zero s
               | inl (inr s) => S754_infinity s
               | inr (inl _) => S754_nan
               | inr (inr (s, m, e)) => S754_finite s m e
               end) _).
  by intros [].
Defined.

Fixpoint callable_code (c : callable) : list wkind * (string * nat) :=
  match c with
  | Fn name id => ([], (name, id))
  | Wrapper k f => let '(ks, b) := callable_code f in (k :: ks, b)
  end.

Definition callable_decode (t : list wkind * (string * nat)) : callable :=
  foldr Wrapper (Fn t.2.1 t.2.2) t.1.

Global Instance callable_countable : Countable callable.
Proof.
  refine (inj_countable' callable_code callable_decode _).
  intros c. induction c as [|k f IH]; simpl; [done|].
  destruct (callable_code f) as [ks b]. unfold callable_decode in *.
  simpl in *. by rewrite IH.
Defined.

Global Instance value_countable : Countable value.
Proof.
  refine (inj_countable'
            (fun v =>
               match v with
               | VNone => inl (inl ())
               | VBool b => inl (inr b)
               | VInt z => inr (inl (inl z))
               | VFloat x => inr (inl (inr x))
               | VStr s => inr (inr (inl s))
               | VFunc c => inr (inr (inr c))
               end)
            (fun t : (() + bool) + ((Z + PyFloat.float) + (string + callable)) =>
               match t with
               | inl (inl _) => VNone
               | inl (inr b) => VBool b
               | inr (inl (inl z)) => VInt z
               | inr (inl (inr x)) => VFloat x
               | inr (inr (inl s)) => VStr s
               | inr (inr (inr c)) => VFunc c
               end) _).
  by intros [].
Defined.

(** ** Results of fallible code *)

Inductive result (A : Type) :=
  | Ok (a : A)
  | Raise (e : exn).
Arguments Ok {A} a.
Arguments Raise {A} e.

Definition result_bind {A B} (m : result A) (k : A -> result B) : result B :=
  match m with
  | Ok a => k a
  | Raise e => Raise e
  end.

(** ** [_parse_time] *)

Definition to_float (s : string) : result PyFloat.float :=
  match PyFloat.of_string s with
  | Some x => Ok x
  | None => Raise (FloatSyntax s)
  end.

Definition _parse_time (interval : string) : result PyFloat.float :=
  result_bind
    (if PyStr.endswith interval "s" && negb (PyStr.endswith interval "ms") then
       to_float (PyStr.drop_last 1 interval)
     else if PyStr.endswith interval "m" then
       result_bind (to_float (PyStr.drop_last 1 interval))
         (fun x => Ok (PyFloat.mul x (PyFloat.of_Z 60)))
     else if PyStr.endswith interval "h" then
       result_bind (to_float (PyStr.drop_last 1 interval))
         (fun x => Ok (PyFloat.mul x (PyFloat.of_Z 3600)))
     else if PyStr.endswith interval "d" then
       result_bind (to_float (PyStr.drop_last 1 interval))
         (fun x => Ok (PyFloat.mul x (PyFloat.of_Z 86400)))
     else if PyStr.endswith interval "ms" then
       result_bind (to_float (PyStr.drop_last 2 interval))
         (fun x => Ok (PyFloat.div x (PyFloat.of_Z 1000)))
     else Raise InvalidIntervalFormat)
    (fun val =>
       if PyFloat.ltb val (PyFloat.of_Z 0) then Raise NegativeInterval
       else Ok val).

(** ** Scheduler state

    [self.tasks] maps a task name to a dict object; dict objects live in
    [objs] under their identity, so that a worker holding [props] and the
    registry refer to the same mutable record.  [self.groups] maps a group
    key to the list of member names. *)

Abbreviation loc := positive (only parsing).

Record scheduler := Scheduler {
  tasks : gmap string loc;
  objs : gmap loc (gmap string value);
  groups : gmap value (list string)
}.

(** [TaskForge.__init__] *)
Definition init : scheduler :=
  {| tasks := ∅; objs := ∅; groups := ∅ |}.

Definition set_tasks (t : gmap string loc) (s : scheduler) : scheduler :=
  {| tasks := t; objs := objs s; groups := groups s |}.
Definition set_objs (o : gmap loc (gmap string value)) (s : scheduler) : scheduler :=
  {| tasks := tasks s; objs := o; groups := groups s |}.
Definition set_groups (g : gmap value (list string)) (s : scheduler) : scheduler :=
  {| tasks := tasks s; objs := objs s; groups := g |}.

(** The dict object at [l]. *)
Definition deref (s : scheduler) (l : loc) : gmap string value :=
  default ∅ (objs s !! l).

(** [self.tasks[name]] as a value, when the name is registered. *)
Definition task_record (s : scheduler) (name : string) : option (gmap string value) :=
  l ← tasks s !! name; objs s !! l.

(** Methods run on the scheduler state and may raise after having changed it. *)
Definition M (A : Type) : Type := scheduler -> result A * scheduler.

Definition mret {A} (a : A) : M A := fun s => (Ok a, s).
Definition mraise {A} (e : exn) : M A := fun s => (Raise e, s).
Definition mbind {A B} (m : M A) (k : A -> M B) : M B :=
  fun s =>
    match m s with
    | (Ok a, s') => k a s'
    | (Raise e, s') => (Raise e, s')
    end.
Definition lift {A} (r : result A) : M A := fun s => (r, s).
Definition get_state : M scheduler := fun s => (Ok s, s).
Definition modify (f : scheduler -> scheduler) : M unit := fun s => (Ok tt, f s).

Declare Scope sched_scope.
Delimit Scope sched_scope with sched.
Notation "'do' x <- m ; k" := (mbind m (fun x => k))
  (at level 10, x name, m at level 100, k at level 200) : sched_scope.
Notation "m ;;; k" := (mbind m (fun _ => k))
  (at level 100, k at level 200, right associativity) : sched_scope.
Local Open Scope sched_scope.

(** A new dict object. *)
Definition alloc (r : gmap string value) : M loc :=
  fun s => let l := fresh (dom (objs s)) in (Ok l, set_objs (<[l := r]> (objs s)) s).

(** [d[key] = v] on the dict object [l]. *)
Definition set_item (l : loc) (key : string) (v : value) : M unit :=
  modify (fun s => set_objs (<[l := <[key := v]> (deref s l)]> (objs s)) s).

(** Iteration of a [for] loop whose body may raise. *)
Fixpoint for_each {A} (body : A -> M unit) (l : list A) : M unit :=
  match l with
  | [] => mret tt
  | a :: l' => body a ;;; for_each body l'
  end.

(** ** [every] *)

(** [x = self._parse_time(x) if x else 0] *)
Definition parse_optional (x : option string) : result value :=
  match x with
  | Some t =>
      if negb (String.eqb t "") then result_bind (_parse_time t) (fun v => Ok (VFloat v))
      else Ok (VInt 0)
  | None => Ok (VInt 0)
  end.

(** [self.groups[group].append(name)] or [self.groups[group] = [name]] *)
Definition group_add (group : value) (name : string) : M unit :=
  modify (fun s =>
    match groups s !! group with
    | Some members => set_groups (<[group := members ++ [name]]> (groups s)) s
    | None => set_groups (<[group := [name]]> (groups s)) s
    end).

(** The inner [decorator(func)] of [every], closed over the parsed times. *)
Definition every_decorator (interval delay jitter limit log group : value)
    (func : callable) : M callable :=
  let task_name := fn_name func in
  do s <- get_state;
  match tasks s !! task_name with
  | Some _ => mraise (TaskExists task_name)
  | None =>
      let wrapper := Wrapper Periodic func in
      do l <- alloc (<["function" := VFunc wrapper]>
                    (<["state" := VStr "active"]>
                    (<["interval" := interval]>
                    (<["delay" := delay]>
                    (<["jitter" := jitter]>
                    (<["limit" := limit]>
                    (<["log" := log]>
                    (<["group" := group]> ∅))))))));
      modify (fun s => set_tasks (<[task_name := l]> (tasks s)) s) ;;;
      (if truthy group then group_add group task_name else mret tt) ;;;
      mret wrapper
  end.

Definition every (interval : string) (delay jitter : option string)
    (limit log group : value) : result (callable -> M callable) :=
  result_bind (_parse_time interval) (fun interval =>
  result_bind (parse_optional jitter) (fun jitter =>
  result_bind (parse_optional delay) (fun delay =>
  Ok (every_decorator (VFloat interval) delay jitter limit log group)))).

(** ** [after] *)

Definition after_decorator (delay jitter log : value) (func : callable) : M callable :=
  let task_name := fn_name func in
  let wrapper := Wrapper OneShot func in
  do l <- alloc (<["function" := VFunc wrapper]>
                (<["state" := VStr "active"]>
                (<["delay" := delay]>
                (<["jitter" := jitter]>
                (<["log" := log]> ∅)))));
  modify (fun s => set_tasks (<[task_name := l]> (tasks s)) s) ;;;
  mret wrapper.

Definition after (delay jitter : option string) (log : value)
    : result (callable -> M callable) :=
  result_bind (parse_optional jitter) (fun jitter =>
  result_bind (parse_optional delay) (fun delay =>
  Ok (after_decorator delay jitter log))).

(** ** [_set_state], [pause], [resume], [stop] *)

Definition _set_state (func : callable) (state : value) : M unit :=
  let task_name := fn_name func in
  do s <- get_state;
  match tasks s !! task_name with
  | Some l => set_item l "state" state
  | None => mraise (TaskNotFound (VStr task_name))
  end.

Definition pause (func : callable) : M unit := _set_state func (VStr "paused").
Definition resume (func : callable) : M unit := _set_state func (VStr "active").
Definition stop (func : callable) : M unit := _set_state func (VStr "stopped").

(** ** [edit] *)

(** [lst.remove(x)]: drops the first occurrence, fails when there is none. *)
Fixpoint list_remove (x : string) (lst : list string) : option (list string) :=
  match lst with
  | [] => None
  | y :: lst' => if decide (y = x) then Some lst' else cons y <$> list_remove x lst'
  end.

(** Leaving the old group: remove the name, delete the group when empty. *)
Definition group_leave (old_group : value) (name : string) : M unit :=
  do s <- get_state;
  match groups s !! old_group with
  | None => mraise (KeyError old_group)
  | Some members =>
      match list_remove name members with
      | None => mraise (NotInList name)
      | Some [] => modify (set_groups (delete old_group (groups s)))
      | Some members' => modify (set_groups (<[old_group := members']> (groups s)))
      end
  end.

(** Joining the new group: create it when missing, append the name. *)
Definition group_join (new_group : value) (name : string) : M unit :=
  modify (fun s =>
    let g := match groups s !! new_group with
             | Some _ => groups s
             | None => <[new_group := []]> (groups s)
             end in
    set_groups (<[new_group := default [] (g !! new_group) ++ [name]]> g) s).

Definition timing_prop (prop : string) : bool :=
  bool_decide (prop ∈ ["delay"; "interval"; "jitter"]).

(** [self._parse_time(value)] on an arbitrary object: only text has
    [endswith]. *)
Definition parse_time_value (v : value) : result PyFloat.float :=
  match v with
  | VStr t => _parse_time t
  | _ => Raise (AttributeError v "endswith")
  end.

(** One round of the [for prop, value in updates.items()] loop. *)
Definition edit_item (task_name : string) (l : loc) (upd : string * value) : M unit :=
  let '(prop, v) := upd in
  do s <- get_state;
  match deref s l !! prop with
  | None => mraise (NoSuchProperty prop task_name)
  | Some _ =>
      (if String.eqb prop "group" then
         let old_group := default VNone (deref s l !! "group") in
         (if truthy old_group then group_leave old_group task_name else mret tt) ;;;
         (if truthy v then group_join v task_name else mret tt)
       else mret tt) ;;;
      if timing_prop prop then
        do parsed_val <- lift (parse_time_value v);
        set_item l prop (VFloat parsed_val)
      else set_item l prop v
  end.

Definition edit (func : callable) (updates : list (string * value)) : M unit :=
  let task_name := fn_name func in
  do s <- get_state;
  match tasks s !! task_name with
  | Some l => for_each (edit_item task_name l) updates
  | None => mraise (TaskNotFound (VStr task_name))
  end.

(** ** [_expand_targets] and [run] *)

Fixpoint _expand_targets (s : scheduler) (targets : list value) : result (list value) :=
  match targets with
  | [] => Ok []
  | target :: rest =>
      result_bind
        (match target with
         | VStr name =>
             match groups s !! target with
             | Some members => Ok (VStr <$> members)
             | None => Raise (GroupNotFound name)
             end
         | VFunc c => Ok [VStr (fn_name c)]
         | _ => Ok [target]
         end)
        (fun names => result_bind (_expand_targets s rest) (fun more => Ok (names ++ more)))
  end.

(** The argument object given for a task in [args]: a list or tuple, or
    something else. *)
Inductive pyargs :=
  | ArgSeq (l : list value)
  | ArgOther (v : value).

(** A started worker thread: the callable it runs and its arguments. *)
Record launch := Launch { l_target : value; l_args : list value }.

(** [targets = self._expand_targets(targets) if targets else list(self.tasks.keys())];
    the key list is taken in the order of the finite map. *)
Definition run_targets (s : scheduler) (targets : option (list value)) : result (list value) :=
  match targets with
  | Some ((_ :: _) as t) => _expand_targets s t
  | _ => Ok (VStr <$> elements (dom (tasks s)))
  end.

Definition task_args (args : option (gmap string pyargs)) (task : string) : pyargs :=
  match args with
  | Some d => default (ArgSeq []) (d !! task)
  | None => ArgSeq []
  end.

(** The loop of [run_tasks]: the threads started so far and how the loop
    ended. *)
Fixpoint run_tasks (s : scheduler) (args : option (gmap string pyargs))
    (targets : list value) : list launch * result unit :=
  match targets with
  | [] => ([], Ok tt)
  | task :: rest =>
      match task with
      | VStr name =>
          match tasks s !! name with
          | Some l =>
              match task_args args name with
              | ArgSeq a =>
                  match deref s l !! "function" with
                  | Some f =>
                      let '(started, r) := run_tasks s args rest in
                      (Launch f a :: started, r)
                  | None => ([], Raise (KeyError (VStr "function")))
                  end
              | ArgOther _ => ([], Raise (BadArguments task))
              end
          | None => ([], Raise (TaskNotFound task))
          end
      | _ => ([], Raise (TaskNotFound task))
      end
  end.

(** [run]: what the caller observes and which threads were started.  A
    non-blocking call hands the loop to a background thread, whose
    exception the caller does not see. *)
Definition run (s : scheduler) (blocking : bool) (targets : option (list value))
    (args : option (gmap string pyargs)) : list launch * result unit :=
  match run_targets s targets with
  | Raise e => ([], Raise e)
  | Ok names =>
      let '(started, r) := run_tasks s args names in
      (started, if blocking then r else Ok tt)
  end.

Local Close Scope sched_scope.

(** ** Workers

    A worker is the invocation of one of the two [wrapper] closures.  It
    runs against an environment: the scheduler state is shared with other
    threads and with the task body itself, which may call back into the
    scheduler. *)

Inductive message :=
  | MsgExecuting (name : string)             (* "Executing task: ..." *)
  | MsgSuccess (name : string)               (* "Task '...' executed successfully" *)
  | MsgStopped (name : string)               (* "Task '...' stopped" *)
  | MsgRemaining (name : string) (n : value). (* "Task '...' will run n more times" *)

Inductive event :=
  | ESleep (secs : value)
  | ECall (args : list value)
  | EPrint (m : message).

(** - [body k args s]: the [k]-th execution of the wrapped function, what it
      raises (if anything) and the shared state it leaves;
    - [interfere k s]: what other threads have done to the shared state by
      the time of the worker's [k]-th read of it;
    - [random k]: the [k]-th draw of [random.random()]. *)
Record env := Env {
  body : nat -> list value -> scheduler -> option exn * scheduler;
  interfere : nat -> scheduler -> scheduler;
  random : nat -> PyFloat.float
}.

Record world := World {
  w_sched : scheduler;
  w_trace : list event;
  w_calls : nat;
  w_reads : nat;
  w_draws : nat
}.

Definition start (s : scheduler) : world :=
  {| w_sched := s; w_trace := []; w_calls := 0; w_reads := 0; w_draws := 0 |}.

Inductive outcome (A : Type) :=
  | Returned (a : A)
  | Raised (e : exn)
  | OutOfFuel.
Arguments Returned {A} a.
Arguments Raised {A} e.
Arguments OutOfFuel {A}.

Definition W (A : Type) : Type := world -> outcome A * world.

Definition wret {A} (a : A) : W A := fun w => (Returned a, w).
Definition wraise {A} (e : exn) : W A := fun w => (Raised e, w).
Definition wbind {A B} (m : W A) (k : A -> W B) : W B :=
  fun w =>
    match m w with
    | (Returned a, w') => k a w'
    | (Raised e, w') => (Raised e, w')
    | (OutOfFuel, w') => (OutOfFuel, w')
    end.
Definition wlift {A} (r : result A) : W A :=
  match r with
  | Ok a => wret a
  | Raise e => wraise e
  end.

Declare Scope worker_scope.
Delimit Scope worker_scope with worker.
Notation "'do' x <- m ; k" := (wbind m (fun x => k))
  (at level 10, x name, m at level 100, k at level 200) : worker_scope.
Notation "m ;;; k" := (wbind m (fun _ => k))
  (at level 100, k at level 200, right associativity) : worker_scope.
Local Open Scope worker_scope.

(** [try: block  except Exception as e: handler e] *)
Definition try_except {A} (block : W A) (handler : exn -> W A) : W A :=
  fun w =>
    match block w with
    | (Raised e, w') => if is_Exception e then handler e w' else (Raised e, w')
    | r => r
    end.

Definition emit (e : event) : W unit :=
  fun w => (Returned tt,
            {| w_sched := w_sched w; w_trace := w_trace w ++ [e];
               w_calls := w_calls w; w_reads := w_reads w; w_draws := w_draws w |}).

Definition print (m : message) : W unit := emit (EPrint m).

(** *** Arithmetic on numbers (int, bool, float) *)

Inductive num := NInt (z : Z) | NFloat (x : PyFloat.float).

Definition as_num (v : value) : result num :=
  match v with
  | VInt z => Ok (NInt z)
  | VBool b => Ok (NInt (if b then 1 else 0))
  | VFloat x => Ok (NFloat x)
  | _ => Raise (TypeError v)
  end.

Definition num_to_float (n : num) : result PyFloat.float :=
  match n with
  | NFloat x => Ok x
  | NInt z =>
      let x := PyFloat.of_Z z in
      if PyFloat.is_finite x then Ok x else Raise (OverflowError (VInt z))
  end.

Definition arith (fz : Z -> Z -> Z) (ff : PyFloat.float -> PyFloat.float -> PyFloat.float)
    (a b : value) : result value :=
  result_bind (as_num a) (fun x =>
  result_bind (as_num b) (fun y =>
  match x, y with
  | NInt i, NInt j => Ok (VInt (fz i j))
  | _, _ =>
      result_bind (num_to_float x) (fun p =>
      result_bind (num_to_float y) (fun q => Ok (VFloat (ff p q))))
  end)).

Definition py_add : value -> value -> result value := arith Z.add PyFloat.add.
Definition py_sub : value -> value -> result value := arith Z.sub PyFloat.sub.
Definition py_mul : value -> value -> result value := arith Z.mul PyFloat.mul.

(** [-v] *)
Definition py_neg (v : value) : result value :=
  result_bind (as_num v) (fun x =>
  match x with
  | NInt i => Ok (VInt (- i))
  | NFloat p => Ok (VFloat (PyFloat.neg p))
  end).

(** [v > 0] *)
Definition py_positive (v : value) : result bool :=
  result_bind (as_num v) (fun x =>
  match x with
  | NInt i => Ok (0 <? i)
  | NFloat p => Ok (PyFloat.ltb PyFloat.zero p)
  end).

(** *** Primitive steps *)

(** Other threads get their turn before the worker reads shared state. *)
Definition yield (E : env) : W unit :=
  fun w => (Returned tt,
            {| w_sched := interfere E (w_reads w) (w_sched w); w_trace := w_trace w;
               w_calls := w_calls w; w_reads := S (w_reads w); w_draws := w_draws w |}).

(** [self.tasks[task_name]]: the dict object registered under the name. *)
Definition lookup_task (E : env) (task_name : string) : W loc :=
  yield E ;;;
  fun w =>
    match tasks (w_sched w) !! task_name with
    | Some l => (Returned l, w)
    | None => (Raised (KeyError (VStr task_name)), w)
    end.

(** [props[key]] *)
Definition get_item (E : env) (props : loc) (key : string) : W value :=
  yield E ;;;
  fun w =>
    match deref (w_sched w) props !! key with
    | Some v => (Returned v, w)
    | None => (Raised (KeyError (VStr key)), w)
    end.

(** [time.sleep(secs)]: refuses what is not a number, negative numbers and
    NaN; an infinite duration overflows.  Every other duration is taken:
    the upper end of the host clock (some 292 years) is not modelled. *)
Definition sleep (secs : value) : W unit :=
  do n <- wlift (as_num secs);
  match n with
  | NInt z => if z <? 0 then wraise (SleepValueError secs) else emit (ESleep secs)
  | NFloat x =>
      if PyFloat.is_nan x || PyFloat.ltb x PyFloat.zero then wraise (SleepValueError secs)
      else if PyFloat.is_finite x then emit (ESleep secs)
      else wraise (OverflowError secs)
  end.

(** The call of the wrapped function [func] with the worker's arguments. *)
Definition call (E : env) (args : list value) : W unit :=
  fun w =>
    let '(r, s') := body E (w_calls w) args (w_sched w) in
    (match r with
     | None => Returned tt
     | Some e => Raised e
     end,
     {| w_sched := s'; w_trace := w_trace w ++ [ECall args];
        w_calls := S (w_calls w); w_reads := w_reads w; w_draws := w_draws w |}).

(** [random.random()] *)
Definition draw (E : env) : W PyFloat.float :=
  fun w => (Returned (random E (w_draws w)),
            {| w_sched := w_sched w; w_trace := w_trace w;
               w_calls := w_calls w; w_reads := w_reads w; w_draws := S (w_draws w) |}).

(** [random.uniform(a, b)], that is [a + (b - a) * self.random()]. *)
Definition uniform (E : env) (a b : value) : W value :=
  do width <- wlift (py_sub b a);
  do r <- draw E;
  do scaled <- wlift (py_mul width (VFloat r));
  wlift (py_add a scaled).

(** The body shared by both wrappers:
[[
    try:
        if props["log"]: print(f"Executing task: {func.__name__}")
        func( *args, **kwargs)
        if props["log"]: print(f"Task '{func.__name__}' executed successfully")
    except Exception as e:
        if props["log"]: raise RuntimeError(f"Error in task '{func.__name__}': {e}")
]] *)
Definition execute (E : env) (task_name : string) (props : loc) (args : list value) : W unit :=
  try_except
    (do lg <- get_item E props "log";
     (if truthy lg then print (MsgExecuting task_name) else wret tt) ;;;
     call E args ;;;
     do lg <- get_item E props "log";
     if truthy lg then print (MsgSuccess task_name) else wret tt)
    (fun e =>
       do lg <- get_item E props "log";
       if truthy lg then wraise (TaskError task_name e) else wret tt).

(** The wait both wrappers compute, the periodic one from [base = "interval"],
    the one-shot one from [base = "delay"]:
[[
    jitter = props["jitter"]
    jitter_amount = random.uniform(-jitter, jitter)
    interval = props["interval"]
    if interval + jitter_amount > 0:
        time.sleep(interval + jitter_amount)
]] *)
Definition jittered_sleep (E : env) (props : loc) (base : string) : W unit :=
  do jitter <- get_item E props "jitter";
  do lo <- wlift (py_neg jitter);
  do jitter_amount <- uniform E lo jitter;
  do interval <- get_item E props base;
  do gap <- wlift (py_add interval jitter_amount);
  do positive <- wlift (py_positive gap);
  if positive then sleep gap else wret tt.

(** *** The wrapper built by [every] *)

Inductive control :=
  | Next (local_limit : value)   (* go on to test the loop condition again *)
  | Break.

(** [local_limit is None or local_limit > 0] *)
Definition loop_condition (local_limit : value) : result bool :=
  match local_limit with
  | VNone => Ok true
  | _ => py_positive local_limit
  end.

Definition poll_interval : value := VFloat (S754_finite false 7205759403792794 (-56)).

(** One round of the [while] loop. *)
Definition iteration (E : env) (task_name : string) (args : list value)
    (local_limit : value) : W control :=
  do props <- lookup_task E task_name;
  do state <- get_item E props "state";
  if decide (state = VStr "paused") then
    sleep poll_interval ;;; wret (Next local_limit)
  else if decide (state = VStr "stopped") then
    do lg <- get_item E props "log";
    (if truthy lg then print (MsgStopped task_name) else wret tt) ;;;
    wret Break
  else
    execute E task_name props args ;;;
    jittered_sleep E props "interval" ;;;
    do local_limit' <-
      match local_limit with
      | VNone => wret VNone
      | _ => wlift (py_sub local_limit (VInt 1))
      end;
    do lg <- get_item E props "log";
    (if truthy lg && negb (bool_decide (local_limit' = VNone))
     then print (MsgRemaining task_name local_limit') else wret tt) ;;;
    wret (Next local_limit').

(** The [while] loop; [fuel] bounds the number of rounds. *)
Fixpoint loop (E : env) (task_name : string) (args : list value)
    (fuel : nat) (local_limit : value) : W unit :=
  do go <- wlift (loop_condition local_limit);
  if go then
    match fuel with
    | O => fun w => (OutOfFuel, w)
    | S fuel' =>
        do c <- iteration E task_name args local_limit;
        match c with
        | Next local_limit' => loop E task_name args fuel' local_limit'
        | Break => wret tt
        end
    end
  else wret tt.

Definition periodic_wrapper (E : env) (task_name : string) (args : list value)
    (fuel : nat) : W unit :=
  do props <- lookup_task E task_name;
  do delay <- get_item E props "delay";
  sleep delay ;;;
  do local_limit <- get_item E props "limit";
  loop E task_name args fuel local_limit.

(** *** The wrapper built by [after] *)

Definition oneshot_wrapper (E : env) (task_name : string) (args : list value) : W unit :=
  do props <- lookup_task E task_name;
  jittered_sleep E props "delay" ;;;
  execute E task_name props args.

(** Calling a callable: a wrapper runs its loop around the function it
    closes over, whose executions are the environment's [body]. *)
Definition invoke (E : env) (c : callable) (args : list value) (fuel : nat) : W unit :=
  match c with
  | Wrapper Periodic f => periodic_wrapper E (fn_name f) args fuel
  | Wrapper OneShot f => oneshot_wrapper E (fn_name f) args
  | Fn _ _ => call E args
  end.

(** ** The duration grammar of the specification

    [<number><unit>] with unit one of [ms], [s], [m], [h], [d]. *)

Inductive time_unit := Milliseconds | Seconds | Minutes | Hours | Days.

Definition unit_suffix (u : time_unit) : string :=
  match u with
  | Milliseconds => "ms"
  | Seconds => "s"
  | Minutes => "m"
  | Hours => "h"
  | Days => "d"
  end.

(** The seconds a magnitude stands for: ms = magnitude/1000, s = magnitude,
    m = magnitude*60, h = magnitude*3600, d = magnitude*86400. *)
Definition seconds_of (u : time_unit) (magnitude : PyFloat.float) : PyFloat.float :=
  match u with
  | Milliseconds => PyFloat.div magnitude (PyFloat.of_Z 1000)
  | Seconds => magnitude
  | Minutes => PyFloat.mul magnitude (PyFloat.of_Z 60)
  | Hours => PyFloat.mul magnitude (PyFloat.of_Z 3600)
  | Days => PyFloat.mul magnitude (PyFloat.of_Z 86400)
  end.

(** A token is cut at its unit as the specification says, [ms] taking
    precedence over [s]: a seconds token has no [m] before the [s]. *)
Definition unit_applies (u : time_unit) (magnitude : string) : Prop :=
  u = Seconds -> PyStr.endswith magnitude "m" = false.

Definition negative (x : PyFloat.float) : bool := PyFloat.ltb x PyFloat.zero.

(** The error classes of the specification's taxonomy. *)
Definition format_error (e : exn) : bool :=
  match e with
  | InvalidIntervalFormat | FloatSyntax _ => true
  | _ => false
  end.

Definition range_error (e : exn) : bool :=
  match e with
  | NegativeInterval => true
  | _ => false
  end.

Definition has_unit_suffix (token : string) : bool :=
  PyStr.endswith token "s" || PyStr.endswith token "m" || PyStr.endswith token "h"
  || PyStr.endswith token "d".

(** Binary64 literals used in the statements. *)
Definition f0_5 : PyFloat.float := S754_finite false 4503599627370496 (-53).
Definition f1 : PyFloat.float := S754_finite false 4503599627370496 (-52).
Definition f5 : PyFloat.float := S754_finite false 5629499534213120 (-50).
Definition f120 : PyFloat.float := S754_finite false 8444249301319680 (-46).
Definition f3600 : PyFloat.float := S754_finite false 7916483719987200 (-41).
Definition f86400 : PyFloat.float := S754_finite false 5937362789990400 (-36).

(** ** Invariants of the scheduler state *)

(** Every registered name refers to a dict object, and no two names share one. *)
Definition heap_ok (s : scheduler) : Prop :=
  (forall name l, tasks s !! name = Some l -> is_Some (objs s !! l)) /\
  (forall n1 n2 l, tasks s !! n1 = Some l -> tasks s !! n2 = Some l -> n1 = n2).

(** [self.groups.get(g, [])] *)
Definition members (s : scheduler) (g : value) : list string :=
  default [] (groups s !! g).

(** The group of a task according to its record. *)
Definition group_of (s : scheduler) (name : string) : option value :=
  r ← task_record s name; r !! "group".

(** A task's record and the group index agree: the name is listed under
    [g] exactly when the record's group is [g] ([g] being an actual group,
    not an empty value standing for "no group"). *)
Definition groups_agree (s : scheduler) : Prop :=
  forall (name : string) (g : value),
    name ∈ members s g <-> truthy g = true /\ group_of s name = Some g.

Definition groups_nodup (s : scheduler) : Prop :=
  forall g, NoDup (members s g).

(** A group exists only while it has a member. *)
Definition groups_nonempty (s : scheduler) : Prop :=
  forall g l, groups s !! g = Some l -> l <> [].

Definition consistent (s : scheduler) : Prop :=
  heap_ok s /\ groups_agree s /\ groups_nodup s /\ groups_nonempty s.

(** The three state transitions of the facade. *)
Inductive state_change := ToPaused | ToActive | ToStopped.

Definition change_method (c : state_change) : callable -> M unit :=
  match c with
  | ToPaused => pause
  | ToActive => resume
  | ToStopped => stop
  end.

Definition change_state (c : state_change) : string :=
  match c with
  | ToPaused => "paused"
  | ToActive => "active"
  | ToStopped => "stopped"
  end.

(** The operations that change the registry of periodic tasks. *)
Inductive operation :=
  | OpEvery (interval : string) (delay jitter : option string)
            (limit log group : value) (func : callable)
  | OpEdit (func : callable) (updates : list (string * value))
  | OpPause (func : callable)
  | OpResume (func : callable)
  | OpStop (func : callable).

(** The state an operation leaves, whether it returned or raised. *)
Definition apply_operation (s : scheduler) (o : operation) : scheduler :=
  match o with
  | OpEvery interval delay jitter limit log group func =>
      match every interval delay jitter limit log group with
      | Ok decorator => (decorator func s).2
      | Raise _ => s
      end
  | OpEdit func updates => (edit func updates s).2
  | OpPause func => (pause func s).2
  | OpResume func => (resume func s).2
  | OpStop func => (stop func s).2
  end.

Definition apply_operations (s : scheduler) (ops : list operation) : scheduler :=
  foldl apply_operation s ops.

(** The record [after] inserts. *)
Definition oneshot_record (func : callable) (delay jitter log : value) : gmap string value :=
  <["function" := VFunc (Wrapper OneShot func)]>
  (<["state" := VStr "active"]>
  (<["delay" := delay]>
  (<["jitter" := jitter]>
  (<["log" := log]> ∅)))).

(** The record [every] inserts. *)
Definition periodic_record (func : callable) (interval delay jitter limit log group : value)
    : gmap string value :=
  <["function" := VFunc (Wrapper Periodic func)]>
  (<["state" := VStr "active"]>
  (<["interval" := interval]>
  (<["delay" := delay]>
  (<["jitter" := jitter]>
  (<["limit" := limit]>
  (<["log" := log]>
  (<["group" := group]> ∅))))))).

(** The one-shot record as the specification describes it: only the
    function, delay, jitter and log fields. *)
Definition minimal_as_claimed (r : gmap string value) : Prop :=
  dom r = ({["function"; "delay"; "jitter"; "log"]} : gset string).

(** ** A running example *)

Definition job : callable := Fn "job" 0.
Definition report : callable := Fn "report" 1.

(** [@every("1s", limit=3, group="A") def job] then
    [@every("2m", jitter="500ms") def report]. *)
Definition two_tasks : scheduler :=
  apply_operations init
    [OpEvery "1s" None None (VInt 3) (VBool false) (VStr "A") job;
     OpEvery "2m" None (Some "500ms") VNone (VBool false) VNone report].

(** ** Describing a worker's run *)

(** A property of the shared state that neither the other threads nor the
    task body ever break. *)
Definition stable (E : env) (I : scheduler -> Prop) : Prop :=
  (forall k s, I s -> I (interfere E k s)) /\
  (forall k args s, I s -> I (body E k args s).2).

(** The name is registered at the dict object [l], whose record satisfies [Q]. *)
Definition task_at (name : string) (l : loc) (Q : gmap string value -> Prop)
    (s : scheduler) : Prop :=
  tasks s !! name = Some l /\ exists r, objs s !! l = Some r /\ Q r.

(** The record's state is neither paused nor stopped. *)
Definition running (r : gmap string value) : Prop :=
  exists st, r !! "state" = Some st /\ st <> VStr "paused" /\ st <> VStr "stopped".

(** What a bounded periodic task keeps while its worker runs: the limit
    and the timing fields as registered, a log field, and a state that is
    neither paused nor stopped. *)
Definition bounded_task (name : string) (l : loc) (limit delay jitter interval : value)
    : scheduler -> Prop :=
  task_at name l (fun r =>
    r !! "limit" = Some limit /\ r !! "delay" = Some delay /\
    r !! "jitter" = Some jitter /\ r !! "interval" = Some interval /\
    is_Some (r !! "log") /\ running r).

(** The task's record has a log field, which is on ([on = true]) or off. *)
Definition logging (name : string) (l : loc) (on : bool) : scheduler -> Prop :=
  task_at name l (fun r => exists lg, r !! "log" = Some lg /\ truthy lg = on).

(** A worker step that does not break [I], however it ends. *)
Definition keeps (I : scheduler -> Prop) {A} (m : W A) : Prop :=
  forall w, I (w_sched w) -> I (w_sched (m w).2).

(** Whether [time.sleep] takes the duration. *)
Definition accepted (secs : value) : bool :=
  match secs with
  | VInt z => negb (z <? 0)
  | VBool _ => true
  | VFloat x =>
      negb (PyFloat.is_nan x || PyFloat.ltb x PyFloat.zero) && PyFloat.is_finite x
  | _ => false
  end.

(** [interval + random.uniform(-jitter, jitter)] for the draw [x]. *)
Definition gap_value (jitter interval : value) (x : PyFloat.float) : result value :=
  result_bind (py_neg jitter) (fun lo =>
  result_bind (py_sub jitter lo) (fun width =>
  result_bind (py_mul width (VFloat x)) (fun scaled =>
  result_bind (py_add lo scaled) (fun jitter_amount =>
  py_add interval jitter_amount)))).

(** The timing fields let the loop go on for the draw [x]: the gap is
    computed, and it is slept only when [time.sleep] takes it. *)
Definition gap_ok (jitter interval : value) (x : PyFloat.float) : Prop :=
  exists gap positive,
    gap_value jitter interval x = Ok gap /\ py_positive gap = Ok positive /\
    (positive = true -> accepted gap = true).

(** The sleep between two runs, when there is one. *)
Definition gap_events (jitter interval : value) (x : PyFloat.float) : list event :=
  match gap_value jitter interval x with
  | Ok gap =>
      match py_positive gap with
      | Ok true => [ESleep gap]
      | _ => []
      end
  | Raise _ => []
  end.

Definition is_print (e : event) : bool :=
  match e with EPrint _ => true | _ => false end.
Definition is_call (e : event) : bool :=
  match e with ECall _ => true | _ => false end.
Definition is_sleep (e : event) : bool :=
  match e with ESleep _ => true | _ => false end.

(** The sleeps and executions of a trace, console output left out. *)
Definition actions (tr : list event) : list event :=
  filter (fun e => is_print e = false) tr.

Definition executions (tr : list event) : nat :=
  length (filter (fun e => is_call e = true) tr).

(** The events that follow the last execution. *)
Fixpoint after_last_call (tr : list event) : list event :=
  match tr with
  | [] => []
  | e :: tr' =>
      if existsb is_call tr' then after_last_call tr'
      else if is_call e then tr' else []
  end.

(** From world [w] to world [w'] the worker performed the sleeps and
    executions [evs], [calls] executions and [draws] random draws. *)
Definition leads (w w' : world) (evs : list event) (calls draws : nat) : Prop :=
  actions (w_trace w') = actions (w_trace w) ++ evs /\
  w_calls w' = (w_calls w + calls)%nat /\
  w_draws w' = (w_draws w + draws)%nat.

(** The sleeps and executions of a bounded loop that runs [n] rounds, the
    first of which uses the draw number [k]. *)
Fixpoint rounds (E : env) (args : list value) (jitter interval : value)
    (k n : nat) : list event :=
  match n with
  | O => []
  | S n' =>
      (ECall args :: gap_events jitter interval (random E k))
      ++ rounds E args jitter interval (S k) n'
  end.

(** A bounded run as the specification describes it: [n] executions, then
    the end of the loop with no sleep after the last execution. *)
Definition runs_as_claimed (n : nat) (run : outcome unit * world) : Prop :=
  run.1 = Returned tt /\
  executions (w_trace run.2) = n /\
  Forall (fun e => is_sleep e = false) (after_last_call (w_trace run.2)).

(** The environment in which an [Exception] raised by the body counts as a
    normal return. *)
Definition swallowing (E : env) : env :=
  {| body := fun k args s =>
       let '(r, s') := body E k args s in
       (match r with
        | Some e => if is_Exception e then None else Some e
        | None => None
        end, s');
     interfere := interfere E;
     random := random E |}.

(** Nobody else touches the scheduler, the body returns, every draw is 0.5. *)
Definition quiet : env :=
  {| body := fun _ _ s => (None, s);
     interfere := fun _ s => s;
     random := fun _ => PyFloat.of_decimal false 5 (-1) |}.

(** As [quiet], but the body raises an [Exception] each time. *)
Definition failing : env :=
  {| body := fun _ _ s => (Some (UserError "boom"), s);
     interfere := fun _ s => s;
     random := fun _ => PyFloat.of_decimal false 5 (-1) |}.

(** [@every("1s", log=True) def job] on a new scheduler. *)
Definition loud_task : scheduler :=
  apply_operations init [OpEvery "1s" None None VNone (VBool true) VNone job].

(** [@after("1s", log=True) def job] on a new scheduler. *)
Definition loud_oneshot : scheduler :=
  (after_decorator (VFloat (PyFloat.of_Z 1)) (VInt 0) (VBool true) job init).2.

(** What a one-shot task keeps while its worker runs. *)
Definition oneshot_task (name : string) (l : loc) (delay jitter : value)
    : scheduler -> Prop :=
  task_at name l (fun r => r !! "delay" = Some delay /\ r !! "jitter" = Some jitter).

(** The expansion of run targets as the specification describes it: when
    every text target names a registered task or a group, the expansion
    succeeds and lists no name twice. *)
Definition expansion_as_claimed (s : scheduler) (targets : list value) : Prop :=
  (forall name, VStr name ∈ targets ->
     is_Some (tasks s !! name) \/ is_Some (groups s !! VStr name)) ->
  exists names, run_targets s (Some targets) = Ok names /\ NoDup names.

(** An optional duration that was left out: [None] or the empty text. *)
Definition absent (t : option string) : Prop := t = None \/ t = Some "".

(** ** The whole facade

    A call to one of the methods that change the scheduler: one of the
    operations above, or a one-shot registration. *)

Inductive api_call :=
  | Op (o : operation)
  | OpAfter (delay jitter : option string) (log : value) (func : callable).

(** The state a call leaves, whether it returned or raised. *)
Definition api_step (s : scheduler) (c : api_call) : scheduler :=
  match c with
  | Op o => apply_operation s o
  | OpAfter delay jitter log func =>
      match after delay jitter log with
      | Ok decorator => (decorator func s).2
      | Raise _ => s
      end
  end.

(** The state reached from a new scheduler by a sequence of calls. *)
Definition api_run (calls : list api_call) : scheduler := foldl api_step init calls.

(** [@every("1s", limit=3, group="A") def job], then
    [@every("2m", jitter="500ms", group="A") def report], then
    [@after("5s", log=True) def job]. *)
Definition demo_calls : list api_call :=
  [Op (OpEvery "1s" None None (VInt 3) (VBool false) (VStr "A") job);
   Op (OpEvery "2m" None (Some "500ms") VNone (VBool false) (VStr "A") report);
   OpAfter (Some "5s") None (VBool true) job].

(** [two_tasks] without [report], and then
    [@every("2m", jitter="500ms", limit=2) def report]. *)
Definition with_report : scheduler :=
  (every_decorator (VFloat (PyFloat.of_Z 120)) (VInt 0)
     (VFloat (PyFloat.of_decimal false 5 (-1))) (VInt 2) (VBool false) VNone report
     (apply_operations init
        [OpEvery "1s" None None (VInt 3) (VBool false) (VStr "A") job])).2.

(** The keys of the record [after] builds, and of the one [every] builds. *)
Definition oneshot_fields : gset string :=
  {["function"; "state"; "delay"; "jitter"; "log"]}.

Definition periodic_fields : gset string :=
  {["function"; "state"; "interval"; "delay"; "jitter"; "limit"; "log"; "group"]}.

Definition record_shape (r : gmap string value) : Prop :=
  dom r = oneshot_fields \/ dom r = periodic_fields.

Definition records_shaped (s : scheduler) : Prop :=
  forall name r, task_record s name = Some r -> record_shape r.

(** What holds of the group index also when one-shot registrations have
    replaced records: a task whose record names a group is listed there;
    a listed name is registered, under a key that counts as true, and its
    record names that group or has no group field. *)
Definition index_sound (s : scheduler) : Prop :=
  (forall name g, truthy g = true -> group_of s name = Some g -> name ∈ members s g) /\
  (forall name g, name ∈ members s g ->
     truthy g = true /\ is_Some (tasks s !! name) /\
     (group_of s name = Some g \/ group_of s name = None)).

Definition sound (s : scheduler) : Prop :=
  heap_ok s /\ records_shaped s /\ index_sound s /\ groups_nodup s /\ groups_nonempty s.

(** How one round of the loop of [edit] can end: it returns, or it refuses
    a field the record does not have, or the text of a timing field does
    not parse; in the last two cases nothing has changed. *)
Definition edit_item_ends (name : string) (prop : string) (v : value)
    (s : scheduler) (run : result unit * scheduler) : Prop :=
  run.1 = Ok tt \/
  run = (Raise (NoSuchProperty prop name), s) \/
  (timing_prop prop = true /\ exists e, parse_time_value v = Raise e /\ run = (Raise e, s)).

(** From [s] to [s'] the record [r] of [name] took the value [v] in the
    field [key], and nothing else changed. *)
Definition field_written (s s' : scheduler) (name : string) (r : gmap string value)
    (key : string) (v : value) : Prop :=
  task_record s' name = Some (<[key := v]> r) /\
  (forall other, other <> name -> task_record s' other = task_record s other) /\
  tasks s' = tasks s /\ groups s' = groups s.

(** The thread [ln] was started for the task [name]: it runs the function
    field of the task's record on the arguments given for the name. *)
Definition started_for (s : scheduler) (args : option (gmap string pyargs))
    (name : string) (ln : launch) : Prop :=
  (task_record s name ≫= (fun r => r !! "function")) = Some (l_target ln) /\
  task_args args name = ArgSeq (l_args ln).

(** ** Describing a worker's output *)

(** From world [w] to world [w'] the worker produced exactly the events
    [evs], console output included, in [calls] executions. *)
Definition produces (w w' : world) (evs : list event) (calls : nat) : Prop :=
  w_trace w' = w_trace w ++ evs /\ w_calls w' = (w_calls w + calls)%nat.

(** What the loop needs of a record to run a round: the timing fields of
    the wait, a log field, and a state that is neither paused nor stopped.
    The limit field is not among them. *)
Definition round_task (name : string) (l : loc) (jitter interval : value)
    : scheduler -> Prop :=
  task_at name l (fun r =>
    r !! "jitter" = Some jitter /\ r !! "interval" = Some interval /\
    is_Some (r !! "log") /\ running r).

(** The same with the log field known. *)
Definition logged_task (name : string) (l : loc) (jitter interval log : value)
    : scheduler -> Prop :=
  task_at name l (fun r =>
    r !! "jitter" = Some jitter /\ r !! "interval" = Some interval /\
    r !! "log" = Some log /\ running r).

(** The events of one round of the loop: the execution between its two
    lines of console output (when [lg], the log, is on), the wait, and the
    line that tells the count that is left (when there is a count). *)
Definition round_events (name : string) (args : list value) (lg : bool)
    (gap : list event) (remaining : value) : list event :=
  (if lg then [EPrint (MsgExecuting name)] else []) ++ [ECall args] ++
  (if lg then [EPrint (MsgSuccess name)] else []) ++ gap ++
  (if lg && negb (bool_decide (remaining = VNone))
   then [EPrint (MsgRemaining name remaining)] else []).

(** [n] rounds of a loop that counts down from [m], the first of which
    uses the draw number [k]. *)
Fixpoint counted_rounds (E : env) (name : string) (args : list value) (lg : bool)
    (jitter interval : value) (k : nat) (m : Z) (n : nat) : list event :=
  match n with
  | O => []
  | S n' =>
      round_events name args lg (gap_events jitter interval (random E k)) (VInt (m - 1))
      ++ counted_rounds E name args lg jitter interval (S k) (m - 1) n'
  end.

(** [n] rounds of a loop that has no count. *)
Fixpoint endless_rounds (E : env) (name : string) (args : list value) (lg : bool)
    (jitter interval : value) (k : nat) (n : nat) : list event :=
  match n with
  | O => []
  | S n' =>
      round_events name args lg (gap_events jitter interval (random E k)) VNone
      ++ endless_rounds E name args lg jitter interval (S k) n'
  end.

(** As [quiet], but before every read of the worker another thread sets
    the limit of [job] to 100. *)
Definition relimiting : env :=
  {| body := fun _ _ s => (None, s);
     interfere := fun _ s => (edit job [("limit", VInt 100)] s).2;
     random := fun _ => PyFloat.of_decimal false 5 (-1) |}.

(** As [quiet], but the body ends the interpreter each time. *)
Definition exiting : env :=
  {| body := fun _ _ s => (Some SystemExit, s);
     interfere := fun _ s => s;
     random := fun _ => PyFloat.of_decimal false 5 (-1) |}.

(** * Properties *)

(** ** Text lemmas *)

Lemma chars_app (a b : string) :
  PyStr.chars (a +:+ b) = PyStr.chars a ++ PyStr.chars b.
Proof. induction a as [|c a IH]; simpl; [done|]. by rewrite IH. Qed.

Lemma string_app_assoc (a b c : string) : (a +:+ b) +:+ c = a +:+ (b +:+ c).
Proof.
  induction a as [|x a IH]; [done|].
  change (String x ((a +:+ b) +:+ c) = String x (a +:+ (b +:+ c))).
  by rewrite IH.
Qed.

Lemma string_of_chars_app (k l : list ascii) :
  string_of_list_ascii (k ++ l) = string_of_list_ascii k +:+ string_of_list_ascii l.
Proof.
  induction k as [|c k IH]; [done|].
  change (String c (string_of_list_ascii (k ++ l)) =
          String c (string_of_list_ascii k +:+ string_of_list_ascii l)).
  by rewrite IH.
Qed.

Lemma endswith_true (s sfx : string) :
  PyStr.endswith s sfx = true <-> PyStr.chars sfx `suffix_of` PyStr.chars s.
Proof. unfold PyStr.endswith. by rewrite bool_decide_eq_true. Qed.

Lemma endswith_false (s sfx : string) :
  PyStr.endswith s sfx = false <-> ~ PyStr.chars sfx `suffix_of` PyStr.chars s.
Proof. unfold PyStr.endswith. by rewrite bool_decide_eq_false. Qed.

Lemma endswith_app (s sfx : string) : PyStr.endswith (s +:+ sfx) sfx = true.
Proof. apply endswith_true. rewrite chars_app. by apply suffix_app_r. Qed.

(** The last character decides a one-character suffix test. *)
Lemma endswith_last (s : string) (c d : ascii) :
  PyStr.endswith (s +:+ String c "") (String d "") = bool_decide (c = d).
Proof.
  unfold PyStr.endswith. rewrite chars_app. simpl.
  apply bool_decide_ext. split.
  - intros H. symmetry. by apply (suffix_snoc_inv_1 d c [] (PyStr.chars s)).
  - intros ->. by apply suffix_app_r.
Qed.

Lemma endswith_last2 (s : string) (c1 c2 d : ascii) :
  PyStr.endswith (s +:+ String c1 (String c2 "")) (String d "") = bool_decide (c2 = d).
Proof.
  replace (s +:+ String c1 (String c2 "")) with ((s +:+ String c1 "") +:+ String c2 "").
  - apply endswith_last.
  - by rewrite string_app_assoc.
Qed.

(** [ms] is a suffix of [magnitude ++ "s"] exactly when the magnitude ends in [m]. *)
Lemma endswith_ms_s (s : string) :
  PyStr.endswith (s +:+ "s") "ms" = PyStr.endswith s "m".
Proof.
  unfold PyStr.endswith. rewrite chars_app. apply bool_decide_ext.
  change (PyStr.chars "ms") with (PyStr.chars "m" ++ PyStr.chars "s").
  split.
  - apply suffix_app_inv.
  - apply suffix_app.
Qed.

Lemma drop_last_app (s sfx : string) :
  PyStr.drop_last (String.length sfx) (s +:+ sfx) = s.
Proof.
  unfold PyStr.drop_last. rewrite chars_app, length_app.
  replace (String.length sfx) with (length (PyStr.chars sfx)).
  - replace (length (PyStr.chars s) + length (PyStr.chars sfx) - length (PyStr.chars sfx))%nat
      with (length (PyStr.chars s)) by lia.
    rewrite take_app_length. apply string_of_list_ascii_of_string.
  - clear. induction sfx as [|c t IH]; simpl; [done|]. by rewrite IH.
Qed.

(** ** The time parser *)

Lemma round_aux_not_negative (m e : Z) (l : location) :
  negative (binary_round_aux PyFloat.prec PyFloat.emax false m e l) = false.
Proof.
  unfold binary_round_aux.
  destruct (shr_fexp _ _ m e l) as [mrs e'].
  destruct (shr_fexp _ _ _ e' loc_Exact) as [mrs' e''].
  destruct (shr_m mrs'); [done| |done].
  by destruct (_ <=? _).
Qed.

Lemma mul_not_negative (m m' : positive) (e e' : Z) :
  negative (PyFloat.mul (S754_finite false m e) (S754_finite false m' e')) = false.
Proof. apply round_aux_not_negative. Qed.

Lemma div_not_negative (m m' : positive) (e e' : Z) :
  negative (PyFloat.div (S754_finite false m e) (S754_finite false m' e')) = false.
Proof.
  unfold PyFloat.div, SFdiv.
  destruct (SFdiv_core_binary _ _ _ _ _ _) as [[mz ez] lz].
  apply round_aux_not_negative.
Qed.

(** A magnitude that is not negative stays so under every unit. *)
Lemma seconds_of_not_negative (u : time_unit) (x : PyFloat.float) :
  negative x = false -> negative (seconds_of u x) = false.
Proof.
  intros Hx. destruct x as [s|s| |s m e].
  - by destruct u, s.
  - destruct s; [discriminate Hx|]. by destruct u.
  - by destruct u.
  - destruct s; [discriminate Hx|].
    destruct u; unfold seconds_of; [| exact Hx | | |];
      match goal with |- context [PyFloat.of_Z ?n] =>
        let k := eval vm_compute in (PyFloat.of_Z n) in
        change (PyFloat.of_Z n) with k
      end; apply mul_not_negative || apply div_not_negative.
Qed.

(** *** What [float] refuses

    The last character of the text survives stripping, the removal of
    underscores and the sign; a text ending in [m] is no special value
    and no numeral. *)
Lemma lstrip_last (l : list ascii) (c : ascii) :
  PyFloat.is_space c = false -> last l = Some c -> last (PyFloat.lstrip l) = Some c.
Proof.
  intros Hc. induction l as [|a l IH]; [done|]. intros Hl. simpl.
  destruct (PyFloat.is_space a) eqn:Ha; [|done].
  apply IH. destruct l as [|b l]; [|done].
  simpl in Hl. congruence.
Qed.

Lemma strip_last (l : list ascii) (c : ascii) :
  PyFloat.is_space c = false -> last l = Some c -> last (PyFloat.strip l) = Some c.
Proof.
  intros Hc Hl. unfold PyFloat.strip.
  apply (lstrip_last _ _ Hc) in Hl.
  apply last_Some in Hl as [k Hk]. rewrite Hk, rev_app_distr. simpl.
  rewrite Hc. simpl. by rewrite rev_involutive, last_snoc.
Qed.

Lemma drop_underscores_last (l r : list ascii) (prev : option ascii) :
  PyFloat.drop_underscores prev (l ++ ["m"%char]) = Some r ->
  last r = Some "m"%char.
Proof.
  revert prev r. induction l as [|a l IH]; intros prev r.
  - simpl. destruct prev as [p|].
    + destruct (Ascii.eqb p "_") eqn:Hp.
      * apply Ascii.eqb_eq in Hp as ->. by simpl.
      * assert (Hr : Some ["m"%char] = Some r -> last r = Some "m"%char)
          by (by intros [= <-]).
        revert Hr. apply Ascii.eqb_neq in Hp.
        destruct p as [[] [] [] [] [] [] [] []]; simpl; try done.
    + by intros [= <-].
  - simpl. destruct (Ascii.eqb a "_") eqn:Ha.
    + destruct prev as [p|]; [|done]. destruct (PyFloat.is_digit p); [|done].
      apply IH.
    + assert (Hgo : forall r, cons a <$> PyFloat.drop_underscores (Some a) (l ++ ["m"%char]) = Some r ->
                       last r = Some "m"%char).
      { intros r'. destruct (PyFloat.drop_underscores (Some a) (l ++ ["m"%char])) as [r0|] eqn:Hr0; [|done].
        intros [= <-]. apply IH in Hr0.
        destruct r0; [done|]. done. }
      destruct prev as [p|]; [|apply Hgo].
      destruct p as [[] [] [] [] [] [] [] []]; try apply Hgo.
      destruct (PyFloat.is_digit a); [apply Hgo|done].
Qed.

Lemma split_sign_last (l : list ascii) :
  last l = Some "m"%char -> last (PyFloat.split_sign l).2 = Some "m"%char.
Proof.
  destruct l as [|a l]; [done|]. unfold PyFloat.split_sign.
  destruct l as [|b l].
  - simpl. intros [= ->]. done.
  - intros Hl. change (last (a :: b :: l)) with (last (b :: l)) in Hl.
    destruct a as [[] [] [] [] [] [] [] []]; simpl; done.
Qed.

Lemma span_digits_last (l : list ascii) (c : ascii) :
  PyFloat.is_digit c = false -> last l = Some c ->
  last (PyFloat.span_digits l).2 = Some c.
Proof.
  intros Hc. induction l as [|a l IH]; [done|]. intros Hl. simpl.
  destruct (PyFloat.is_digit a) eqn:Ha; [|done].
  destruct l as [|b l]; [simpl in Hl; congruence|].
  specialize (IH Hl). destruct (PyFloat.span_digits (b :: l)). done.
Qed.

Lemma parse_exponent_last (l : list ascii) :
  last l = Some "m"%char -> PyFloat.parse_exponent l = None.
Proof.
  destruct l as [|c l]; [done|]. intros Hl. unfold PyFloat.parse_exponent.
  destruct (Ascii.eqb (PyFloat.lower c) "e") eqn:Hc; [|done].
  destruct l as [|b l].
  { simpl in Hl. injection Hl as ->. done. }
  change (last (c :: b :: l)) with (last (b :: l)) in Hl.
  apply split_sign_last in Hl.
  destruct (PyFloat.split_sign (b :: l)) as [sg l'']. simpl in Hl.
  apply (span_digits_last _ "m"%char eq_refl) in Hl.
  destruct (PyFloat.span_digits l'') as [ds r]. simpl in Hl.
  destruct ds; [done|]. destruct r; done.
Qed.

Lemma parse_numeral_last (sign : bool) (l : list ascii) :
  last l = Some "m"%char -> PyFloat.parse_numeral sign l = None.
Proof.
  intros Hl. unfold PyFloat.parse_numeral.
  apply (span_digits_last _ "m"%char eq_refl) in Hl.
  destruct (PyFloat.span_digits l) as [ip r1]. simpl in Hl.
  assert (Hr2 : forall fp r2,
    (match r1 with
     | "."%char :: r => PyFloat.span_digits r
     | _ => ([], r1)
     end) = (fp, r2) -> last r2 = Some "m"%char).
  { intros fp r2. destruct r1 as [|a r]; [done|].
    destruct (Ascii.eqb a ".") eqn:Ha.
    - apply Ascii.eqb_eq in Ha as ->. intros H.
      destruct r as [|b r]; [done|].
      change (last ("."%char :: b :: r)) with (last (b :: r)) in Hl.
      apply (span_digits_last _ "m"%char eq_refl) in Hl. by rewrite H in Hl.
    - apply Ascii.eqb_neq in Ha.
      destruct a as [[] [] [] [] [] [] [] []]; try (by intros [= <- <-]).
      done. }
  destruct (match r1 with
     | "."%char :: r => PyFloat.span_digits r
     | _ => ([], r1)
     end) as [fp r2].
  specialize (Hr2 _ _ eq_refl).
  rewrite (parse_exponent_last _ Hr2). by destruct (ip ++ fp).
Qed.

Lemma parse_special_last (sign : bool) (l : list ascii) :
  last l = Some "m"%char -> PyFloat.parse_special sign l = None.
Proof.
  intros Hl. unfold PyFloat.parse_special.
  apply last_Some in Hl as [k ->].
  assert (Hw : forall w : string,
    last (list_ascii_of_string w) <> Some "m"%char ->
    String.eqb (string_of_list_ascii (map PyFloat.lower (k ++ ["m"%char]))) w = false).
  { intros w Hw. apply String.eqb_neq. intros <-. apply Hw.
    rewrite list_ascii_of_string_of_list_ascii, map_app. simpl.
    by rewrite last_snoc. }
  rewrite !Hw; done.
Qed.

Lemma of_string_last (s : string) :
  last (list_ascii_of_string s) = Some "m"%char -> PyFloat.of_string s = None.
Proof.
  intros Hl. unfold PyFloat.of_string.
  apply (strip_last _ "m"%char eq_refl) in Hl.
  apply last_Some in Hl as [k Hk]. rewrite Hk.
  destruct (PyFloat.drop_underscores None (k ++ ["m"%char])) as [r|] eqn:Hr; [|done].
  simpl. apply drop_underscores_last in Hr. apply split_sign_last in Hr.
  destruct (PyFloat.split_sign r) as [sign body]. simpl in Hr.
  by rewrite (parse_special_last _ _ Hr), (parse_numeral_last _ _ Hr).
Qed.

(** A magnitude that [float] accepts does not end in [m], so a parsable
    magnitude followed by [s] is never taken for milliseconds. *)
Lemma parsed_unit_applies (magnitude : string) (x : PyFloat.float) (u : time_unit) :
  PyFloat.of_string magnitude = Some x -> unit_applies u magnitude.
Proof.
  intros Hx _. apply endswith_false. intros [k Hk].
  rewrite of_string_last in Hx; [done|].
  unfold PyStr.chars in Hk. rewrite Hk. apply last_snoc.
Qed.

(** How [_parse_time] reads a token cut at its unit. *)
Lemma parse_time_token (magnitude : string) (u : time_unit) :
  unit_applies u magnitude ->
  _parse_time (magnitude +:+ unit_suffix u) =
    result_bind (to_float magnitude) (fun x =>
      if negative (seconds_of u x) then Raise NegativeInterval
      else Ok (seconds_of u x)).
Proof.
  intros Hu. unfold _parse_time.
  destruct u; simpl unit_suffix;
    match goal with |- context [magnitude +:+ ?sfx] =>
      pose proof (drop_last_app magnitude sfx) as Hcut;
      simpl String.length in Hcut; rewrite Hcut; clear Hcut
    end.
  - rewrite !endswith_last2, endswith_app.
    repeat case_bool_decide; simplify_eq. simpl.
    by destruct (to_float magnitude).
  - rewrite endswith_app, endswith_ms_s, (Hu eq_refl). simpl.
    by destruct (to_float magnitude).
  - rewrite (endswith_last magnitude "m" "s"), endswith_app.
    repeat case_bool_decide; simplify_eq. simpl.
    by destruct (to_float magnitude).
  - rewrite (endswith_last magnitude "h" "s"), (endswith_last magnitude "h" "m"), endswith_app.
    repeat case_bool_decide; simplify_eq. simpl.
    by destruct (to_float magnitude).
  - rewrite (endswith_last magnitude "d" "s"), (endswith_last magnitude "d" "m"),
      (endswith_last magnitude "d" "h"), endswith_app.
    repeat case_bool_decide; simplify_eq. simpl.
    by destruct (to_float magnitude).
Qed.

(** Every token either carries none of the unit suffixes or is a magnitude
    followed by the unit that the parser applies to it. *)
Lemma token_shape (token : string) :
  has_unit_suffix token = false \/
  exists magnitude u,
    token = magnitude +:+ unit_suffix u /\ unit_applies u magnitude.
Proof.
  assert (Hcut : forall sfx, PyStr.endswith token sfx = true ->
                   exists magnitude, token = magnitude +:+ sfx).
  { intros sfx [k Hk]%endswith_true. exists (string_of_list_ascii k).
    rewrite <- (string_of_list_ascii_of_string token).
    unfold PyStr.chars in Hk. rewrite Hk, string_of_chars_app.
    by rewrite string_of_list_ascii_of_string. }
  unfold has_unit_suffix.
  destruct (PyStr.endswith token "ms") eqn:Hms.
  { right. destruct (Hcut _ Hms) as [mag ->]. by exists mag, Milliseconds. }
  destruct (PyStr.endswith token "s") eqn:Hs.
  { right. destruct (Hcut _ Hs) as [mag ->]. exists mag, Seconds. split; [done|].
    intros _. by rewrite <- endswith_ms_s. }
  destruct (PyStr.endswith token "m") eqn:Hm.
  { right. destruct (Hcut _ Hm) as [mag ->]. by exists mag, Minutes. }
  destruct (PyStr.endswith token "h") eqn:Hh.
  { right. destruct (Hcut _ Hh) as [mag ->]. by exists mag, Hours. }
  destruct (PyStr.endswith token "d") eqn:Hd.
  { right. destruct (Hcut _ Hd) as [mag ->]. by exists mag, Days. }
  by left.
Qed.



Lemma parse_optional_absent (t : option string) :
  absent t -> parse_optional t = Ok (VInt 0).
Proof. by intros [-> | ->]. Qed.



(** ** The registry *)

Ltac run_method :=
  unfold every_decorator, after_decorator, _set_state, pause, resume, stop,
    mbind, mret, mraise, get_state, modify, lift, alloc, set_item; simpl.

Lemma every_returns_decorator (interval : string) (delay jitter : option string)
    (limit log group : value) (decorator : callable -> M callable) :
  every interval delay jitter limit log group = Ok decorator ->
  exists i d j, decorator = every_decorator i d j limit log group.
Proof.
  unfold every. intros H.
  destruct (_parse_time interval) as [i|]; [|discriminate H]. simpl in H.
  destruct (parse_optional jitter) as [j|]; [|discriminate H]. simpl in H.
  destruct (parse_optional delay) as [d|]; [|discriminate H]. simpl in H.
  exists (VFloat i), d, j. congruence.
Qed.

Lemma after_returns_decorator (delay jitter : option string) (log : value)
    (decorator : callable -> M callable) :
  after delay jitter log = Ok decorator ->
  exists d j, decorator = after_decorator d j log.
Proof.
  unfold after. intros H.
  destruct (parse_optional jitter) as [j|]; [|discriminate H]. simpl in H.
  destruct (parse_optional delay) as [d|]; [|discriminate H]. simpl in H.
  exists d, j. congruence.
Qed.

Lemma duplicate_rejected (interval : string) (delay jitter : option string)
    (limit log group : value) (decorator : callable -> M callable)
    (func : callable) (s : scheduler) :
  every interval delay jitter limit log group = Ok decorator ->
  is_Some (tasks s !! fn_name func) ->
  decorator func s = (Raise (TaskExists (fn_name func)), s).
Proof.
  intros (i & d & j & ->)%every_returns_decorator [l Hl].
  run_method. by rewrite Hl.
Qed.

(** C7. Registering a periodic task under a function name that is already
    in the registry fails with the duplicate-name error ([NameError]),
    whatever the state that holds the name, and leaves the registry, the
    records and the group index as they were. *)
Theorem every_rejects_duplicate (interval : string) (delay jitter : option string)
    (limit log group : value) (decorator : callable -> M callable)
    (func : callable) (s : scheduler) :
  every interval delay jitter limit log group = Ok decorator ->
  is_Some (tasks s !! fn_name func) ->
  decorator func s = (Raise (TaskExists (fn_name func)), s) /\
  class_of (TaskExists (fn_name func)) = CNameError.
Proof.
  intros Hevery Hsome. split; [|done].
  by apply (duplicate_rejected interval delay jitter limit log group).
Qed.

Lemma every_rejects_duplicate_witness :
  every_decorator (VFloat (PyFloat.of_Z 5)) (VInt 0) (VInt 0) VNone (VBool true) (VStr "B")
    job two_tasks = (Raise (TaskExists "job"), two_tasks) /\
  class_of (TaskExists "job") = CNameError.
Proof.
  apply (every_rejects_duplicate "5s" None None VNone (VBool true) (VStr "B")).
  - unfold every. by replace (_parse_time "5s") with (Ok (PyFloat.of_Z 5)) by (by vm_compute).
  - exists 1%positive. by vm_compute.
Defined.

Lemma after_decorator_state (delay jitter log : value) (func : callable) (s : scheduler) :
  after_decorator delay jitter log func s =
    (Ok (Wrapper OneShot func),
     {| tasks := <[fn_name func := fresh (dom (objs s))]> (tasks s);
        objs := <[fresh (dom (objs s)) := oneshot_record func delay jitter log]> (objs s);
        groups := groups s |}).
Proof. done. Qed.

Lemma after_decorator_record (delay jitter log : value) (func : callable) (s : scheduler) :
  task_record (after_decorator delay jitter log func s).2 (fn_name func) =
    Some (oneshot_record func delay jitter log).
Proof.
  rewrite after_decorator_state. unfold task_record. simpl.
  rewrite lookup_insert_eq. simpl. by rewrite lookup_insert_eq.
Qed.

Lemma oneshot_record_dom (func : callable) (delay jitter log : value) :
  dom (oneshot_record func delay jitter log) =
    ({["function"; "state"; "delay"; "jitter"; "log"]} : gset string).
Proof. unfold oneshot_record. rewrite !dom_insert_L, dom_empty_L. set_solver. Qed.

(** C8 (as the code has it). The record a one-shot registration inserts
    holds exactly the function, state, delay, jitter and log fields, the
    state being ["active"]; it has no interval, limit or group field. *)
Theorem after_inserts_record (delay jitter : option string) (log : value)
    (decorator : callable -> M callable) (func : callable) (s : scheduler) :
  after delay jitter log = Ok decorator ->
  exists (d j : value) (r : gmap string value),
    parse_optional delay = Ok d /\ parse_optional jitter = Ok j /\
    task_record (decorator func s).2 (fn_name func) = Some r /\
    r = oneshot_record func d j log /\
    dom r = ({["function"; "state"; "delay"; "jitter"; "log"]} : gset string) /\
    r !! "state" = Some (VStr "active") /\
    r !! "interval" = None /\ r !! "limit" = None /\ r !! "group" = None.
Proof.
  unfold after. intros H.
  destruct (parse_optional jitter) as [j|]; [|discriminate H]. simpl in H.
  destruct (parse_optional delay) as [d|]; [|discriminate H]. simpl in H.
  injection H as <-.
  exists d, j, (oneshot_record func d j log).
  split; [done|]. split; [done|]. split; [apply after_decorator_record|].
  split; [done|]. split; [apply oneshot_record_dom|]. done.
Qed.

Lemma after_inserts_record_witness :
  exists (d j : value) (r : gmap string value),
    parse_optional (Some "5s") = Ok d /\ parse_optional None = Ok j /\
    task_record (after_decorator (VFloat (PyFloat.of_Z 5)) (VInt 0) (VBool false)
                   job two_tasks).2 (fn_name job) = Some r /\
    r = oneshot_record job d j (VBool false) /\
    dom r = ({["function"; "state"; "delay"; "jitter"; "log"]} : gset string) /\
    r !! "state" = Some (VStr "active") /\
    r !! "interval" = None /\ r !! "limit" = None /\ r !! "group" = None.
Proof.
  apply (after_inserts_record (Some "5s") None (VBool false)).
  unfold after. simpl.
  by replace (_parse_time "5s") with (Ok (PyFloat.of_Z 5)) by (by vm_compute).
Defined.

(** C8 (as stated) fails: after [@after("5s") def job] on a fresh
    scheduler the record of [job] has a state field, so it is not made of
    the function, delay, jitter and log fields only. *)
Lemma oneshot_record_not_minimal :
  ~ (forall r,
       task_record (after_decorator (VFloat (PyFloat.of_Z 5)) (VInt 0) (VBool false)
                      job init).2 "job" = Some r ->
       minimal_as_claimed r).
Proof.
  intros H.
  specialize (H _ (after_decorator_record _ _ _ job init)).
  unfold minimal_as_claimed in H. rewrite oneshot_record_dom in H.
  assert (Hin : "state" ∈ ({["function"; "delay"; "jitter"; "log"]} : gset string)).
  { rewrite <- H. set_solver. }
  set_solver.
Qed.

Lemma set_state_run (func : callable) (state : value) (s : scheduler) :
  _set_state func state s =
    match tasks s !! fn_name func with
    | Some l =>
        (Ok tt, set_objs (<[l := <["state" := state]> (deref s l)]> (objs s)) s)
    | None => (Raise (TaskNotFound (VStr (fn_name func))), s)
    end.
Proof. run_method. by destruct (tasks s !! fn_name func). Qed.

Lemma change_method_run (c : state_change) (func : callable) :
  change_method c func = _set_state func (VStr (change_state c)).
Proof. by destruct c. Qed.

(** Changing the dict object of one task leaves the record of every other
    task alone, because no two names share an object. *)
Lemma task_record_other (s : scheduler) (name other : string) (l : loc)
    (r : gmap string value) :
  heap_ok s -> tasks s !! name = Some l -> other <> name ->
  task_record (set_objs (<[l := r]> (objs s)) s) other = task_record s other.
Proof.
  intros [_ Hinj] Hl Hne. unfold task_record. simpl.
  destruct (tasks s !! other) as [l'|] eqn:Hl'; [|done]. simpl.
  rewrite lookup_insert_ne; [done|]. intros ->. apply Hne. by apply (Hinj _ _ l').
Qed.

Lemma task_record_same (s : scheduler) (name : string) (l : loc) (r : gmap string value) :
  tasks s !! name = Some l ->
  task_record (set_objs (<[l := r]> (objs s)) s) name = Some r.
Proof.
  intros Hl. unfold task_record. simpl. rewrite Hl. simpl. by rewrite lookup_insert_eq.
Qed.

(** C9. For a task in the registry, pause, resume and stop set the state
    field of its record to paused, active and stopped, and leave the other
    fields of the record, the record of every other task and the group
    index as they were; for a name that is not registered each of them
    fails with the not-found error and changes nothing; pausing a task
    that is already paused leaves the whole state equal to the one before. *)
Theorem state_change_frame (c : state_change) (func : callable) (s : scheduler) :
  heap_ok s ->
  (forall r : gmap string value,
     task_record s (fn_name func) = Some r ->
     exists s',
       change_method c func s = (Ok tt, s') /\
       task_record s' (fn_name func) = Some (<["state" := VStr (change_state c)]> r) /\
       (forall key, key <> "state" ->
          (<["state" := VStr (change_state c)]> r) !! key = r !! key) /\
       (forall other, other <> fn_name func -> task_record s' other = task_record s other) /\
       tasks s' = tasks s /\ groups s' = groups s) /\
  (tasks s !! fn_name func = None ->
     change_method c func s = (Raise (TaskNotFound (VStr (fn_name func))), s) /\
     class_of (TaskNotFound (VStr (fn_name func))) = CValueError) /\
  (forall r : gmap string value,
     task_record s (fn_name func) = Some r ->
     r !! "state" = Some (VStr "paused") ->
     pause func s = (Ok tt, s)).
Proof.
  intros Hok. split; [|split].
  - intros r Hr. unfold task_record in Hr.
    destruct (tasks s !! fn_name func) as [l|] eqn:Hl; [|discriminate Hr]. simpl in Hr.
    rewrite change_method_run, set_state_run, Hl. unfold deref. rewrite Hr. simpl.
    eexists. split; [done|]. split; [by apply task_record_same|].
    split; [intros key Hkey; by rewrite lookup_insert_ne|].
    split; [|done]. intros other Hne. by apply task_record_other with (name := fn_name func).
  - intros Hl. by rewrite change_method_run, set_state_run, Hl.
  - intros r Hr Hst. unfold task_record in Hr.
    destruct (tasks s !! fn_name func) as [l|] eqn:Hl; [|discriminate Hr]. simpl in Hr.
    unfold pause. rewrite set_state_run, Hl. unfold deref. rewrite Hr. simpl.
    rewrite (insert_id r) by done. rewrite (insert_id (objs s)) by done.
    by destruct s.
Qed.

(** ** The group index *)

Lemma list_remove_spec (x : string) (lst : list string) :
  NoDup lst -> x ∈ lst ->
  exists lst',
    list_remove x lst = Some lst' /\ NoDup lst' /\
    forall y, y ∈ lst' <-> y ∈ lst /\ y <> x.
Proof.
  induction 1 as [|y lst Hy Hnd IH]; intros Hin; [by apply elem_of_nil in Hin|].
  simpl. destruct (decide (y = x)) as [->|Hne].
  - exists lst. split; [done|]. split; [done|]. intros z. rewrite elem_of_cons.
    split; [|naive_solver]. intros Hz. split; [by right|]. by intros ->.
  - apply elem_of_cons in Hin as [->|Hin]; [done|].
    destruct (IH Hin) as (lst' & -> & Hnd' & Hmem).
    exists (y :: lst'). split; [done|]. split.
    + apply NoDup_cons. split; [|done]. rewrite Hmem. naive_solver.
    + intros z. rewrite !elem_of_cons, Hmem. naive_solver.
Qed.

Lemma members_set_groups (G : gmap value (list string)) (s : scheduler) (g : value) :
  members (set_groups G s) g = default [] (G !! g).
Proof. done. Qed.

(** Appending a name to a group, as [every] and [edit] both do. *)
Lemma group_add_run (g : value) (name : string) (s : scheduler) :
  group_add g name s = (Ok tt, set_groups (<[g := members s g ++ [name]]> (groups s)) s).
Proof.
  unfold group_add, modify, members. by destruct (groups s !! g).
Qed.

Lemma group_join_run (g : value) (name : string) (s : scheduler) :
  group_join g name s = (Ok tt, set_groups (<[g := members s g ++ [name]]> (groups s)) s).
Proof.
  unfold group_join, modify, members. destruct (groups s !! g) eqn:Hg.
  - by rewrite Hg.
  - by rewrite lookup_insert_eq, insert_insert_eq.
Qed.

Lemma members_insert (G : gmap value (list string)) (s : scheduler) (g g' : value)
    (lst : list string) :
  members (set_groups (<[g := lst]> G) s) g' =
    if decide (g' = g) then lst else default [] (G !! g').
Proof.
  unfold members. simpl. destruct (decide (g' = g)) as [->|Hne].
  - by rewrite lookup_insert_eq.
  - by rewrite lookup_insert_ne.
Qed.

(** Leaving a group the name is listed in: the name disappears from that
    group, all other listings stay. *)
Lemma group_leave_spec (old : value) (name : string) (s : scheduler) :
  groups_nodup s -> groups_nonempty s -> name ∈ members s old ->
  exists G',
    group_leave old name s = (Ok tt, set_groups G' s) /\
    (forall g y, y ∈ default [] (G' !! g) <->
                 y ∈ members s g /\ ~ (g = old /\ y = name)) /\
    (forall g, NoDup (default [] (G' !! g))) /\
    (forall g l, G' !! g = Some l -> l <> []).
Proof.
  intros Hnd Hne Hin. unfold group_leave, mbind, get_state.
  pose proof (Hnd old) as Hnd_old. unfold members in Hin, Hnd_old.
  destruct (groups s !! old) as [lst|] eqn:Hold; [|by apply elem_of_nil in Hin].
  simpl in Hin, Hnd_old.
  destruct (list_remove_spec name lst Hnd_old Hin) as (lst' & -> & Hnd' & Hmem).
  assert (Hother : forall g, g <> old -> forall y,
            y ∈ members s g <-> y ∈ members s g /\ ~ (g = old /\ y = name))
    by naive_solver.
  destruct lst' as [|z lst'].
  - exists (delete old (groups s)). split; [done|]. split; [|split].
    + intros g y. destruct (decide (g = old)) as [->|Hg].
      * rewrite lookup_delete_eq. unfold members. rewrite Hold. simpl.
        specialize (Hmem y). rewrite elem_of_nil in Hmem. rewrite elem_of_nil. naive_solver.
      * rewrite lookup_delete_ne by done. by apply Hother.
    + intros g. destruct (decide (g = old)) as [->|Hg].
      * rewrite lookup_delete_eq. apply NoDup_nil_2.
      * rewrite lookup_delete_ne by done. apply Hnd.
    + intros g l. destruct (decide (g = old)) as [->|Hg].
      * by rewrite lookup_delete_eq.
      * rewrite lookup_delete_ne by done. apply Hne.
  - exists (<[old := z :: lst']> (groups s)). split; [done|]. split; [|split].
    + intros g y. destruct (decide (g = old)) as [->|Hg].
      * rewrite lookup_insert_eq. unfold members. rewrite Hold. simpl.
        rewrite Hmem. naive_solver.
      * rewrite lookup_insert_ne by done. by apply Hother.
    + intros g. destruct (decide (g = old)) as [->|Hg].
      * by rewrite lookup_insert_eq.
      * rewrite lookup_insert_ne by done. apply Hnd.
    + intros g l. destruct (decide (g = old)) as [->|Hg].
      * rewrite lookup_insert_eq. by intros [= <-].
      * rewrite lookup_insert_ne by done. apply Hne.
Qed.

(** ** Consistency is an invariant *)

Lemma consistent_init : consistent init.
Proof.
  split; [|split; [|split]].
  - split; intros *; unfold init; simpl; by rewrite lookup_empty.
  - intros name g. unfold members, group_of, task_record, init. simpl.
    rewrite !lookup_empty. simpl. rewrite elem_of_nil. naive_solver.
  - intros g. unfold members, init. simpl. rewrite lookup_empty. apply NoDup_nil_2.
  - intros g l. unfold init. simpl. by rewrite lookup_empty.
Qed.

(** A name without a record is listed in no group. *)
Lemma unregistered_not_member (s : scheduler) (name : string) (g : value) :
  groups_agree s -> tasks s !! name = None -> name ∉ members s g.
Proof.
  intros Hag Hnone [_ Hg]%Hag. unfold group_of, task_record in Hg.
  by rewrite Hnone in Hg.
Qed.

(** How one task's change of group shows in the index and in the records. *)
Lemma agree_step (s s' : scheduler) (name : string) (v : value) :
  groups_agree s ->
  (forall n, n <> name -> group_of s' n = group_of s n) ->
  group_of s' name = Some v ->
  (forall g y, y ∈ members s' g <->
     (y <> name /\ y ∈ members s g) \/ (y = name /\ g = v /\ truthy v = true)) ->
  groups_agree s'.
Proof.
  intros Hag Hother Hname Hmem n g. rewrite Hmem.
  destruct (decide (n = name)) as [->|Hne].
  - rewrite Hname. naive_solver.
  - rewrite (Hother n Hne), (Hag n g). naive_solver.
Qed.

Lemma every_decorator_run (interval delay jitter limit log group : value)
    (func : callable) (s : scheduler) :
  tasks s !! fn_name func = None ->
  every_decorator interval delay jitter limit log group func s =
    (Ok (Wrapper Periodic func),
     set_groups
       (if truthy group
        then <[group := members s group ++ [fn_name func]]> (groups s)
        else groups s)
       {| tasks := <[fn_name func := fresh (dom (objs s))]> (tasks s);
          objs := <[fresh (dom (objs s)) :=
                      periodic_record func interval delay jitter limit log group]> (objs s);
          groups := groups s |}).
Proof.
  intros Hnone. unfold every_decorator, mbind, get_state. rewrite Hnone.
  unfold alloc, modify, mret. simpl. destruct (truthy group); [|done].
  by rewrite group_add_run.
Qed.

(** Allocating a record for a new name keeps the heap well formed and the
    record of every other name unchanged. *)
Lemma alloc_heap_ok (s : scheduler) (name : string) (r : gmap string value)
    (G : gmap value (list string)) :
  heap_ok s -> tasks s !! name = None ->
  heap_ok {| tasks := <[name := fresh (dom (objs s))]> (tasks s);
             objs := <[fresh (dom (objs s)) := r]> (objs s);
             groups := G |}.
Proof.
  intros [Hval Hinj] Hnone.
  assert (Hfresh : forall n l, tasks s !! n = Some l -> l <> fresh (dom (objs s))).
  { intros n l Hl ->. apply Hval in Hl. apply elem_of_dom in Hl.
    by apply is_fresh in Hl. }
  split; simpl.
  - intros n l. destruct (decide (n = name)) as [->|Hne].
    + rewrite lookup_insert_eq. intros [= <-]. by rewrite lookup_insert_eq.
    + rewrite lookup_insert_ne by done. intros Hl.
      rewrite lookup_insert_ne by (symmetry; by eapply Hfresh). by eapply Hval.
  - intros n1 n2 l.
    destruct (decide (n1 = name)) as [->|H1], (decide (n2 = name)) as [->|H2];
      rewrite ?lookup_insert_eq, ?lookup_insert_ne by done; try done.
    + intros [= <-] Hl. by apply Hfresh in Hl.
    + intros Hl [= <-]. by apply Hfresh in Hl.
    + apply Hinj.
Qed.

Lemma alloc_task_record (s : scheduler) (name n : string) (r : gmap string value)
    (G : gmap value (list string)) :
  heap_ok s ->
  task_record {| tasks := <[name := fresh (dom (objs s))]> (tasks s);
                 objs := <[fresh (dom (objs s)) := r]> (objs s);
                 groups := G |} n =
    if decide (n = name) then Some r else task_record s n.
Proof.
  intros [Hval _]. unfold task_record. simpl.
  destruct (decide (n = name)) as [->|Hne].
  - rewrite lookup_insert_eq. simpl. by rewrite lookup_insert_eq.
  - rewrite lookup_insert_ne by done.
    destruct (tasks s !! n) as [l|] eqn:Hl; [|done]. simpl.
    rewrite lookup_insert_ne; [done|]. intros <-.
    apply Hval in Hl. apply elem_of_dom in Hl. by apply is_fresh in Hl.
Qed.

Lemma every_decorator_consistent (interval delay jitter limit log group : value)
    (func : callable) (s : scheduler) :
  consistent s ->
  consistent (every_decorator interval delay jitter limit log group func s).2.
Proof.
  intros (Hok & Hag & Hnd & Hne).
  destruct (tasks s !! fn_name func) as [l|] eqn:Hl.
  { unfold every_decorator, mbind, get_state, mraise. rewrite Hl. simpl.
    exact (conj Hok (conj Hag (conj Hnd Hne))). }
  rewrite (every_decorator_run _ _ _ _ _ _ _ _ Hl). simpl.
  set (name := fn_name func) in *.
  set (r := periodic_record func interval delay jitter limit log group).
  assert (Hmem : forall g y,
    y ∈ default [] ((if truthy group
                     then <[group := members s group ++ [name]]> (groups s)
                     else groups s) !! g) <->
    (y <> name /\ y ∈ members s g) \/ (y = name /\ g = group /\ truthy group = true)).
  { intros g y.
    assert (Hfree : y ∈ members s g -> y <> name).
    { intros Hy ->. by eapply unregistered_not_member. }
    destruct (truthy group); [|unfold members in *; naive_solver].
    destruct (decide (g = group)) as [->|Hg].
    - rewrite lookup_insert_eq. simpl. rewrite elem_of_app, list_elem_of_singleton.
      naive_solver.
    - rewrite lookup_insert_ne by done. unfold members in *. naive_solver. }
  split; [|split; [|split]].
  - by apply alloc_heap_ok.
  - apply (agree_step s _ name group Hag).
    + intros n Hn. unfold group_of. unfold set_groups. simpl.
      rewrite (alloc_task_record s name n r _ Hok). by rewrite decide_False.
    + unfold group_of, set_groups. simpl.
      rewrite (alloc_task_record s name name r _ Hok). by rewrite decide_True.
    + intros g y. apply Hmem.
  - intros g. unfold members. simpl.
    destruct (truthy group); [|apply Hnd].
    destruct (decide (g = group)) as [->|Hg].
    + rewrite lookup_insert_eq. simpl. apply NoDup_app. split; [apply Hnd|].
      split; [|apply NoDup_singleton].
      intros y Hy ->%list_elem_of_singleton. by eapply unregistered_not_member.
    + rewrite lookup_insert_ne by done. apply Hnd.
  - intros g lst. simpl. destruct (truthy group); [|apply Hne].
    destruct (decide (g = group)) as [->|Hg].
    + rewrite lookup_insert_eq. intros [= <-]. by destruct (members s group).
    + rewrite lookup_insert_ne by done. apply Hne.
Qed.

Lemma set_item_run (l : loc) (key : string) (v : value) (s : scheduler) :
  set_item l key v s =
    (Ok tt, set_objs (<[l := <[key := v]> (deref s l)]> (objs s)) s).
Proof. done. Qed.

Lemma update_heap_ok (s : scheduler) (name : string) (l : loc) (r : gmap string value)
    (G : gmap value (list string)) :
  heap_ok s -> tasks s !! name = Some l ->
  heap_ok {| tasks := tasks s; objs := <[l := r]> (objs s); groups := G |}.
Proof.
  intros [Hval Hinj] Hl. split; simpl; [|done].
  intros n l' Hl'. destruct (decide (l' = l)) as [->|Hne].
  - by rewrite lookup_insert_eq.
  - rewrite lookup_insert_ne by done. by eapply Hval.
Qed.

Lemma update_group_of (s : scheduler) (name n : string) (l : loc)
    (r : gmap string value) (G : gmap value (list string)) :
  heap_ok s -> tasks s !! name = Some l ->
  group_of {| tasks := tasks s; objs := <[l := r]> (objs s); groups := G |} n =
    if decide (n = name) then r !! "group" else group_of s n.
Proof.
  intros [Hval Hinj] Hl. unfold group_of, task_record. simpl.
  destruct (decide (n = name)) as [->|Hne].
  - rewrite Hl. simpl. by rewrite lookup_insert_eq.
  - destruct (tasks s !! n) as [l'|] eqn:Hl'; [|done]. simpl.
    rewrite lookup_insert_ne; [done|]. intros ->. apply Hne. by apply (Hinj _ _ l').
Qed.

(** Storing a field other than the group keeps the state consistent. *)
Lemma set_field_consistent (s : scheduler) (name : string) (l : loc) (key : string)
    (v : value) :
  consistent s -> tasks s !! name = Some l -> key <> "group" ->
  consistent (set_objs (<[l := <[key := v]> (deref s l)]> (objs s)) s).
Proof.
  intros (Hok & Hag & Hnd & Hne) Hl Hkey. unfold set_objs.
  split; [by eapply update_heap_ok|]. split; [|done].
  intros n g. change (members _ g) with (members s g).
  rewrite (update_group_of s name n l _ _ Hok Hl), (Hag n g).
  destruct (decide (n = name)) as [->|Hn]; [|done].
  rewrite lookup_insert_ne by done.
  unfold group_of, task_record, deref. rewrite Hl. simpl.
  destruct Hok as [Hval _]. by destruct (Hval _ _ Hl) as [r ->].
Qed.

Lemma set_state_consistent (func : callable) (state : value) (s : scheduler) :
  consistent s -> consistent (_set_state func state s).2.
Proof.
  intros Hc. rewrite set_state_run.
  destruct (tasks s !! fn_name func) as [l|] eqn:Hl; [|done].
  by apply (set_field_consistent s (fn_name func)).
Qed.

(** Moving a task to the group [v], once its name has left the index. *)
Lemma regroup_consistent (s : scheduler) (name : string) (l : loc)
    (r : gmap string value) (v : value) (G1 : gmap value (list string)) :
  consistent s -> tasks s !! name = Some l -> objs s !! l = Some r ->
  (forall g y, y ∈ default [] (G1 !! g) <-> y <> name /\ y ∈ members s g) ->
  (forall g, NoDup (default [] (G1 !! g))) ->
  (forall g lst, G1 !! g = Some lst -> lst <> []) ->
  consistent {| tasks := tasks s;
                objs := <[l := <["group" := v]> r]> (objs s);
                groups := if truthy v
                          then <[v := default [] (G1 !! v) ++ [name]]> G1
                          else G1 |}.
Proof.
  intros (Hok & Hag & Hnd & Hne) Hl Hr Hmem1 Hnd1 Hne1.
  split; [by eapply update_heap_ok|]. split; [|split].
  - apply (agree_step s _ name v Hag).
    + intros n Hn. rewrite (update_group_of s name n l _ _ Hok Hl). by rewrite decide_False.
    + rewrite (update_group_of s name name l _ _ Hok Hl), decide_True by done.
      by rewrite lookup_insert_eq.
    + intros g y. unfold members at 1. simpl. destruct (truthy v).
      * destruct (decide (g = v)) as [->|Hg].
        -- rewrite lookup_insert_eq. simpl.
           rewrite elem_of_app, list_elem_of_singleton, Hmem1. naive_solver.
        -- rewrite lookup_insert_ne by done. rewrite Hmem1. naive_solver.
      * rewrite Hmem1. naive_solver.
  - intros g. unfold members. simpl. destruct (truthy v); [|apply Hnd1].
    destruct (decide (g = v)) as [->|Hg].
    + rewrite lookup_insert_eq. simpl. apply NoDup_app. split; [apply Hnd1|].
      split; [|apply NoDup_singleton].
      intros y [Hy _]%Hmem1 ->%list_elem_of_singleton. by apply Hy.
    + rewrite lookup_insert_ne by done. apply Hnd1.
  - intros g lst. simpl. destruct (truthy v); [|apply Hne1].
    destruct (decide (g = v)) as [->|Hg].
    + rewrite lookup_insert_eq. intros [= <-]. by destruct (default [] (G1 !! v)).
    + rewrite lookup_insert_ne by done. apply Hne1.
Qed.

Lemma edit_item_run (name : string) (l : loc) (prop : string) (v : value) (s : scheduler) :
  edit_item name l (prop, v) s =
    match deref s l !! prop with
    | None => (Raise (NoSuchProperty prop name), s)
    | Some _ =>
        mbind
          (if String.eqb prop "group" then
             mbind (if truthy (default VNone (deref s l !! "group"))
                    then group_leave (default VNone (deref s l !! "group")) name
                    else mret tt)
               (fun _ => if truthy v then group_join v name else mret tt)
           else mret tt)
          (fun _ =>
             if timing_prop prop then
               mbind (lift (parse_time_value v))
                 (fun parsed_val => set_item l prop (VFloat parsed_val))
             else set_item l prop v) s
    end.
Proof. unfold edit_item, mbind, get_state. by destruct (deref s l !! prop). Qed.

(** The round of the loop of [edit] for the key ["group"]: the name leaves
    the index, joins the new group, and the record takes the new value. *)
Lemma edit_group_run (name : string) (l : loc) (r : gmap string value)
    (old v : value) (s : scheduler) :
  consistent s -> tasks s !! name = Some l -> objs s !! l = Some r ->
  r !! "group" = Some old ->
  exists G1,
    edit_item name l ("group", v) s =
      (Ok tt,
       {| tasks := tasks s;
          objs := <[l := <["group" := v]> r]> (objs s);
          groups := if truthy v
                    then <[v := default [] (G1 !! v) ++ [name]]> G1
                    else G1 |}) /\
    (forall g y, y ∈ default [] (G1 !! g) <-> y <> name /\ y ∈ members s g) /\
    (forall g, NoDup (default [] (G1 !! g))) /\
    (forall g lst, G1 !! g = Some lst -> lst <> []).
Proof.
  intros (Hok & Hag & Hnd & Hne) Hl Hr Hold.
  assert (Hderef : deref s l = r) by (unfold deref; by rewrite Hr).
  rewrite edit_item_run, Hderef, Hold. simpl default.
  change (String.eqb "group" "group") with true.
  change (timing_prop "group") with false. cbv iota.
  assert (Hgo : group_of s name = Some old).
  { unfold group_of, task_record. rewrite Hl. simpl. by rewrite Hr. }
  assert (Hleft : exists G1,
    (if truthy old then group_leave old name else mret tt) s = (Ok tt, set_groups G1 s) /\
    (forall g y, y ∈ default [] (G1 !! g) <-> y <> name /\ y ∈ members s g) /\
    (forall g, NoDup (default [] (G1 !! g))) /\
    (forall g lst, G1 !! g = Some lst -> lst <> [])).
  { destruct (truthy old) eqn:Htr.
    - assert (Hin : name ∈ members s old) by (by apply Hag).
      destruct (group_leave_spec old name s Hnd Hne Hin) as (G1 & Hrun & Hm & Hn1 & Hn2).
      exists G1. split; [done|]. split; [|done].
      intros g y. rewrite Hm. split; [|naive_solver].
      intros [Hy Hnot]. split; [|done]. intros ->.
      apply Hnot. split; [|done]. apply Hag in Hy as [_ Hy]. congruence.
    - exists (groups s). split; [by destruct s|]. split; [|done].
      intros g y. change (default [] (groups s !! g)) with (members s g).
      split; [|naive_solver]. intros Hy. split; [|done]. intros ->.
      apply Hag in Hy as [Ht Hy]. congruence. }
  destruct Hleft as (G1 & Hrun & Hm & Hn1 & Hn2).
  exists G1. split; [|done].
  unfold mbind. rewrite Hrun.
  assert (Hjoin : (if truthy v then group_join v name else mret tt) (set_groups G1 s) =
            (Ok tt, set_groups (if truthy v
                                then <[v := default [] (G1 !! v) ++ [name]]> G1
                                else G1) s)).
  { destruct (truthy v); [|done]. by rewrite group_join_run. }
  rewrite Hjoin, set_item_run. unfold deref. simpl. by rewrite Hr.
Qed.

(** One round of the loop of [edit] keeps the state consistent, and the
    registry of names as it was, also when it raises. *)
Lemma edit_item_consistent (name : string) (l : loc) (upd : string * value)
    (s : scheduler) :
  consistent s -> tasks s !! name = Some l ->
  consistent (edit_item name l upd s).2 /\ tasks (edit_item name l upd s).2 = tasks s.
Proof.
  intros Hc Hl. destruct upd as [prop v].
  pose proof Hc as (Hok & Hag & Hnd & Hne).
  destruct (proj1 Hok _ _ Hl) as [r Hr].
  assert (Hderef : deref s l = r) by (unfold deref; by rewrite Hr).
  destruct (String.eqb prop "group") eqn:Hgroup.
  - apply String.eqb_eq in Hgroup as ->.
    destruct (r !! "group") as [old|] eqn:Hold.
    + destruct (edit_group_run name l r old v s Hc Hl Hr Hold) as (G1 & -> & Hm & Hn1 & Hn2).
      simpl. split; [|done]. by apply (regroup_consistent s name l r v G1).
    + by rewrite edit_item_run, Hderef, Hold.
  - rewrite edit_item_run, Hderef, Hgroup.
    destruct (r !! prop) as [old|] eqn:Hprop; [|done].
    apply String.eqb_neq in Hgroup. unfold mbind, mret, lift.
    destruct (timing_prop prop).
    + destruct (parse_time_value v) as [x|e]; [|done].
      rewrite set_item_run. simpl. split; [|done].
      by apply (set_field_consistent s name).
    + rewrite set_item_run. simpl. split; [|done].
      by apply (set_field_consistent s name).
Qed.

Lemma for_each_edit_consistent (name : string) (l : loc) (updates : list (string * value))
    (s : scheduler) :
  consistent s -> tasks s !! name = Some l ->
  consistent (for_each (edit_item name l) updates s).2.
Proof.
  revert s. induction updates as [|upd updates IH]; intros s Hc Hl; [done|].
  simpl. unfold mbind.
  destruct (edit_item_consistent name l upd s Hc Hl) as [Hc' Ht].
  destruct (edit_item name l upd s) as [[[]|e] s']; simpl in *; [|done].
  apply IH; [done|]. by rewrite Ht.
Qed.

Lemma edit_run (func : callable) (updates : list (string * value)) (s : scheduler) :
  edit func updates s =
    match tasks s !! fn_name func with
    | Some l => for_each (edit_item (fn_name func) l) updates s
    | None => (Raise (TaskNotFound (VStr (fn_name func))), s)
    end.
Proof. unfold edit, mbind, get_state. by destruct (tasks s !! fn_name func). Qed.

Lemma for_each_one {A} (f : A -> M unit) (a : A) (s s' : scheduler) :
  f a s = (Ok tt, s') -> for_each f [a] s = (Ok tt, s').
Proof. intros H. simpl. unfold mbind. by rewrite H. Qed.

Lemma edit_consistent (func : callable) (updates : list (string * value)) (s : scheduler) :
  consistent s -> consistent (edit func updates s).2.
Proof.
  intros Hc. unfold edit, mbind, get_state.
  destruct (tasks s !! fn_name func) as [l|] eqn:Hl; [|done].
  by apply for_each_edit_consistent.
Qed.

Lemma apply_operation_consistent (s : scheduler) (o : operation) :
  consistent s -> consistent (apply_operation s o).
Proof.
  intros Hc. destruct o; simpl.
  - destruct (every _ _ _ _ _ _) as [dec|] eqn:Hev; [|done].
    apply every_returns_decorator in Hev as (i & d & j & ->).
    by apply every_decorator_consistent.
  - by apply edit_consistent.
  - by apply set_state_consistent.
  - by apply set_state_consistent.
  - by apply set_state_consistent.
Qed.

Lemma apply_operations_consistent (ops : list operation) (s : scheduler) :
  consistent s -> consistent (apply_operations s ops).
Proof.
  revert s. induction ops as [|o ops IH]; intros s Hc; [done|].
  simpl. apply IH. by apply apply_operation_consistent.
Qed.

Lemma reachable_consistent (ops : list operation) :
  consistent (apply_operations init ops).
Proof. apply apply_operations_consistent, consistent_init. Qed.

(** What [edit(func, {"group": new})] does to a task that has a group field. *)
Lemma edit_group_move (func : callable) (old new : value) (s : scheduler) :
  consistent s ->
  group_of s (fn_name func) = Some old ->
  group_of (edit func [("group", new)] s).2 (fn_name func) = Some new /\
  (forall n, n <> fn_name func ->
     group_of (edit func [("group", new)] s).2 n = group_of s n).
Proof.
  intros Hc Hgo. pose proof Hc as (Hok & _).
  unfold group_of, task_record in Hgo.
  destruct (tasks s !! fn_name func) as [l|] eqn:Hl; [|discriminate Hgo].
  simpl in Hgo. destruct (objs s !! l) as [r|] eqn:Hr; [|discriminate Hgo].
  simpl in Hgo.
  destruct (edit_group_run _ l r old new s Hc Hl Hr Hgo) as (G1 & Hrun & _).
  rewrite edit_run, Hl, (for_each_one _ _ _ _ Hrun). simpl.
  split.
  - rewrite (update_group_of s (fn_name func) _ l _ _ Hok Hl), decide_True by done.
    by rewrite lookup_insert_eq.
  - intros n Hn.
    by rewrite (update_group_of s (fn_name func) _ l _ _ Hok Hl), decide_False.
Qed.


Lemma reachable_heap_ok (ops : list operation) : heap_ok (apply_operations init ops).
Proof. apply reachable_consistent. Qed.

Lemma state_change_frame_witness :
  exists r s',
    task_record two_tasks "job" = Some r /\
    pause job two_tasks = (Ok tt, s') /\
    task_record s' "job" = Some (<["state" := VStr "paused"]> r) /\
    (forall other, other <> "job" -> task_record s' other = task_record two_tasks other) /\
    tasks s' = tasks two_tasks /\ groups s' = groups two_tasks.
Proof.
  pose proof (reachable_heap_ok
    [OpEvery "1s" None None (VInt 3) (VBool false) (VStr "A") job;
     OpEvery "2m" None (Some "500ms") VNone (VBool false) VNone report]) as Hok.
  fold two_tasks in Hok.
  assert (Hl : tasks two_tasks !! "job" = Some 1%positive) by (vm_compute; reflexivity).
  destruct (proj1 Hok _ _ Hl) as [r Hr].
  assert (Hrec : task_record two_tasks (fn_name job) = Some r).
  { unfold task_record. simpl fn_name. rewrite Hl. exact Hr. }
  destruct (state_change_frame ToPaused job two_tasks Hok) as (H & _ & _).
  destruct (H r Hrec) as (s' & Hrun & Hnew & _ & Hother & Htasks & Hgroups).
  exists r, s'. split; [exact Hrec|]. split; [exact Hrun|]. split; [exact Hnew|].
  split; [exact Hother|]. split; [exact Htasks | exact Hgroups].
Defined.

(** C10. Registering a one-shot task under a function name that is already
    in the registry does not fail: the name now refers to the new one-shot
    record, whatever record (periodic or one-shot) it referred to before;
    the other names and the group index are not touched.  A periodic
    registration of the same function on the same state is rejected. *)
Theorem after_overwrites (delay jitter : option string) (log : value)
    (decorator : callable -> M callable) (func : callable) (s : scheduler) :
  after delay jitter log = Ok decorator ->
  is_Some (tasks s !! fn_name func) ->
  (exists (s' : scheduler) (d j : value),
     decorator func s = (Ok (Wrapper OneShot func), s') /\
     task_record s' (fn_name func) = Some (oneshot_record func d j log) /\
     (forall other, other <> fn_name func -> tasks s' !! other = tasks s !! other) /\
     groups s' = groups s) /\
  (forall (interval : string) (delay' jitter' : option string) (limit log' group : value)
          (decorator' : callable -> M callable),
     every interval delay' jitter' limit log' group = Ok decorator' ->
     decorator' func s = (Raise (TaskExists (fn_name func)), s)).
Proof.
  intros (d & j & ->)%after_returns_decorator Hsome. split.
  - eexists _, d, j. split; [apply after_decorator_state|].
    split; [|split; [|done]].
    + pose proof (after_decorator_record d j log func s) as H.
      by rewrite after_decorator_state in H.
    + intros other Hne. simpl. by rewrite lookup_insert_ne.
  - intros interval delay' jitter' limit log' group decorator' Hev.
    by apply (duplicate_rejected _ _ _ _ _ _ _ _ _ Hev).
Qed.

Lemma after_overwrites_witness :
  (exists (s' : scheduler) (d j : value),
     after_decorator (VFloat (PyFloat.of_Z 5)) (VInt 0) (VBool true) job two_tasks =
       (Ok (Wrapper OneShot job), s') /\
     task_record s' "job" = Some (oneshot_record job d j (VBool true)) /\
     (forall other, other <> "job" -> tasks s' !! other = tasks two_tasks !! other) /\
     groups s' = groups two_tasks) /\
  (forall (interval : string) (delay' jitter' : option string) (limit log' group : value)
          (decorator' : callable -> M callable),
     every interval delay' jitter' limit log' group = Ok decorator' ->
     decorator' job two_tasks = (Raise (TaskExists "job"), two_tasks)).
Proof.
  apply (after_overwrites (Some "5s") None (VBool true)).
  - unfold after. simpl.
    by replace (_parse_time "5s") with (Ok (PyFloat.of_Z 5)) by (by vm_compute).
  - exists 1%positive. by vm_compute.
Defined.

(** The overwritten task keeps its listing in the group index: a one-shot
    registration over a grouped periodic task leaves a state in which the
    index and the records disagree. *)
Lemma after_breaks_agreement :
  ~ groups_agree
      (after_decorator (VFloat (PyFloat.of_Z 5)) (VInt 0) (VBool true) job two_tasks).2.
Proof.
  intros H. specialize (H "job" (VStr "A")).
  assert (Hin : "job" ∈ members
            (after_decorator (VFloat (PyFloat.of_Z 5)) (VInt 0) (VBool true)
               job two_tasks).2 (VStr "A")).
  { replace (members _ (VStr "A")) with ["job"] by (by vm_compute). apply list_elem_of_here. }
  apply H in Hin as [_ Hin]. unfold group_of in Hin.
  rewrite (after_decorator_record _ _ _ job two_tasks) in Hin. by vm_compute in Hin.
Qed.

(** ** Workers *)


(** *** Stepping through a worker *)

Lemma wbind_returned {A B} (m : W A) (k : A -> W B) (w w' : world) (a : A) :
  m w = (Returned a, w') -> wbind m k w = k a w'.
Proof. intros H. unfold wbind. by rewrite H. Qed.

Lemma wbind_raised {A B} (m : W A) (k : A -> W B) (w w' : world) (e : exn) :
  m w = (Raised e, w') -> wbind m k w = (Raised e, w').
Proof. intros H. unfold wbind. by rewrite H. Qed.

Lemma wbind_lift_ok {A B} (a : A) (k : A -> W B) : wbind (wlift (Ok a)) k = k a.
Proof. done. Qed.

Lemma leads_refl (w : world) : leads w w [] 0 0.
Proof. unfold leads. by rewrite app_nil_r, !Nat.add_0_r. Qed.

Lemma leads_trans (w w1 w2 : world) (e1 e2 : list event) (c1 c2 d1 d2 : nat) :
  leads w w1 e1 c1 d1 -> leads w1 w2 e2 c2 d2 ->
  leads w w2 (e1 ++ e2) (c1 + c2) (d1 + d2).
Proof.
  intros (Ha & Hc & Hd) (Ha' & Hc' & Hd'). unfold leads.
  split; [by rewrite Ha', Ha, app_assoc|]. split; lia.
Qed.

Lemma actions_snoc (tr : list event) (e : event) :
  actions (tr ++ [e]) = actions tr ++ (if is_print e then [] else [e]).
Proof.
  unfold actions. rewrite filter_app. f_equal.
  destruct e; simpl; by rewrite ?filter_cons_True, ?filter_cons_False by done.
Qed.

Ltac solve_leads :=
  unfold leads; simpl; rewrite ?actions_snoc, ?app_nil_r; simpl; split; [done|lia].

Section Stepping.
Context (E : env) (I : scheduler -> Prop) (HE : stable E I).

Lemma yield_step (w : world) :
  I (w_sched w) ->
  exists w', yield E w = (Returned tt, w') /\ I (w_sched w') /\ leads w w' [] 0 0.
Proof.
  intros HI. eexists. split; [done|]. split; [by apply HE|]. solve_leads.
Qed.

Lemma lookup_task_step (name : string) (l : loc) (w : world) :
  (forall s, I s -> tasks s !! name = Some l) ->
  I (w_sched w) ->
  exists w', lookup_task E name w = (Returned l, w') /\ I (w_sched w') /\
             leads w w' [] 0 0.
Proof.
  intros Hl HI. destruct (yield_step w HI) as (w' & Hy & HI' & Hlead).
  exists w'. unfold lookup_task. rewrite (wbind_returned _ _ _ _ _ Hy).
  by rewrite (Hl _ HI').
Qed.

Lemma get_item_step (l : loc) (key : string) (Q : value -> Prop) (w : world) :
  (forall s, I s -> exists v, deref s l !! key = Some v /\ Q v) ->
  I (w_sched w) ->
  exists v w', get_item E l key w = (Returned v, w') /\ Q v /\ I (w_sched w') /\
               leads w w' [] 0 0.
Proof.
  intros Hv HI. destruct (yield_step w HI) as (w' & Hy & HI' & Hlead).
  destruct (Hv _ HI') as (v & Hkey & HQ).
  exists v, w'. unfold get_item. rewrite (wbind_returned _ _ _ _ _ Hy).
  by rewrite Hkey.
Qed.

Lemma emit_step (e : event) (w : world) :
  I (w_sched w) ->
  exists w', emit e w = (Returned tt, w') /\ I (w_sched w') /\
             leads w w' (if is_print e then [] else [e]) 0 0.
Proof.
  intros HI. eexists. split; [done|]. split; [done|]. solve_leads.
Qed.

Lemma sleep_step (secs : value) (w : world) :
  accepted secs = true -> I (w_sched w) ->
  exists w', sleep secs w = (Returned tt, w') /\ I (w_sched w') /\
             leads w w' [ESleep secs] 0 0.
Proof.
  intros Hacc HI. unfold sleep, wbind, wlift, wret.
  destruct secs as [|b|z|x|t|c]; try discriminate Hacc; simpl in *.
  - destruct b; by apply (emit_step (ESleep _)).
  - apply negb_true_iff in Hacc. rewrite Hacc.
    by apply (emit_step (ESleep (VInt z))).
  - apply andb_true_iff in Hacc as [Hneg Hfin]. apply negb_true_iff in Hneg.
    rewrite Hneg, Hfin.
    by apply (emit_step (ESleep (VFloat x))).
Qed.

Lemma print_if_step (lg : value) (m : message) (w : world) :
  I (w_sched w) ->
  exists w', (if truthy lg then print m else wret tt) w = (Returned tt, w') /\
             I (w_sched w') /\ leads w w' [] 0 0.
Proof.
  intros HI. destruct (truthy lg).
  - by apply (emit_step (EPrint m)).
  - exists w. split; [done|]. split; [done|]. apply leads_refl.
Qed.

Lemma call_step (args : list value) (w : world) :
  I (w_sched w) ->
  exists w',
    call E args w =
      (match (body E (w_calls w) args (w_sched w)).1 with
       | None => Returned tt
       | Some e => Raised e
       end, w') /\
    I (w_sched w') /\ leads w w' [ECall args] 1 0.
Proof.
  intros HI. unfold call.
  pose proof (proj2 HE (w_calls w) args _ HI) as HI'.
  destruct (body E (w_calls w) args (w_sched w)) as [r s'] eqn:Hb. simpl in *.
  eexists. split; [done|]. split; [done|]. solve_leads.
Qed.

Lemma draw_step (w : world) :
  I (w_sched w) ->
  exists w', draw E w = (Returned (random E (w_draws w)), w') /\ I (w_sched w') /\
             leads w w' [] 0 1.
Proof.
  intros HI. eexists. split; [done|]. split; [done|]. solve_leads.
Qed.
End Stepping.

Ltac chain_leads :=
  unfold leads in *;
  repeat match goal with H : _ /\ _ |- _ => destruct H end;
  split;
  [ repeat match goal with
           | H : actions (w_trace ?x) = _ |- _ => rewrite H; clear H
           end;
    rewrite ?app_nil_r, <- ?app_assoc; try done
  | lia ].

Section Blocks.
Context (E : env) (I : scheduler -> Prop) (HE : stable E I).
Context (task_name : string) (l : loc).

Lemma flag_print_step (b : bool) (m : message) (w : world) :
  I (w_sched w) ->
  exists w', (if b then print m else wret tt) w = (Returned tt, w') /\
             I (w_sched w') /\ leads w w' [] 0 0.
Proof.
  intros HI. destruct b.
  - by apply (emit_step I (EPrint m)).
  - exists w. split; [done|]. split; [done|]. apply leads_refl.
Qed.

(** The body returns: [execute] is one execution, and console output. *)
Lemma execute_returns (args : list value) (w : world) :
  (forall s, I s -> is_Some (deref s l !! "log")) ->
  (forall s, (body E (w_calls w) args s).1 = None) ->
  I (w_sched w) ->
  exists w', execute E task_name l args w = (Returned tt, w') /\ I (w_sched w') /\
             leads w w' [ECall args] 1 0.
Proof.
  intros Hlog Hbody HI.
  assert (Hlog' : forall s, I s -> exists v, deref s l !! "log" = Some v /\ True).
  { intros s Hs. destruct (Hlog s Hs) as [v Hv]. by exists v. }
  destruct (get_item_step E I HE l "log" _ w Hlog' HI) as (lg1 & w1 & H1 & _ & HI1 & L1).
  destruct (flag_print_step (truthy lg1) (MsgExecuting task_name) w1 HI1)
    as (w2 & H2 & HI2 & L2).
  destruct (call_step E I HE args w2 HI2) as (w3 & H3 & HI3 & L3).
  assert (Hc : w_calls w2 = w_calls w) by (unfold leads in *; lia).
  rewrite Hc, Hbody in H3.
  destruct (get_item_step E I HE l "log" _ w3 Hlog' HI3) as (lg2 & w4 & H4 & _ & HI4 & L4).
  destruct (flag_print_step (truthy lg2) (MsgSuccess task_name) w4 HI4)
    as (w5 & H5 & HI5 & L5).
  exists w5. split; [|split; [done|chain_leads]].
  unfold execute, try_except.
  rewrite (wbind_returned _ _ _ _ _ H1), (wbind_returned _ _ _ _ _ H2),
    (wbind_returned _ _ _ _ _ H3), (wbind_returned _ _ _ _ _ H4).
  by rewrite H5.
Qed.

Lemma uniform_step (a b width scaled amount : value) (w : world) :
  py_sub b a = Ok width ->
  py_mul width (VFloat (random E (w_draws w))) = Ok scaled ->
  py_add a scaled = Ok amount ->
  I (w_sched w) ->
  exists w', uniform E a b w = (Returned amount, w') /\ I (w_sched w') /\
             leads w w' [] 0 1.
Proof.
  intros Hwidth Hscaled Hamount HI.
  destruct (draw_step E I w HI) as (w1 & H1 & HI1 & L1).
  exists w1. split; [|done].
  unfold uniform. rewrite Hwidth, wbind_lift_ok, (wbind_returned _ _ _ _ _ H1).
  by rewrite Hscaled, wbind_lift_ok, Hamount.
Qed.

(** The wait after an execution, when the timing fields are in order. *)
Lemma jittered_sleep_step (key : string) (jitter base : value) (w : world) :
  (forall s, I s -> deref s l !! "jitter" = Some jitter) ->
  (forall s, I s -> deref s l !! key = Some base) ->
  gap_ok jitter base (random E (w_draws w)) ->
  I (w_sched w) ->
  exists w', jittered_sleep E l key w = (Returned tt, w') /\ I (w_sched w') /\
             leads w w' (gap_events jitter base (random E (w_draws w))) 0 1.
Proof.
  intros Hj Hb (gap & positive & Hgap & Hpos & Hacc) HI.
  unfold gap_events. rewrite Hgap, Hpos. unfold gap_value in Hgap.
  destruct (py_neg jitter) as [lo|] eqn:Hlo; [|discriminate Hgap]. simpl in Hgap.
  destruct (py_sub jitter lo) as [width|] eqn:Hwidth; [|discriminate Hgap]. simpl in Hgap.
  destruct (py_mul width _) as [scaled|] eqn:Hscaled; [|discriminate Hgap]. simpl in Hgap.
  destruct (py_add lo scaled) as [amount|] eqn:Hamount; [|discriminate Hgap]. simpl in Hgap.
  destruct (get_item_step E I HE l "jitter" (fun v => v = jitter) w) as (? & w1 & H1 & -> & HI1 & L1);
    [intros s Hs; exists jitter; by rewrite (Hj s Hs) | done |].
  assert (Hd : w_draws w1 = w_draws w) by (unfold leads in *; lia).
  rewrite <- Hd in Hscaled.
  destruct (uniform_step lo jitter width scaled amount w1 Hwidth Hscaled Hamount HI1)
    as (w2 & H2 & HI2 & L2).
  destruct (get_item_step E I HE l key (fun v => v = base) w2) as (? & w3 & H3 & -> & HI3 & L3);
    [intros s Hs; exists base; by rewrite (Hb s Hs) | done |].
  assert (Hrun : jittered_sleep E l key w = (if positive then sleep gap else wret tt) w3).
  { unfold jittered_sleep.
    rewrite (wbind_returned _ _ _ _ _ H1), Hlo, wbind_lift_ok.
    rewrite (wbind_returned _ _ _ _ _ H2), (wbind_returned _ _ _ _ _ H3).
    by rewrite Hgap, wbind_lift_ok, Hpos, wbind_lift_ok. }
  rewrite Hrun. destruct positive.
  - destruct (sleep_step I gap w3 (Hacc eq_refl) HI3) as (w4 & H4 & HI4 & L4).
    exists w4. split; [done|]. split; [done|]. chain_leads.
  - exists w3. split; [done|]. split; [done|]. chain_leads.
Qed.
End Blocks.

Lemma task_at_lookup (name : string) (l : loc) (Q : gmap string value -> Prop)
    (s : scheduler) :
  task_at name l Q s -> tasks s !! name = Some l.
Proof. by intros [H _]. Qed.

Lemma task_at_record (name : string) (l : loc) (Q : gmap string value -> Prop)
    (s : scheduler) :
  task_at name l Q s -> Q (deref s l).
Proof. intros (_ & r & Hr & HQ). unfold deref. by rewrite Hr. Qed.

Lemma loop_unfold (E : env) (task_name : string) (args : list value) (fuel : nat)
    (local_limit : value) :
  loop E task_name args fuel local_limit =
    wbind (wlift (loop_condition local_limit)) (fun go =>
      if go then
        match fuel with
        | O => fun w => (OutOfFuel, w)
        | S fuel' =>
            wbind (iteration E task_name args local_limit) (fun c =>
              match c with
              | Next local_limit' => loop E task_name args fuel' local_limit'
              | Break => wret tt
              end)
        end
      else wret tt).
Proof. by destruct fuel. Qed.

(** *** A bounded periodic run *)

Section Bounded.
Context (E : env) (task_name : string) (l : loc) (args : list value).
Context (limit delay jitter interval : value).
Context (I : scheduler -> Prop) (HE : stable E I).
Context (HIb : forall s, I s -> bounded_task task_name l limit delay jitter interval s).
Context (Hbody : forall k a s, (body E k a s).1 = None).
Context (Hgap : forall k, gap_ok jitter interval (random E k)).

Lemma bounded_iteration (m : Z) (w : world) :
  I (w_sched w) ->
  exists w',
    iteration E task_name args (VInt m) w = (Returned (Next (VInt (m - 1))), w') /\
    I (w_sched w') /\
    leads w w' (ECall args :: gap_events jitter interval (random E (w_draws w))) 1 1.
Proof.
  intros HI.
  destruct (lookup_task_step E I HE task_name l w) as (w1 & H1 & HI1 & L1);
    [intros s Hs; by eapply task_at_lookup, HIb | done |].
  destruct (get_item_step E I HE l "state"
              (fun st => st <> VStr "paused" /\ st <> VStr "stopped") w1)
    as (st & w2 & H2 & [Hnp Hns] & HI2 & L2); [|done|].
  { intros s Hs. apply HIb, task_at_record in Hs as (_ & _ & _ & _ & _ & st & Hst & Hrun).
    by exists st. }
  destruct (execute_returns E I HE task_name l args w2) as (w3 & H3 & HI3 & L3);
    [|intros s; apply Hbody|done|].
  { intros s Hs. by apply HIb, task_at_record in Hs as (_ & _ & _ & _ & Hlog & _). }
  destruct (jittered_sleep_step E I HE l "interval" jitter interval w3)
    as (w4 & H4 & HI4 & L4); [| |apply Hgap|done|].
  { intros s Hs. by apply HIb, task_at_record in Hs as (_ & _ & Hj & _). }
  { intros s Hs. by apply HIb, task_at_record in Hs as (_ & _ & _ & Hi & _). }
  destruct (get_item_step E I HE l "log" (fun _ => True) w4) as (lg & w5 & H5 & _ & HI5 & L5);
    [|done|].
  { intros s Hs. apply HIb, task_at_record in Hs as (_ & _ & _ & _ & [v Hv] & _). by exists v. }
  destruct (flag_print_step I
              (truthy lg && negb (bool_decide (VInt (m - 1) = VNone)))
              (MsgRemaining task_name (VInt (m - 1))) w5 HI5) as (w6 & H6 & HI6 & L6).
  assert (Hd : w_draws w3 = w_draws w) by (unfold leads in *; lia).
  rewrite Hd in L4.
  exists w6. split; [|split; [done|chain_leads]].
  unfold iteration.
  rewrite (wbind_returned _ _ _ _ _ H1), (wbind_returned _ _ _ _ _ H2).
  rewrite decide_False, decide_False by done.
  rewrite (wbind_returned _ _ _ _ _ H3), (wbind_returned _ _ _ _ _ H4).
  change (py_sub (VInt m) (VInt 1)) with (Ok (VInt (m - 1))).
  rewrite wbind_lift_ok, (wbind_returned _ _ _ _ _ H5), (wbind_returned _ _ _ _ _ H6).
  done.
Qed.

Lemma bounded_loop (c fuel : nat) (m : Z) (w : world) :
  Z.to_nat m = c -> (c <= fuel)%nat ->
  I (w_sched w) ->
  exists w',
    loop E task_name args fuel (VInt m) w = (Returned tt, w') /\
    I (w_sched w') /\
    leads w w' (rounds E args jitter interval (w_draws w) c) c c.
Proof.
  revert fuel m w. induction c as [|c IH]; intros fuel m w Hm Hfuel HI.
  - exists w. split; [|split; [done|apply leads_refl]].
    assert (Hcond : loop_condition (VInt m) = Ok false).
    { unfold loop_condition, py_positive. simpl. f_equal. apply Z.ltb_ge. lia. }
    by rewrite loop_unfold, Hcond, wbind_lift_ok.
  - assert (Hcond : loop_condition (VInt m) = Ok true).
    { unfold loop_condition, py_positive. simpl. f_equal. apply Z.ltb_lt. lia. }
    destruct fuel as [|fuel]; [lia|].
    destruct (bounded_iteration m w HI) as (w1 & H1 & HI1 & L1).
    destruct (IH fuel (m - 1) w1) as (w2 & H2 & HI2 & L2); [lia|lia|done|].
    assert (Hd : w_draws w1 = S (w_draws w)) by (unfold leads in *; lia).
    rewrite Hd in L2.
    exists w2. split; [|split; [done|]].
    + rewrite loop_unfold, Hcond, wbind_lift_ok, (wbind_returned _ _ _ _ _ H1).
      exact H2.
    + simpl rounds. chain_leads.
Qed.
End Bounded.

Lemma gap_events_shape (jitter interval : value) (x : PyFloat.float) :
  gap_events jitter interval x = [] \/
  exists gap, gap_events jitter interval x = [ESleep gap].
Proof.
  unfold gap_events. destruct (gap_value jitter interval x) as [gap|]; [|by left].
  destruct (py_positive gap) as [[]|]; [right; by exists gap | by left | by left].
Qed.

Lemma executions_actions (tr : list event) :
  executions tr = length (filter (fun e => is_call e = true) (actions tr)).
Proof.
  unfold executions, actions. induction tr as [|e tr IH]; [done|].
  destruct e; simpl;
    rewrite ?filter_cons_True, ?filter_cons_False by done; simpl;
    rewrite ?filter_cons_True, ?filter_cons_False by done; simpl; by rewrite ?IH.
Qed.

Lemma rounds_executions (E : env) (args : list value) (jitter interval : value) (k n : nat) :
  length (filter (fun e => is_call e = true) (rounds E args jitter interval k n)) = n.
Proof.
  revert k. induction n as [|n IH]; intros k; [done|].
  change (rounds E args jitter interval k (S n)) with
    (ECall args :: (gap_events jitter interval (random E k)
                    ++ rounds E args jitter interval (S k) n)).
  rewrite filter_cons_True by done.
  rewrite filter_app, length_cons, length_app, IH.
  destruct (gap_events_shape jitter interval (random E k)) as [-> | [gap ->]]; [done|].
  by rewrite filter_cons_False.
Qed.

(** A bounded periodic task whose executions return: the worker sleeps the
    delay, then runs [limit] rounds of one execution and one wait each. *)
Lemma bounded_run (E : env) (I : scheduler -> Prop) (task_name : string) (l : loc)
    (args : list value) (n : Z) (delay jitter interval : value) (s : scheduler)
    (fuel : nat) :
  stable E I ->
  (forall s', I s' -> bounded_task task_name l (VInt n) delay jitter interval s') ->
  I s ->
  (forall k a s', (body E k a s').1 = None) ->
  accepted delay = true ->
  (forall k, gap_ok jitter interval (random E k)) ->
  (Z.to_nat n <= fuel)%nat ->
  exists w,
    periodic_wrapper E task_name args fuel (start s) = (Returned tt, w) /\
    executions (w_trace w) = Z.to_nat n /\
    actions (w_trace w) = ESleep delay :: rounds E args jitter interval 0 (Z.to_nat n).
Proof.
  intros HE HIb HI Hbody Hdelay Hgap Hfuel.
  destruct (lookup_task_step E I HE task_name l (start s)) as (w1 & H1 & HI1 & L1);
    [intros s' Hs; by eapply task_at_lookup, HIb | done |].
  destruct (get_item_step E I HE l "delay" (fun v => v = delay) w1)
    as (? & w2 & H2 & -> & HI2 & L2); [|done|].
  { intros s' Hs. exists delay. by apply HIb, task_at_record in Hs as (_ & Hd & _). }
  destruct (sleep_step I delay w2 Hdelay HI2) as (w3 & H3 & HI3 & L3).
  destruct (get_item_step E I HE l "limit" (fun v => v = VInt n) w3)
    as (? & w4 & H4 & -> & HI4 & L4); [|done|].
  { intros s' Hs. exists (VInt n). by apply HIb, task_at_record in Hs as (Hl & _). }
  destruct (bounded_loop E task_name l args (VInt n) delay jitter interval I HE HIb Hbody Hgap
              (Z.to_nat n) fuel n w4 eq_refl Hfuel HI4) as (w5 & H5 & HI5 & L5).
  assert (Hd : w_draws w4 = 0%nat) by (unfold leads in *; simpl in *; lia).
  rewrite Hd in L5.
  assert (Hact : actions (w_trace w5) =
                 ESleep delay :: rounds E args jitter interval 0 (Z.to_nat n)).
  { assert (L : leads (start s) w5
                (ESleep delay :: rounds E args jitter interval 0 (Z.to_nat n))
                (Z.to_nat n) (Z.to_nat n)) by chain_leads.
    by destruct L as [-> _]. }
  exists w5. split; [|split; [|done]].
  - unfold periodic_wrapper.
    rewrite (wbind_returned _ _ _ _ _ H1), (wbind_returned _ _ _ _ _ H2),
      (wbind_returned _ _ _ _ _ H3), (wbind_returned _ _ _ _ _ H4).
    exact H5.
  - rewrite executions_actions, Hact, filter_cons_False by done.
    apply rounds_executions.
Qed.


Lemma two_tasks_job :
  bounded_task "job" 1%positive (VInt 3) (VInt 0) (VInt 0) (VFloat (PyFloat.of_Z 1)) two_tasks.
Proof.
  pose proof (reachable_heap_ok
    [OpEvery "1s" None None (VInt 3) (VBool false) (VStr "A") job;
     OpEvery "2m" None (Some "500ms") VNone (VBool false) VNone report]) as Hok.
  fold two_tasks in Hok.
  assert (Hl : tasks two_tasks !! "job" = Some 1%positive) by (vm_compute; reflexivity).
  destruct (proj1 Hok _ _ Hl) as [r Hr].
  assert (Hd : deref two_tasks 1%positive = r) by (unfold deref; by rewrite Hr).
  split; [exact Hl|]. exists r. split; [exact Hr|]. rewrite <- Hd.
  split; [vm_compute; reflexivity|]. split; [vm_compute; reflexivity|].
  split; [vm_compute; reflexivity|]. split; [vm_compute; reflexivity|].
  split; [exists (VBool false); vm_compute; reflexivity|].
  exists (VStr "active"). split; [vm_compute; reflexivity|]. split; discriminate.
Qed.

Lemma quiet_stable (I : scheduler -> Prop) : stable quiet I.
Proof. by split. Qed.


(** *** What a step keeps *)

Section Keeps.
Context (E : env) (I : scheduler -> Prop) (HE : stable E I).

Lemma keeps_wret {A} (a : A) : keeps I (wret a).
Proof. by intros w. Qed.

Lemma keeps_wraise {A} (e : exn) : keeps I (@wraise A e).
Proof. by intros w. Qed.

Lemma keeps_wlift {A} (r : result A) : keeps I (wlift r).
Proof. destruct r; [apply keeps_wret | apply keeps_wraise]. Qed.

Lemma keeps_wbind {A B} (m : W A) (k : A -> W B) :
  keeps I m -> (forall a, keeps I (k a)) -> keeps I (wbind m k).
Proof.
  intros Hm Hk w HI. specialize (Hm w HI). unfold wbind.
  destruct (m w) as [[a|e|] w']; [by apply Hk | done | done].
Qed.

Lemma keeps_emit (e : event) : keeps I (emit e).
Proof. by intros w. Qed.

Lemma keeps_yield : keeps I (yield E).
Proof. intros w HI. by apply HE. Qed.

Lemma keeps_lookup_task (name : string) : keeps I (lookup_task E name).
Proof.
  apply keeps_wbind; [apply keeps_yield|]. intros _ w HI.
  by destruct (tasks (w_sched w) !! name).
Qed.

Lemma keeps_get_item (l : loc) (key : string) : keeps I (get_item E l key).
Proof.
  apply keeps_wbind; [apply keeps_yield|]. intros _ w HI.
  by destruct (deref (w_sched w) l !! key).
Qed.

Lemma keeps_sleep (secs : value) : keeps I (sleep secs).
Proof.
  apply keeps_wbind; [apply keeps_wlift|]. intros [z|x].
  - destruct (z <? 0); [apply keeps_wraise | apply keeps_emit].
  - destruct (_ || _); [apply keeps_wraise|].
    destruct (PyFloat.is_finite x); [apply keeps_emit | apply keeps_wraise].
Qed.

Lemma keeps_call (args : list value) : keeps I (call E args).
Proof.
  intros w HI. unfold call.
  pose proof (proj2 HE (w_calls w) args _ HI) as HI'.
  by destruct (body E (w_calls w) args (w_sched w)).
Qed.

Lemma keeps_draw : keeps I (draw E).
Proof. by intros w. Qed.

Lemma keeps_flag_print (b : bool) (m : message) :
  keeps I (if b then print m else wret tt).
Proof. destruct b; [apply keeps_emit | apply keeps_wret]. Qed.

Lemma keeps_try_except {A} (block : W A) (handler : exn -> W A) :
  keeps I block -> (forall e, keeps I (handler e)) -> keeps I (try_except block handler).
Proof.
  intros Hb Hh w HI. specialize (Hb w HI). unfold try_except.
  destruct (block w) as [[a|e|] w']; [done| |done].
  destruct (is_Exception e); [by apply Hh | done].
Qed.

Lemma keeps_execute (name : string) (l : loc) (args : list value) :
  keeps I (execute E name l args).
Proof.
  apply keeps_try_except.
  - apply keeps_wbind; [apply keeps_get_item|]. intros lg.
    apply keeps_wbind; [apply keeps_flag_print|]. intros _.
    apply keeps_wbind; [apply keeps_call|]. intros _.
    apply keeps_wbind; [apply keeps_get_item|]. intros lg'.
    apply keeps_flag_print.
  - intros e. apply keeps_wbind; [apply keeps_get_item|]. intros lg.
    destruct (truthy lg); [apply keeps_wraise | apply keeps_wret].
Qed.

Lemma keeps_uniform (a b : value) : keeps I (uniform E a b).
Proof.
  apply keeps_wbind; [apply keeps_wlift|]. intros width.
  apply keeps_wbind; [apply keeps_draw|]. intros r.
  apply keeps_wbind; apply keeps_wlift || (intros; apply keeps_wlift).
Qed.

Lemma keeps_jittered_sleep (l : loc) (base : string) :
  keeps I (jittered_sleep E l base).
Proof.
  apply keeps_wbind; [apply keeps_get_item|]. intros jitter.
  apply keeps_wbind; [apply keeps_wlift|]. intros lo.
  apply keeps_wbind; [apply keeps_uniform|]. intros amount.
  apply keeps_wbind; [apply keeps_get_item|]. intros interval.
  apply keeps_wbind; [apply keeps_wlift|]. intros gap.
  apply keeps_wbind; [apply keeps_wlift|]. intros [|];
    [apply keeps_sleep | apply keeps_wret].
Qed.

Lemma keeps_iteration (name : string) (args : list value) (local_limit : value) :
  keeps I (iteration E name args local_limit).
Proof.
  apply keeps_wbind; [apply keeps_lookup_task|]. intros props.
  apply keeps_wbind; [apply keeps_get_item|]. intros state.
  destruct (decide (state = VStr "paused")).
  { apply keeps_wbind; [apply keeps_sleep|]. intros _. apply keeps_wret. }
  destruct (decide (state = VStr "stopped")).
  { apply keeps_wbind; [apply keeps_get_item|]. intros lg.
    apply keeps_wbind; [apply keeps_flag_print|]. intros _. apply keeps_wret. }
  apply keeps_wbind; [apply keeps_execute|]. intros _.
  apply keeps_wbind; [apply keeps_jittered_sleep|]. intros _.
  apply keeps_wbind.
  { destruct local_limit; apply keeps_wret || apply keeps_wlift. }
  intros ll'. apply keeps_wbind; [apply keeps_get_item|]. intros lg.
  apply keeps_wbind; [apply keeps_flag_print|]. intros _. apply keeps_wret.
Qed.
End Keeps.

(** *** Exceptions of the task body *)

Lemma wbind_ext {A B} (m : W A) (k1 k2 : A -> W B) (w : world) :
  (forall a w', m w = (Returned a, w') -> k1 a w' = k2 a w') ->
  wbind m k1 w = wbind m k2 w.
Proof.
  intros H. unfold wbind. destruct (m w) as [[a|e|] w'] eqn:Hm; [by apply H|done|done].
Qed.

Lemma keeps_returned {A} (I : scheduler -> Prop) (m : W A) (w w' : world) (a : A) :
  keeps I m -> I (w_sched w) -> m w = (Returned a, w') -> I (w_sched w').
Proof. intros Hk HI Hm. specialize (Hk w HI). by rewrite Hm in Hk. Qed.

Lemma lookup_task_returned (E : env) (name : string) (w w' : world) (p : loc) :
  lookup_task E name w = (Returned p, w') -> tasks (w_sched w') !! name = Some p.
Proof.
  unfold lookup_task, wbind, yield. simpl.
  destruct (tasks _ !! name) as [l|] eqn:Hl; [|discriminate].
  intros [= <- <-]. exact Hl.
Qed.

Section Exceptions.
Context (E : env) (task_name : string) (l : loc) (args : list value).

(** With the log on, an [Exception] of the body leaves [execute] as a
    wrapped runtime error, right after the execution. *)
Lemma execute_raises (I : scheduler -> Prop) (e : exn) (w : world) :
  stable E I ->
  (forall s, I s -> logging task_name l true s) ->
  (forall s, (body E (w_calls w) args s).1 = Some e) ->
  is_Exception e = true ->
  I (w_sched w) ->
  exists w',
    execute E task_name l args w = (Raised (TaskError task_name e), w') /\
    I (w_sched w') /\ leads w w' [ECall args] 1 0.
Proof.
  intros HE Hlog Hbody Hexc HI.
  assert (Hlog' : forall s, I s ->
            exists v, deref s l !! "log" = Some v /\ truthy v = true).
  { intros s Hs. by apply Hlog, task_at_record in Hs. }
  destruct (get_item_step E I HE l "log" _ w Hlog' HI) as (lg1 & w1 & H1 & _ & HI1 & L1).
  destruct (flag_print_step I (truthy lg1) (MsgExecuting task_name) w1 HI1)
    as (w2 & H2 & HI2 & L2).
  destruct (call_step E I HE args w2 HI2) as (w3 & H3 & HI3 & L3).
  assert (Hc : w_calls w2 = w_calls w) by (unfold leads in *; lia).
  rewrite Hc, Hbody in H3.
  destruct (get_item_step E I HE l "log" _ w3 Hlog' HI3) as (lg2 & w4 & H4 & Hon & HI4 & L4).
  exists w4. split; [|split; [done|chain_leads]].
  unfold execute, try_except.
  rewrite (wbind_returned _ _ _ _ _ H1), (wbind_returned _ _ _ _ _ H2),
    (wbind_raised _ _ _ _ _ H3), Hexc.
  by rewrite (wbind_returned _ _ _ _ _ H4), Hon.
Qed.

(** With the log off, [execute] ends the same way whether the body
    returns or raises an [Exception]. *)
Lemma execute_swallowing (I : scheduler -> Prop) (w : world) :
  stable E I ->
  (forall s, I s -> logging task_name l false s) ->
  I (w_sched w) ->
  execute (swallowing E) task_name l args w = execute E task_name l args w.
Proof.
  intros HE Hoff HI.
  assert (Hlog' : forall s, I s ->
            exists v, deref s l !! "log" = Some v /\ truthy v = false).
  { intros s Hs. by apply Hoff, task_at_record in Hs. }
  destruct (get_item_step E I HE l "log" _ w Hlog' HI) as (lg1 & w1 & H1 & Hoff1 & HI1 & L1).
  destruct (call_step E I HE args w1 HI1) as (w2 & H2 & HI2 & L2).
  destruct (get_item_step E I HE l "log" _ w2 Hlog' HI2) as (lg2 & w3 & H3 & Hoff2 & HI3 & L3).
  assert (H2' : call (swallowing E) args w1 =
            (match (body E (w_calls w1) args (w_sched w1)).1 with
             | None => Returned tt
             | Some e => if is_Exception e then Returned tt else Raised e
             end, w2)).
  { unfold call in *. simpl.
    destruct (body E (w_calls w1) args (w_sched w1)) as [[e|] s']; simpl in *;
      [destruct (is_Exception e)|]; congruence. }
  unfold execute, try_except.
  change (get_item (swallowing E)) with (get_item E).
  rewrite !(wbind_returned _ _ _ _ _ H1), Hoff1.
  rewrite !(wbind_returned (wret tt) _ w1 w1 tt eq_refl).
  destruct ((body E (w_calls w1) args (w_sched w1)).1) as [e|].
  - rewrite (wbind_raised _ _ _ _ _ H2). destruct (is_Exception e) eqn:He.
    + rewrite (wbind_returned _ _ _ _ _ H2'), !(wbind_returned _ _ _ _ _ H3), Hoff2. done.
    + by rewrite (wbind_raised _ _ _ _ _ H2'), He.
  - by rewrite (wbind_returned _ _ _ _ _ H2), (wbind_returned _ _ _ _ _ H2').
Qed.
End Exceptions.

Section Propagation.
Context (E : env) (task_name : string) (l : loc) (args : list value).

(** With the log on, an [Exception] of the body ends the loop in the
    round in which it is raised. *)
Lemma loop_raises (I : scheduler -> Prop) (e : exn) (fuel : nat)
    (local_limit : value) (w : world) :
  stable E I ->
  (forall s, I s -> logging task_name l true s /\ task_at task_name l running s) ->
  loop_condition local_limit = Ok true ->
  (forall s, (body E (w_calls w) args s).1 = Some e) ->
  is_Exception e = true ->
  I (w_sched w) ->
  exists w',
    loop E task_name args (S fuel) local_limit w = (Raised (TaskError task_name e), w') /\
    leads w w' [ECall args] 1 0.
Proof.
  intros HE HIs Hcond Hbody Hexc HI.
  destruct (lookup_task_step E I HE task_name l w) as (w1 & H1 & HI1 & L1);
    [intros s Hs; by eapply task_at_lookup, HIs | done |].
  destruct (get_item_step E I HE l "state"
              (fun st => st <> VStr "paused" /\ st <> VStr "stopped") w1)
    as (st & w2 & H2 & [Hnp Hns] & HI2 & L2); [|done|].
  { intros s Hs. apply HIs in Hs as [_ Hs].
    apply task_at_record in Hs as (st & Hst & Hrun). by exists st. }
  assert (Hc : w_calls w2 = w_calls w) by (unfold leads in *; lia).
  destruct (execute_raises E task_name l args I e w2 HE) as (w3 & H3 & HI3 & L3);
    [intros s Hs; by apply HIs | by rewrite Hc | done | done |].
  exists w3. split; [|chain_leads].
  rewrite loop_unfold, Hcond, wbind_lift_ok. unfold iteration.
  rewrite (wbind_raised _ _ w w3 (TaskError task_name e)); [done|].
  rewrite (wbind_returned _ _ _ _ _ H1), (wbind_returned _ _ _ _ _ H2).
  rewrite decide_False, decide_False by done.
  by rewrite (wbind_raised _ _ _ _ _ H3).
Qed.

Context (I : scheduler -> Prop) (HE : stable E I).
Context (Hoff : forall s, I s -> logging task_name l false s).

Lemma iteration_swallowing (local_limit : value) (w : world) :
  I (w_sched w) ->
  iteration (swallowing E) task_name args local_limit w =
    iteration E task_name args local_limit w.
Proof.
  intros HI.
  unfold iteration.
  change (lookup_task (swallowing E)) with (lookup_task E).
  change (get_item (swallowing E)) with (get_item E).
  change (jittered_sleep (swallowing E)) with (jittered_sleep E).
  apply wbind_ext. intros props w1 H1.
  pose proof (keeps_returned I _ _ _ _ (keeps_lookup_task E I HE task_name) HI H1) as HI1.
  assert (props = l) as ->.
  { apply lookup_task_returned in H1. apply Hoff, task_at_lookup in HI1. congruence. }
  apply wbind_ext. intros state w2 H2.
  pose proof (keeps_returned I _ _ _ _ (keeps_get_item E I HE l "state") HI1 H2) as HI2.
  destruct (decide (state = VStr "paused")); [done|].
  destruct (decide (state = VStr "stopped")); [done|].
  unfold wbind at 1 5. by rewrite (execute_swallowing E task_name l args I w2 HE Hoff HI2).
Qed.

Lemma loop_swallowing (fuel : nat) (local_limit : value) (w : world) :
  I (w_sched w) ->
  loop (swallowing E) task_name args fuel local_limit w =
    loop E task_name args fuel local_limit w.
Proof.
  revert local_limit w. induction fuel as [|fuel IH]; intros local_limit w HI.
  - by rewrite !loop_unfold.
  - rewrite !loop_unfold. apply wbind_ext. intros [|] w1 H1; [|done].
    assert (w1 = w) as ->.
    { unfold wlift in H1. destruct (loop_condition local_limit); by inversion H1. }
    unfold wbind. rewrite (iteration_swallowing local_limit w HI).
    pose proof (keeps_iteration E _ HE task_name args local_limit w HI) as HI'.
    destruct (iteration E task_name args local_limit w) as [[[ll'|]|e|] w2]; try done.
    by apply IH.
Qed.

(** With the log off, the periodic worker runs as if every [Exception]
    of the body were a normal return. *)
Lemma periodic_swallowing (fuel : nat) (w : world) :
  I (w_sched w) ->
  periodic_wrapper (swallowing E) task_name args fuel w =
    periodic_wrapper E task_name args fuel w.
Proof.
  intros HI.
  unfold periodic_wrapper.
  change (lookup_task (swallowing E)) with (lookup_task E).
  change (get_item (swallowing E)) with (get_item E).
  apply wbind_ext. intros props w1 H1.
  pose proof (keeps_returned I _ _ _ _ (keeps_lookup_task E I HE task_name) HI H1) as HI1.
  apply wbind_ext. intros delay w2 H2.
  pose proof (keeps_returned I _ _ _ _ (keeps_get_item E I HE props "delay") HI1 H2) as HI2.
  apply wbind_ext. intros [] w3 H3.
  pose proof (keeps_returned I _ _ _ _ (keeps_sleep I delay) HI2 H3) as HI3.
  apply wbind_ext. intros ll w4 H4.
  pose proof (keeps_returned I _ _ _ _ (keeps_get_item E I HE props "limit") HI3 H4) as HI4.
  by apply loop_swallowing.
Qed.

Lemma oneshot_swallowing (w : world) :
  I (w_sched w) ->
  oneshot_wrapper (swallowing E) task_name args w = oneshot_wrapper E task_name args w.
Proof.
  intros HI.
  unfold oneshot_wrapper.
  change (lookup_task (swallowing E)) with (lookup_task E).
  change (jittered_sleep (swallowing E)) with (jittered_sleep E).
  apply wbind_ext. intros props w1 H1.
  pose proof (keeps_returned I _ _ _ _ (keeps_lookup_task E I HE task_name) HI H1) as HI1.
  assert (props = l) as ->.
  { apply lookup_task_returned in H1. apply Hoff, task_at_lookup in HI1. congruence. }
  apply wbind_ext. intros [] w2 H2.
  pose proof (keeps_returned I _ _ _ _ (keeps_jittered_sleep E I HE l "delay") HI1 H2) as HI2.
  by apply (execute_swallowing E task_name l args I).
Qed.
End Propagation.

Lemma swallowing_stable (E : env) (I : scheduler -> Prop) :
  stable E I -> stable (swallowing E) I.
Proof.
  intros [Hi Hb]. split; [exact Hi|]. intros k a s Hs. simpl.
  specialize (Hb k a s Hs). by destruct (body E k a s).
Qed.

Lemma swallowing_returns (E : env) :
  (forall k a s e, (body E k a s).1 = Some e -> is_Exception e = true) ->
  forall k a s, (body (swallowing E) k a s).1 = None.
Proof.
  intros H k a s. simpl. specialize (H k a s).
  destruct (body E k a s) as [[e|] s']; simpl in *; [|done].
  by rewrite (H e eq_refl).
Qed.

Lemma rounds_swallowing (E : env) (args : list value) (jitter interval : value) (k n : nat) :
  rounds (swallowing E) args jitter interval k n = rounds E args jitter interval k n.
Proof. revert k. induction n as [|n IH]; intros k; [done|]. simpl. by rewrite IH. Qed.

(** With the log off a bounded periodic task runs all its rounds, also
    when executions raise an [Exception]. *)
Lemma bounded_run_swallowed (E : env) (I : scheduler -> Prop) (task_name : string)
    (l : loc) (args : list value) (n : Z) (delay jitter interval : value)
    (s : scheduler) (fuel : nat) :
  stable E I ->
  (forall s', I s' -> bounded_task task_name l (VInt n) delay jitter interval s') ->
  (forall s', I s' -> logging task_name l false s') ->
  I s ->
  (forall k a s' e, (body E k a s').1 = Some e -> is_Exception e = true) ->
  accepted delay = true ->
  (forall k, gap_ok jitter interval (random E k)) ->
  (Z.to_nat n <= fuel)%nat ->
  exists w,
    periodic_wrapper E task_name args fuel (start s) = (Returned tt, w) /\
    executions (w_trace w) = Z.to_nat n /\
    actions (w_trace w) = ESleep delay :: rounds E args jitter interval 0 (Z.to_nat n).
Proof.
  intros HE HIb Hoff HI Hexc Hdelay Hgap Hfuel.
  rewrite <- (periodic_swallowing E task_name l args I HE Hoff fuel (start s) HI).
  rewrite <- rounds_swallowing.
  apply (bounded_run (swallowing E) I task_name l args n delay jitter interval s fuel);
    try done.
  - by apply swallowing_stable.
  - by apply swallowing_returns.
Qed.

Section OneShot.
Context (E : env) (I : scheduler -> Prop) (HE : stable E I).
Context (task_name : string) (l : loc) (args : list value) (delay jitter : value).
Context (HIo : forall s, I s -> oneshot_task task_name l delay jitter s).

Lemma oneshot_wait (w : world) :
  gap_ok jitter delay (random E (w_draws w)) ->
  I (w_sched w) ->
  exists w1,
    oneshot_wrapper E task_name args w = execute E task_name l args w1 /\
    I (w_sched w1) /\
    leads w w1 (gap_events jitter delay (random E (w_draws w))) 0 1.
Proof.
  intros Hgap HI.
  destruct (lookup_task_step E I HE task_name l w) as (w1 & H1 & HI1 & L1);
    [intros s Hs; by eapply task_at_lookup, HIo | done |].
  assert (Hd : w_draws w1 = w_draws w) by (unfold leads in *; lia).
  destruct (jittered_sleep_step E I HE l "delay" jitter delay w1)
    as (w2 & H2 & HI2 & L2); [| |by rewrite Hd|done|].
  { intros s Hs. by apply HIo, task_at_record in Hs as (_ & Hj). }
  { intros s Hs. by apply HIo, task_at_record in Hs as (Hd' & _). }
  rewrite Hd in L2.
  exists w2. split; [|split; [done|chain_leads]].
  unfold oneshot_wrapper.
  by rewrite (wbind_returned _ _ _ _ _ H1), (wbind_returned _ _ _ _ _ H2).
Qed.

(** With the log on, an [Exception] of the body leaves the one-shot
    wrapper as a wrapped runtime error. *)
Lemma oneshot_raises (e : exn) (w : world) :
  (forall s, I s -> logging task_name l true s) ->
  gap_ok jitter delay (random E (w_draws w)) ->
  (forall s, (body E (w_calls w) args s).1 = Some e) ->
  is_Exception e = true ->
  I (w_sched w) ->
  exists w',
    oneshot_wrapper E task_name args w = (Raised (TaskError task_name e), w') /\
    leads w w' (gap_events jitter delay (random E (w_draws w)) ++ [ECall args]) 1 1.
Proof.
  intros Hon Hgap Hbody Hexc HI.
  destruct (oneshot_wait w Hgap HI) as (w1 & -> & HI1 & L1).
  assert (Hc : w_calls w1 = w_calls w) by (unfold leads in *; lia).
  destruct (execute_raises E task_name l args I e w1 HE Hon) as (w2 & H2 & HI2 & L2);
    [by rewrite Hc | done | done |].
  exists w2. split; [done|]. chain_leads.
Qed.

(** The body returns: the one-shot wrapper waits, executes once, returns. *)
Lemma oneshot_returns (w : world) :
  (forall s, I s -> is_Some (deref s l !! "log")) ->
  gap_ok jitter delay (random E (w_draws w)) ->
  (forall s, (body E (w_calls w) args s).1 = None) ->
  I (w_sched w) ->
  exists w',
    oneshot_wrapper E task_name args w = (Returned tt, w') /\
    leads w w' (gap_events jitter delay (random E (w_draws w)) ++ [ECall args]) 1 1.
Proof.
  intros Hlog Hgap Hbody HI.
  destruct (oneshot_wait w Hgap HI) as (w1 & -> & HI1 & L1).
  assert (Hc : w_calls w1 = w_calls w) by (unfold leads in *; lia).
  destruct (execute_returns E I HE task_name l args w1 Hlog) as (w2 & H2 & HI2 & L2);
    [by rewrite Hc | done |].
  exists w2. split; [done|]. chain_leads.
Qed.
End OneShot.

(** With the log off the one-shot wrapper returns, also when the body
    raises an [Exception]. *)
Lemma oneshot_swallowed (E : env) (I : scheduler -> Prop) (task_name : string) (l : loc)
    (args : list value) (delay jitter : value) (w : world) :
  stable E I ->
  (forall s, I s -> oneshot_task task_name l delay jitter s) ->
  (forall s, I s -> logging task_name l false s) ->
  gap_ok jitter delay (random E (w_draws w)) ->
  (forall k a s e, (body E k a s).1 = Some e -> is_Exception e = true) ->
  I (w_sched w) ->
  exists w',
    oneshot_wrapper E task_name args w = (Returned tt, w') /\
    leads w w' (gap_events jitter delay (random E (w_draws w)) ++ [ECall args]) 1 1.
Proof.
  intros HE HIo Hoff Hgap Hexc HI.
  rewrite <- (oneshot_swallowing E task_name l args I HE Hoff w HI).
  apply (oneshot_returns (swallowing E) I (swallowing_stable E I HE)
           task_name l args delay jitter HIo w); try done.
  - intros s Hs. apply Hoff, task_at_record in Hs as (lg & Hlg & _). by exists lg.
  - intros s. by apply swallowing_returns.
Qed.


(** An exception that is no [Exception] (a [SystemExit], say) is not
    intercepted by [except Exception]: it leaves [execute] unwrapped,
    whatever the log field. *)
Lemma execute_passes (E : env) (I : scheduler -> Prop) (task_name : string) (l : loc)
    (args : list value) (e : exn) (w : world) :
  stable E I ->
  (forall s, I s -> is_Some (deref s l !! "log")) ->
  (forall s, (body E (w_calls w) args s).1 = Some e) ->
  is_Exception e = false ->
  I (w_sched w) ->
  exists w', execute E task_name l args w = (Raised e, w') /\ leads w w' [ECall args] 1 0.
Proof.
  intros HE Hlog Hbody Hexc HI.
  assert (Hlog' : forall s, I s -> exists v, deref s l !! "log" = Some v /\ True).
  { intros s Hs. destruct (Hlog s Hs) as [v Hv]. by exists v. }
  destruct (get_item_step E I HE l "log" _ w Hlog' HI) as (lg1 & w1 & H1 & _ & HI1 & L1).
  destruct (flag_print_step I (truthy lg1) (MsgExecuting task_name) w1 HI1)
    as (w2 & H2 & HI2 & L2).
  destruct (call_step E I HE args w2 HI2) as (w3 & H3 & HI3 & L3).
  assert (Hc : w_calls w2 = w_calls w) by (unfold leads in *; lia).
  rewrite Hc, Hbody in H3.
  exists w3. split; [|chain_leads].
  unfold execute, try_except.
  by rewrite (wbind_returned _ _ _ _ _ H1), (wbind_returned _ _ _ _ _ H2),
    (wbind_raised _ _ _ _ _ H3), Hexc.
Qed.

Lemma reachable_task_at (ops : list operation) (name : string) (l : loc)
    (Q : gmap string value -> Prop) :
  tasks (apply_operations init ops) !! name = Some l ->
  Q (deref (apply_operations init ops) l) ->
  task_at name l Q (apply_operations init ops).
Proof.
  intros Hl HQ. destruct (proj1 (reachable_heap_ok ops) _ _ Hl) as [r Hr].
  split; [exact Hl|]. exists r. split; [exact Hr|].
  unfold deref in HQ. by rewrite Hr in HQ.
Qed.

Lemma loud_task_job :
  logging "job" 1%positive true loud_task /\ task_at "job" 1%positive running loud_task.
Proof.
  split; apply reachable_task_at; try (vm_compute; reflexivity).
  - exists (VBool true). split; vm_compute; reflexivity.
  - exists (VStr "active"). split; [vm_compute; reflexivity|]. split; discriminate.
Qed.

Lemma two_tasks_quiet_log : logging "job" 1%positive false two_tasks.
Proof.
  apply reachable_task_at; [vm_compute; reflexivity|].
  exists (VBool false). split; vm_compute; reflexivity.
Qed.

Lemma failing_stable (I : scheduler -> Prop) : stable failing I.
Proof. by split. Qed.


(** ** Run targets *)

Lemma expand_targets_app (s : scheduler) (t1 t2 : list value) :
  _expand_targets s (t1 ++ t2) =
    result_bind (_expand_targets s t1) (fun n1 =>
    result_bind (_expand_targets s t2) (fun n2 => Ok (n1 ++ n2))).
Proof.
  induction t1 as [|t t1 IH]; simpl.
  - by destruct (_expand_targets s t2).
  - rewrite IH.
    destruct (match t with
              | VStr name =>
                  match groups s !! t with
                  | Some members => Ok (VStr <$> members)
                  | None => Raise (GroupNotFound name)
                  end
              | VFunc c => Ok [VStr (fn_name c)]
              | _ => Ok [t]
              end) as [names|e]; simpl; [|done].
    destruct (_expand_targets s t1) as [n1|e]; simpl; [|done].
    destruct (_expand_targets s t2) as [n2|e]; simpl; [|done].
    by rewrite app_assoc.
Qed.




(** * Further properties *)

(** ** The states the facade can reach *)

Lemma sound_init : sound init.
Proof.
  split; [|split; [|split; [|split]]].
  - apply consistent_init.
  - intros name r. unfold task_record, init. simpl. by rewrite lookup_empty.
  - split.
    + intros name g _. unfold group_of, task_record, init. simpl. by rewrite lookup_empty.
    + intros name g. unfold members, init. simpl. rewrite lookup_empty. simpl.
      by intros ?%elem_of_nil.
  - apply consistent_init.
  - apply consistent_init.
Qed.

Lemma periodic_record_dom (func : callable) (interval delay jitter limit log group : value) :
  dom (periodic_record func interval delay jitter limit log group) = periodic_fields.
Proof. unfold periodic_record, periodic_fields. rewrite !dom_insert_L, dom_empty_L. set_solver. Qed.

(** Binding a name to a new dict object, whether the name was bound or not. *)
Lemma bind_heap_ok (s : scheduler) (name : string) (r : gmap string value)
    (G : gmap value (list string)) :
  heap_ok s ->
  heap_ok {| tasks := <[name := fresh (dom (objs s))]> (tasks s);
             objs := <[fresh (dom (objs s)) := r]> (objs s);
             groups := G |}.
Proof.
  intros [Hval Hinj].
  assert (Hfresh : forall n l, tasks s !! n = Some l -> l <> fresh (dom (objs s))).
  { intros n l Hl ->. apply Hval in Hl. apply elem_of_dom in Hl.
    by apply is_fresh in Hl. }
  split; simpl.
  - intros n l. destruct (decide (n = name)) as [->|Hne].
    + rewrite lookup_insert_eq. intros [= <-]. by rewrite lookup_insert_eq.
    + rewrite lookup_insert_ne by done. intros Hl.
      rewrite lookup_insert_ne by (symmetry; by eapply Hfresh). by eapply Hval.
  - intros n1 n2 l.
    destruct (decide (n1 = name)) as [->|H1], (decide (n2 = name)) as [->|H2];
      rewrite ?lookup_insert_eq, ?lookup_insert_ne by done; try done.
    + intros [= <-] Hl. by apply Hfresh in Hl.
    + intros Hl [= <-]. by apply Hfresh in Hl.
    + apply Hinj.
Qed.

Lemma group_of_record (s : scheduler) (name : string) (r : gmap string value) :
  task_record s name = Some r -> group_of s name = r !! "group".
Proof. intros H. unfold group_of. by rewrite H. Qed.

Lemma group_of_unregistered (s : scheduler) (name : string) :
  tasks s !! name = None -> group_of s name = None.
Proof. intros H. unfold group_of, task_record. by rewrite H. Qed.

Lemma every_decorator_sound (interval delay jitter limit log group : value)
    (func : callable) (s : scheduler) :
  sound s ->
  sound (every_decorator interval delay jitter limit log group func s).2.
Proof.
  intros (Hok & Hsh & [Hcov Hlist] & Hnd & Hne).
  destruct (tasks s !! fn_name func) as [l|] eqn:Hl.
  { unfold every_decorator, mbind, get_state, mraise. rewrite Hl. simpl.
    exact (conj Hok (conj Hsh (conj (conj Hcov Hlist) (conj Hnd Hne)))). }
  rewrite (every_decorator_run _ _ _ _ _ _ _ _ Hl). simpl.
  set (name := fn_name func) in *.
  set (r := periodic_record func interval delay jitter limit log group).
  assert (Hfree : forall g y, y ∈ members s g -> y <> name).
  { intros g y Hy ->. apply Hlist in Hy as (_ & [l' Hl'] & _). congruence. }
  assert (Hmem : forall g y,
    y ∈ default [] ((if truthy group
                     then <[group := members s group ++ [name]]> (groups s)
                     else groups s) !! g) <->
    (y <> name /\ y ∈ members s g) \/ (y = name /\ g = group /\ truthy group = true)).
  { intros g y. specialize (Hfree g y).
    destruct (truthy group); [|unfold members in *; naive_solver].
    destruct (decide (g = group)) as [->|Hg].
    - rewrite lookup_insert_eq. simpl. rewrite elem_of_app, list_elem_of_singleton.
      naive_solver.
    - rewrite lookup_insert_ne by done. unfold members in *. naive_solver. }
  assert (Hgo : forall n, group_of (set_groups
       (if truthy group then <[group := members s group ++ [name]]> (groups s) else groups s)
       {| tasks := <[name := fresh (dom (objs s))]> (tasks s);
          objs := <[fresh (dom (objs s)) := r]> (objs s);
          groups := groups s |}) n = if decide (n = name) then Some group else group_of s n).
  { intros n. unfold group_of, set_groups. simpl.
    rewrite (alloc_task_record s name n r _ Hok).
    destruct (decide (n = name)); [|done]. simpl. unfold r, periodic_record.
    by simplify_map_eq. }
  split; [|split; [|split; [|split]]].
  - by apply alloc_heap_ok.
  - intros n r'. unfold set_groups. simpl. rewrite (alloc_task_record s name n r _ Hok).
    destruct (decide (n = name)).
    + intros [= <-]. right. apply periodic_record_dom.
    + apply Hsh.
  - split.
    + intros n g Htr. rewrite Hgo. unfold members. simpl. rewrite Hmem.
      destruct (decide (n = name)) as [->|Hn].
      * intros [= <-]. by right.
      * intros Hg. left. split; [done|]. by apply Hcov.
    + intros n g. unfold members at 1. simpl. rewrite Hmem, Hgo.
      intros [[Hn Hy]|(-> & -> & Htr)].
      * rewrite decide_False by done. destruct (Hlist _ _ Hy) as (Htr & Hreg & Hg).
        split; [done|]. split; [|done]. by rewrite lookup_insert_ne.
      * rewrite decide_True by done. split; [done|]. split; [|by left].
        rewrite lookup_insert_eq. by eexists.
  - intros g. unfold members. simpl.
    destruct (truthy group); [|apply Hnd].
    destruct (decide (g = group)) as [->|Hg].
    + rewrite lookup_insert_eq. simpl. apply NoDup_app. split; [apply Hnd|].
      split; [|apply NoDup_singleton].
      intros y Hy ->%list_elem_of_singleton. by eapply Hfree.
    + rewrite lookup_insert_ne by done. apply Hnd.
  - intros g lst. simpl. destruct (truthy group); [|apply Hne].
    destruct (decide (g = group)) as [->|Hg].
    + rewrite lookup_insert_eq. intros [= <-]. by destruct (members s group).
    + rewrite lookup_insert_ne by done. apply Hne.
Qed.

Lemma after_decorator_sound (delay jitter log : value) (func : callable) (s : scheduler) :
  sound s -> sound (after_decorator delay jitter log func s).2.
Proof.
  intros (Hok & Hsh & [Hcov Hlist] & Hnd & Hne).
  rewrite after_decorator_state. simpl.
  set (name := fn_name func).
  set (r := oneshot_record func delay jitter log).
  assert (Hrec : forall n,
    task_record {| tasks := <[name := fresh (dom (objs s))]> (tasks s);
                   objs := <[fresh (dom (objs s)) := r]> (objs s);
                   groups := groups s |} n =
    if decide (n = name) then Some r else task_record s n).
  { intros n. apply (alloc_task_record s name n r _ Hok). }
  assert (Hgo : forall n,
    group_of {| tasks := <[name := fresh (dom (objs s))]> (tasks s);
                objs := <[fresh (dom (objs s)) := r]> (objs s);
                groups := groups s |} n =
    if decide (n = name) then None else group_of s n).
  { intros n. unfold group_of. rewrite Hrec. by destruct (decide (n = name)). }
  split; [|split; [|split; [|split]]].
  - by apply bind_heap_ok.
  - intros n r'. rewrite Hrec. destruct (decide (n = name)).
    + intros [= <-]. left. apply oneshot_record_dom.
    + apply Hsh.
  - split.
    + intros n g Htr. rewrite Hgo. destruct (decide (n = name)); [done|].
      by apply Hcov.
    + intros n g Hin. change (n ∈ members s g) in Hin.
      destruct (Hlist _ _ Hin) as (Htr & Hreg & Hg). split; [done|]. split.
      * simpl. destruct (decide (n = name)) as [->|Hn].
        -- rewrite lookup_insert_eq. by eexists.
        -- by rewrite lookup_insert_ne.
      * rewrite Hgo. destruct (decide (n = name)); [by right|done].
  - done.
  - done.
Qed.

(** Storing a field the record has, other than the group. *)
Lemma set_field_sound (s : scheduler) (name : string) (l : loc) (key : string)
    (v : value) :
  sound s -> tasks s !! name = Some l -> is_Some (deref s l !! key) -> key <> "group" ->
  sound (set_objs (<[l := <[key := v]> (deref s l)]> (objs s)) s).
Proof.
  intros (Hok & Hsh & [Hcov Hlist] & Hnd & Hne) Hl Hkey Hng. unfold set_objs.
  assert (Hgo : forall n,
    group_of {| tasks := tasks s; objs := <[l := <[key := v]> (deref s l)]> (objs s);
                groups := groups s |} n = group_of s n).
  { intros n. rewrite (update_group_of s name n l _ _ Hok Hl).
    destruct (decide (n = name)) as [->|Hn]; [|done].
    rewrite lookup_insert_ne by done.
    unfold group_of, task_record, deref. rewrite Hl. simpl.
    destruct Hok as [Hval _]. by destruct (Hval _ _ Hl) as [r ->]. }
  split; [by eapply update_heap_ok|]. split; [|split; [|done]].
  - intros n r'. destruct (decide (n = name)) as [->|Hn].
    + change {| tasks := tasks s; objs := <[l := <[key := v]> (deref s l)]> (objs s);
                groups := groups s |}
        with (set_objs (<[l := <[key := v]> (deref s l)]> (objs s)) s).
      rewrite (task_record_same s name l _ Hl). intros [= <-].
      destruct (proj1 Hok _ _ Hl) as [r Hr].
      assert (Hd : deref s l = r) by (unfold deref; by rewrite Hr).
      rewrite Hd in *. unfold record_shape. rewrite dom_insert_lookup_L by done.
      apply (Hsh name). unfold task_record. rewrite Hl. simpl. exact Hr.
    + change {| tasks := tasks s; objs := <[l := <[key := v]> (deref s l)]> (objs s);
                groups := groups s |}
        with (set_objs (<[l := <[key := v]> (deref s l)]> (objs s)) s).
      rewrite (task_record_other s name n l _ Hok Hl Hn). apply Hsh.
  - split.
    + intros n g Htr. rewrite Hgo. by apply Hcov.
    + intros n g Hin. rewrite Hgo. by apply Hlist.
Qed.

Lemma set_state_sound (func : callable) (state : value) (s : scheduler) :
  sound s -> sound (_set_state func state s).2.
Proof.
  intros Hc. rewrite set_state_run.
  destruct (tasks s !! fn_name func) as [l|] eqn:Hl; [|done]. simpl.
  apply (set_field_sound s (fn_name func)); [done|done| |done].
  destruct Hc as (Hok & Hsh & _).
  destruct (proj1 Hok _ _ Hl) as [r Hr].
  assert (Hd : deref s l = r) by (unfold deref; by rewrite Hr). rewrite Hd.
  apply elem_of_dom.
  assert (Hrec : task_record s (fn_name func) = Some r).
  { unfold task_record. rewrite Hl. exact Hr. }
  destruct (Hsh _ _ Hrec) as [-> | ->]; unfold oneshot_fields, periodic_fields; set_solver.
Qed.

(** Moving a task to the group [v], once its name has left the index. *)
Lemma regroup_sound (s : scheduler) (name : string) (l : loc)
    (r : gmap string value) (v : value) (G1 : gmap value (list string)) :
  sound s -> tasks s !! name = Some l -> objs s !! l = Some r ->
  is_Some (r !! "group") ->
  (forall g y, y ∈ default [] (G1 !! g) <-> y <> name /\ y ∈ members s g) ->
  (forall g, NoDup (default [] (G1 !! g))) ->
  (forall g lst, G1 !! g = Some lst -> lst <> []) ->
  sound {| tasks := tasks s;
           objs := <[l := <["group" := v]> r]> (objs s);
           groups := if truthy v
                     then <[v := default [] (G1 !! v) ++ [name]]> G1
                     else G1 |}.
Proof.
  intros (Hok & Hsh & [Hcov Hlist] & Hnd & Hne) Hl Hr Hgrp Hmem1 Hnd1 Hne1.
  set (s' := {| tasks := tasks s; objs := <[l := <["group" := v]> r]> (objs s);
                groups := if truthy v then <[v := default [] (G1 !! v) ++ [name]]> G1
                          else G1 |}).
  assert (Hgo : forall n, group_of s' n = if decide (n = name) then Some v else group_of s n).
  { intros n. unfold s'. rewrite (update_group_of s name n l _ _ Hok Hl).
    destruct (decide (n = name)); [|done]. by rewrite lookup_insert_eq. }
  assert (Hmem : forall g y, y ∈ members s' g <->
            (y <> name /\ y ∈ members s g) \/ (y = name /\ g = v /\ truthy v = true)).
  { intros g y. unfold members at 1, s'. simpl. destruct (truthy v).
    - destruct (decide (g = v)) as [->|Hg].
      + rewrite lookup_insert_eq. simpl.
        rewrite elem_of_app, list_elem_of_singleton, Hmem1. naive_solver.
      + rewrite lookup_insert_ne by done. rewrite Hmem1. naive_solver.
    - rewrite Hmem1. naive_solver. }
  split; [by eapply update_heap_ok|]. split; [|split; [|split]].
  - intros n r'. unfold s'.
    change {| tasks := tasks s; objs := <[l := <["group" := v]> r]> (objs s);
              groups := ?G |}
      with (set_groups G (set_objs (<[l := <["group" := v]> r]> (objs s)) s)).
    unfold task_record. simpl.
    change (tasks s !! n ≫= (fun l0 => <[l := <["group" := v]> r]> (objs s) !! l0))
      with (task_record (set_objs (<[l := <["group" := v]> r]> (objs s)) s) n).
    destruct (decide (n = name)) as [->|Hn].
    + rewrite (task_record_same s name l _ Hl). intros [= <-].
      unfold record_shape. rewrite dom_insert_lookup_L by done.
      apply (Hsh name). unfold task_record. rewrite Hl. simpl. exact Hr.
    + rewrite (task_record_other s name n l _ Hok Hl Hn). apply Hsh.
  - split.
    + intros n g Htr. rewrite Hgo, Hmem. destruct (decide (n = name)) as [->|Hn].
      * intros [= <-]. by right.
      * intros Hg. left. split; [done|]. by apply Hcov.
    + intros n g. rewrite Hmem, Hgo. intros [[Hn Hy]|(-> & -> & Htr)].
      * rewrite decide_False by done. by apply Hlist.
      * rewrite decide_True by done. split; [done|]. split; [by eexists|by left].
  - intros g. unfold members, s'. simpl. destruct (truthy v); [|apply Hnd1].
    destruct (decide (g = v)) as [->|Hg].
    + rewrite lookup_insert_eq. simpl. apply NoDup_app. split; [apply Hnd1|].
      split; [|apply NoDup_singleton].
      intros y [Hy _]%Hmem1 ->%list_elem_of_singleton. by apply Hy.
    + rewrite lookup_insert_ne by done. apply Hnd1.
  - intros g lst. unfold s'. simpl. destruct (truthy v); [|apply Hne1].
    destruct (decide (g = v)) as [->|Hg].
    + rewrite lookup_insert_eq. intros [= <-]. by destruct (default [] (G1 !! v)).
    + rewrite lookup_insert_ne by done. apply Hne1.
Qed.

(** The round of the loop of [edit] for the key ["group"], on a record
    that has the key: nothing raises. *)
Lemma edit_group_sound (name : string) (l : loc) (r : gmap string value)
    (old v : value) (s : scheduler) :
  sound s -> tasks s !! name = Some l -> objs s !! l = Some r ->
  r !! "group" = Some old ->
  exists G1,
    edit_item name l ("group", v) s =
      (Ok tt,
       {| tasks := tasks s;
          objs := <[l := <["group" := v]> r]> (objs s);
          groups := if truthy v
                    then <[v := default [] (G1 !! v) ++ [name]]> G1
                    else G1 |}) /\
    (forall g y, y ∈ default [] (G1 !! g) <-> y <> name /\ y ∈ members s g) /\
    (forall g, NoDup (default [] (G1 !! g))) /\
    (forall g lst, G1 !! g = Some lst -> lst <> []).
Proof.
  intros (Hok & Hsh & [Hcov Hlist] & Hnd & Hne) Hl Hr Hold.
  assert (Hderef : deref s l = r) by (unfold deref; by rewrite Hr).
  rewrite edit_item_run, Hderef, Hold. simpl default.
  change (String.eqb "group" "group") with true.
  change (timing_prop "group") with false. cbv iota.
  assert (Hgo : group_of s name = Some old).
  { unfold group_of, task_record. rewrite Hl. simpl. by rewrite Hr. }
  assert (Hleft : exists G1,
    (if truthy old then group_leave old name else mret tt) s = (Ok tt, set_groups G1 s) /\
    (forall g y, y ∈ default [] (G1 !! g) <-> y <> name /\ y ∈ members s g) /\
    (forall g, NoDup (default [] (G1 !! g))) /\
    (forall g lst, G1 !! g = Some lst -> lst <> [])).
  { destruct (truthy old) eqn:Htr.
    - assert (Hin : name ∈ members s old) by (by apply Hcov).
      destruct (group_leave_spec old name s Hnd Hne Hin) as (G1 & Hrun & Hm & Hn1 & Hn2).
      exists G1. split; [done|]. split; [|done].
      intros g y. rewrite Hm. split; [|naive_solver].
      intros [Hy Hnot]. split; [|done]. intros ->.
      apply Hnot. split; [|done]. apply Hlist in Hy as (_ & _ & [Hy|Hy]); congruence.
    - exists (groups s). split; [by destruct s|]. split; [|done].
      intros g y. change (default [] (groups s !! g)) with (members s g).
      split; [|naive_solver]. intros Hy. split; [|done]. intros ->.
      apply Hlist in Hy as (Ht & _ & [Hy|Hy]); congruence. }
  destruct Hleft as (G1 & Hrun & Hm & Hn1 & Hn2).
  exists G1. split; [|done].
  unfold mbind. rewrite Hrun.
  assert (Hjoin : (if truthy v then group_join v name else mret tt) (set_groups G1 s) =
            (Ok tt, set_groups (if truthy v
                                then <[v := default [] (G1 !! v) ++ [name]]> G1
                                else G1) s)).
  { destruct (truthy v); [|done]. by rewrite group_join_run. }
  rewrite Hjoin, set_item_run. unfold deref. simpl. by rewrite Hr.
Qed.

Lemma edit_item_sound (name : string) (l : loc) (prop : string) (v : value)
    (s : scheduler) :
  sound s -> tasks s !! name = Some l ->
  sound (edit_item name l (prop, v) s).2 /\
  tasks (edit_item name l (prop, v) s).2 = tasks s /\
  edit_item_ends name prop v s (edit_item name l (prop, v) s).
Proof.
  intros Hc Hl.
  pose proof Hc as (Hok & Hsh & Hidx & Hnd & Hne).
  destruct (proj1 Hok _ _ Hl) as [r Hr].
  assert (Hderef : deref s l = r) by (unfold deref; by rewrite Hr).
  destruct (String.eqb prop "group") eqn:Hgroup.
  - apply String.eqb_eq in Hgroup as ->.
    destruct (r !! "group") as [old|] eqn:Hold.
    + destruct (edit_group_sound name l r old v s Hc Hl Hr Hold) as (G1 & -> & Hm & Hn1 & Hn2).
      simpl. split; [|split; [done|by left]].
      by apply (regroup_sound s name l r v G1).
    + rewrite edit_item_run, Hderef, Hold. split; [done|]. split; [done|]. right. by left.
  - rewrite edit_item_run, Hderef, Hgroup.
    destruct (r !! prop) as [old|] eqn:Hprop; [|split; [done|split; [done|right; by left]]].
    apply String.eqb_neq in Hgroup. unfold mbind, mret, lift.
    assert (Hset : forall v', sound (set_objs (<[l := <[prop := v']> (deref s l)]> (objs s)) s)).
    { intros v'. apply (set_field_sound s name); [done|done| |done]. rewrite Hderef, Hprop. by eexists. }
    destruct (timing_prop prop) eqn:Htim.
    + destruct (parse_time_value v) as [x|e] eqn:Hparse.
      * rewrite set_item_run. simpl. split; [apply Hset|]. split; [done|by left].
      * split; [done|]. split; [done|]. right. right. split; [done|]. by exists e.
    + rewrite set_item_run. simpl. split; [apply Hset|]. split; [done|by left].
Qed.

Lemma for_each_edit_sound (name : string) (l : loc) (updates : list (string * value))
    (s : scheduler) :
  sound s -> tasks s !! name = Some l ->
  sound (for_each (edit_item name l) updates s).2 /\
  tasks (for_each (edit_item name l) updates s).2 = tasks s.
Proof.
  revert s. induction updates as [|[prop v] updates IH]; intros s Hc Hl; [done|].
  change (for_each (edit_item name l) ((prop, v) :: updates) s)
    with (mbind (edit_item name l (prop, v))
            (fun _ => for_each (edit_item name l) updates) s).
  unfold mbind.
  destruct (edit_item_sound name l prop v s Hc Hl) as (Hc' & Ht & _).
  destruct (edit_item name l (prop, v) s) as [[[]|e] s']; simpl in *; [|by split].
  rewrite <- Ht. apply IH; [done|]. by rewrite Ht.
Qed.

Lemma edit_sound (func : callable) (updates : list (string * value)) (s : scheduler) :
  sound s -> sound (edit func updates s).2.
Proof.
  intros Hc. rewrite edit_run.
  destruct (tasks s !! fn_name func) as [l|] eqn:Hl; [|done].
  by apply for_each_edit_sound.
Qed.

Lemma apply_operation_sound (s : scheduler) (o : operation) :
  sound s -> sound (apply_operation s o).
Proof.
  intros Hc. destruct o; simpl.
  - destruct (every _ _ _ _ _ _) as [dec|] eqn:Hev; [|done].
    apply every_returns_decorator in Hev as (i & d & j & ->).
    by apply every_decorator_sound.
  - by apply edit_sound.
  - by apply set_state_sound.
  - by apply set_state_sound.
  - by apply set_state_sound.
Qed.

Lemma api_step_sound (s : scheduler) (c : api_call) :
  sound s -> sound (api_step s c).
Proof.
  intros Hc. destruct c as [o|delay jitter log func]; simpl.
  - by apply apply_operation_sound.
  - destruct (after delay jitter log) as [dec|] eqn:Haf; [|done].
    apply after_returns_decorator in Haf as (d & j & ->).
    by apply after_decorator_sound.
Qed.

Lemma api_steps_sound (calls : list api_call) (s : scheduler) :
  sound s -> sound (foldl api_step s calls).
Proof.
  revert s. induction calls as [|c calls IH]; intros s Hc; [done|].
  simpl. apply IH. by apply api_step_sound.
Qed.

Lemma api_run_sound (calls : list api_call) : sound (api_run calls).
Proof. apply api_steps_sound, sound_init. Qed.

(** lemmas *)
Lemma shape_has_base (r : gmap string value) (key : string) :
  record_shape r -> key ∈ oneshot_fields -> is_Some (r !! key).
Proof.
  intros [H|H] Hkey; apply elem_of_dom; rewrite H; [done|].
  unfold oneshot_fields, periodic_fields in *. set_solver.
Qed.

Lemma sound_record (s : scheduler) (name : string) :
  sound s -> is_Some (tasks s !! name) ->
  exists r, task_record s name = Some r /\ record_shape r.
Proof.
  intros (Hok & Hsh & _) [l Hl]. destruct (proj1 Hok _ _ Hl) as [r Hr].
  assert (Hrec : task_record s name = Some r) by (unfold task_record; by rewrite Hl).
  exists r. split; [done|]. by apply (Hsh name).
Qed.

Lemma run_tasks_registered (s : scheduler) (args : option (gmap string pyargs))
    (names : list string) :
  sound s ->
  (forall name, name ∈ names -> exists a, task_args args name = ArgSeq a) ->
  (forall name, name ∈ names -> is_Some (tasks s !! name)) ->
  exists launches,
    run_tasks s args (VStr <$> names) = (launches, Ok tt) /\
    Forall2 (started_for s args) names launches.
Proof.
  intros Hc. induction names as [|name names IH]; intros Hargs Hreg.
  - exists []. split; [done|]. constructor.
  - destruct IH as (launches & Hrun & Hall).
    { intros n Hn. apply Hargs. by right. }
    { intros n Hn. apply Hreg. by right. }
    assert (Hn : is_Some (tasks s !! name)) by (apply Hreg; by left).
    destruct (sound_record s name Hc Hn) as (r & Hrec & Hshape).
    destruct Hn as [l Hl].
    assert (Hr : objs s !! l = Some r).
    { unfold task_record in Hrec. by rewrite Hl in Hrec. }
    destruct (shape_has_base r "function" Hshape) as [f Hf].
    { unfold oneshot_fields. set_solver. }
    destruct (Hargs name) as [a Ha]; [by left|].
    exists (Launch f a :: launches). split.
    + assert (Hd : deref s l = r) by (unfold deref; by rewrite Hr).
      rewrite fmap_cons. cbn [run_tasks]. by rewrite Hl, Ha, Hd, Hf, Hrun.
    + constructor; [|done]. split; [|done]. rewrite Hrec. simpl. exact Hf.
Qed.

Lemma for_each_edit_ends (name : string) (l : loc) (updates : list (string * value))
    (s : scheduler) (e : exn) :
  sound s -> tasks s !! name = Some l ->
  (for_each (edit_item name l) updates s).1 = Raise e ->
  exists prop v,
    (prop, v) ∈ updates /\
    (e = NoSuchProperty prop name \/
     (timing_prop prop = true /\ parse_time_value v = Raise e)).
Proof.
  revert s. induction updates as [|[prop v] updates IH]; intros s Hc Hl; [done|].
  change (for_each (edit_item name l) ((prop, v) :: updates) s)
    with (mbind (edit_item name l (prop, v))
            (fun _ => for_each (edit_item name l) updates) s).
  unfold mbind.
  destruct (edit_item_sound name l prop v s Hc Hl) as (Hc' & Ht & Hend).
  destruct (edit_item name l (prop, v) s) as [[[]|e'] s'] eqn:Hrun; simpl in *.
  - intros He. destruct (IH s' Hc') as (p & v' & Hin & Hcase); [by rewrite Ht|done|].
    exists p, v'. split; [by right|done].
  - intros [= ->]. exists prop, v. split; [by left|].
    destruct Hend as [H|[H|(Htim & e' & Hparse & H)]]; [done| |].
    + left. congruence.
    + right. split; [done|]. congruence.
Qed.

Lemma mbind_tasks {A B} (m : M A) (k : A -> M B) :
  (forall s, tasks (m s).2 = tasks s) ->
  (forall a s, tasks (k a s).2 = tasks s) ->
  forall s, tasks (mbind m k s).2 = tasks s.
Proof.
  intros Hm Hk s. unfold mbind. specialize (Hm s).
  destruct (m s) as [[a|e] s']; simpl in *; [|done]. by rewrite Hk.
Qed.

Lemma group_leave_tasks (old : value) (name : string) (s : scheduler) :
  tasks (group_leave old name s).2 = tasks s.
Proof.
  unfold group_leave, mbind, get_state, mraise, modify.
  destruct (groups s !! old) as [lst|]; [|done].
  destruct (list_remove name lst) as [[|y lst']|]; done.
Qed.

Lemma edit_item_tasks (name : string) (l : loc) (upd : string * value) (s : scheduler) :
  tasks (edit_item name l upd s).2 = tasks s.
Proof.
  destruct upd as [prop v]. rewrite edit_item_run.
  destruct (deref s l !! prop); [|done].
  apply mbind_tasks.
  - destruct (String.eqb prop "group"); [|done].
    apply mbind_tasks.
    + destruct (truthy _); [apply group_leave_tasks|done].
    + intros _ s0. destruct (truthy v); [|done]. by rewrite group_join_run.
  - intros _ s0. destruct (timing_prop prop); [|done].
    apply mbind_tasks; [|done]. intros s1. unfold lift. by destruct (parse_time_value v).
Qed.

Lemma for_each_edit_tasks (name : string) (l : loc) (updates : list (string * value))
    (s : scheduler) :
  tasks (for_each (edit_item name l) updates s).2 = tasks s.
Proof.
  revert s. induction updates as [|upd updates IH]; intros s; [done|].
  simpl. unfold mbind. pose proof (edit_item_tasks name l upd s) as Ht.
  destruct (edit_item name l upd s) as [[[]|e] s']; simpl in *; [|done].
  by rewrite IH.
Qed.

Lemma edit_tasks (func : callable) (updates : list (string * value)) (s : scheduler) :
  tasks (edit func updates s).2 = tasks s.
Proof.
  rewrite edit_run. destruct (tasks s !! fn_name func); [|done].
  apply for_each_edit_tasks.
Qed.

Lemma set_state_tasks (func : callable) (state : value) (s : scheduler) :
  tasks (_set_state func state s).2 = tasks s.
Proof. rewrite set_state_run. by destruct (tasks s !! fn_name func). Qed.

(** ** Registering and editing *)



Lemma for_each_app {A} (f : A -> M unit) (l1 l2 : list A) (s : scheduler) :
  for_each f (l1 ++ l2) s =
    match for_each f l1 s with
    | (Ok _, s1) => for_each f l2 s1
    | (Raise e, s1) => (Raise e, s1)
    end.
Proof.
  revert s. induction l1 as [|a l1 IH]; intros s; [done|].
  simpl. unfold mbind. destruct (f a s) as [[[]|e] s1]; [apply IH|done].
Qed.

(** X2. [edit] applies its updates one after the other: editing with the
    updates [first ++ rest] is editing with [first] and then, if that
    returned, with [rest].  Nothing is rolled back: when an update raises,
    the updates before it stay applied and the ones after it are not. *)
Theorem edit_is_sequential (func : callable) (first rest : list (string * value))
    (s : scheduler) :
  edit func (first ++ rest) s =
    match edit func first s with
    | (Ok _, s1) => edit func rest s1
    | (Raise e, s1) => (Raise e, s1)
    end.
Proof.
  rewrite !edit_run. destruct (tasks s !! fn_name func) as [l|] eqn:Hl; [|done].
  rewrite for_each_app.
  pose proof (for_each_edit_tasks (fn_name func) l first s) as Ht.
  destruct (for_each (edit_item (fn_name func) l) first s) as [[[]|e] s1]; [|done].
  simpl in Ht. by rewrite edit_run, Ht, Hl.
Qed.

(** X3. [edit] of one field other than the group, on a registered task.  A
    field the record does not have is refused with [ValueError] and nothing
    changes.  A field that is no timing field takes the given object as it
    is.  A timing field (delay, interval, jitter) takes the seconds
    [_parse_time] reads from the given text; when that raises, the error
    leaves [edit] and nothing has changed.  A successful edit changes that
    one field only: the rest of the record, the records of the other tasks,
    the registry and the group index stay. *)
Theorem edit_sets_field (func : callable) (prop : string) (v : value)
    (r : gmap string value) (s : scheduler) :
  heap_ok s ->
  task_record s (fn_name func) = Some r ->
  (r !! prop = None ->
     edit func [(prop, v)] s = (Raise (NoSuchProperty prop (fn_name func)), s)) /\
  (is_Some (r !! prop) -> prop <> "group" -> timing_prop prop = false ->
     exists s', edit func [(prop, v)] s = (Ok tt, s') /\
                field_written s s' (fn_name func) r prop v) /\
  (forall x, is_Some (r !! prop) -> timing_prop prop = true ->
     parse_time_value v = Ok x ->
     exists s', edit func [(prop, v)] s = (Ok tt, s') /\
                field_written s s' (fn_name func) r prop (VFloat x)) /\
  (forall e, is_Some (r !! prop) -> timing_prop prop = true ->
     parse_time_value v = Raise e ->
     edit func [(prop, v)] s = (Raise e, s)).
Proof.
  intros Hok Hrec. unfold task_record in Hrec.
  destruct (tasks s !! fn_name func) as [l|] eqn:Hl; [|discriminate Hrec]. simpl in Hrec.
  assert (Hderef : deref s l = r) by (unfold deref; by rewrite Hrec).
  assert (Hrun : edit func [(prop, v)] s =
            mbind (edit_item (fn_name func) l (prop, v)) (fun _ => mret tt) s).
  { by rewrite edit_run, Hl. }
  rewrite Hrun. unfold mbind at 1 2 3 4. rewrite edit_item_run, Hderef.
  assert (Hwritten : forall v',
    field_written s (set_objs (<[l := <[prop := v']> r]> (objs s)) s) (fn_name func) r prop v').
  { intros v'. split; [by apply task_record_same|]. split; [|done].
    intros other Hne. by apply task_record_other with (name := fn_name func). }
  assert (Htim : timing_prop prop = true -> String.eqb prop "group" = false).
  { intros Ht. apply String.eqb_neq. intros ->. discriminate Ht. }
  split; [|split; [|split]].
  - by intros ->.
  - intros [old Hold] Hng Hnt. rewrite Hold.
    apply String.eqb_neq in Hng. rewrite Hng, Hnt. unfold mbind, mret.
    rewrite set_item_run, Hderef. eexists. split; [done|]. apply Hwritten.
  - intros x [old Hold] Ht Hx. rewrite Hold, (Htim Ht), Ht, Hx. unfold mbind, mret, lift.
    rewrite set_item_run, Hderef. eexists. split; [done|]. apply Hwritten.
  - intros e [old Hold] Ht He. rewrite Hold, (Htim Ht), Ht, He. done.
Qed.

Lemma loud_task_record :
  task_record loud_task (fn_name job) =
    Some (periodic_record job (VFloat (PyFloat.of_Z 1)) (VInt 0) (VInt 0) VNone
            (VBool true) VNone).
Proof.
  unfold loud_task. simpl apply_operations. unfold apply_operation.
  replace (every "1s" None None VNone (VBool true) VNone)
    with (Ok (every_decorator (VFloat (PyFloat.of_Z 1)) (VInt 0) (VInt 0) VNone
                (VBool true) VNone)).
  - rewrite every_decorator_run by done. unfold set_groups, task_record. simpl.
    rewrite lookup_insert_eq. simpl. by rewrite lookup_insert_eq.
  - unfold every. by replace (_parse_time "1s") with (Ok (PyFloat.of_Z 1)) by (by vm_compute).
Qed.

Lemma edit_sets_field_witness :
  exists s',
    edit job [("interval", VStr "2m")] loud_task = (Ok tt, s') /\
    field_written loud_task s' (fn_name job)
      (periodic_record job (VFloat (PyFloat.of_Z 1)) (VInt 0) (VInt 0) VNone
         (VBool true) VNone)
      "interval" (VFloat (PyFloat.of_Z 120)).
Proof.
  destruct (edit_sets_field job "interval" (VStr "2m")
              (periodic_record job (VFloat (PyFloat.of_Z 1)) (VInt 0) (VInt 0) VNone
                 (VBool true) VNone) loud_task) as (_ & _ & H & _).
  - apply reachable_heap_ok.
  - apply loud_task_record.
  - apply (H (PyFloat.of_Z 120)).
    + exists (VFloat (PyFloat.of_Z 1)). reflexivity.
    + reflexivity.
    + vm_compute. reflexivity.
Defined.

(** X4. On a registered task whose record has a state field, [pause],
    [resume] and [stop] do what [edit] does with the update of the state to
    ["paused"], ["active"] and ["stopped"]: same result, same scheduler
    afterwards. *)
Theorem state_change_is_edit (c : state_change) (func : callable) (s : scheduler)
    (r : gmap string value) :
  task_record s (fn_name func) = Some r ->
  is_Some (r !! "state") ->
  edit func [("state", VStr (change_state c))] s = change_method c func s.
Proof.
  intros Hrec [old Hold]. unfold task_record in Hrec.
  destruct (tasks s !! fn_name func) as [l|] eqn:Hl; [|discriminate Hrec]. simpl in Hrec.
  assert (Hderef : deref s l = r) by (unfold deref; by rewrite Hrec).
  rewrite change_method_run, set_state_run, Hl.
  rewrite edit_run, Hl.
  change (for_each (edit_item (fn_name func) l) [("state", VStr (change_state c))] s)
    with (mbind (edit_item (fn_name func) l ("state", VStr (change_state c)))
            (fun _ => mret tt) s).
  unfold mbind at 1. rewrite edit_item_run, Hderef, Hold.
  change (String.eqb "state" "group") with false.
  change (timing_prop "state") with false. cbv iota.
  unfold mbind, mret. by rewrite set_item_run, Hderef.
Qed.

Lemma state_change_is_edit_witness :
  edit job [("state", VStr (change_state ToStopped))] loud_oneshot =
    change_method ToStopped job loud_oneshot.
Proof.
  apply (state_change_is_edit ToStopped job loud_oneshot
           (oneshot_record job (VFloat (PyFloat.of_Z 1)) (VInt 0) (VBool true))).
  - unfold loud_oneshot. apply after_decorator_record.
  - exists (VStr "active"). reflexivity.
Defined.

(** X5. Of two state changes of the same task in a row only the second one
    counts: the result and the scheduler are those of the second change
    alone (for a name that is not registered both raise).  So [stop] is not
    final in the registry: a later [resume] sets the task back to active. *)
Theorem last_state_change_wins (c1 c2 : state_change) (func : callable) (s : scheduler) :
  change_method c2 func (change_method c1 func s).2 = change_method c2 func s.
Proof.
  rewrite !change_method_run, !set_state_run.
  destruct (tasks s !! fn_name func) as [l|] eqn:Hl; simpl; rewrite Hl; [|done].
  unfold deref, set_objs. simpl. rewrite lookup_insert_eq. simpl.
  by rewrite insert_insert_eq, insert_insert_eq.
Qed.

(** X6. When [after] registers a function whose name is listed in a group,
    the name stays in the member list of the group while its new record has
    no group field; and [edit] then refuses every update of the group, so
    the interface offers no way to take the name out of the list. *)
Theorem overwritten_task_stays_listed (delay jitter log : value) (func : callable)
    (g : value) (s : scheduler) :
  fn_name func ∈ members s g ->
  fn_name func ∈ members (after_decorator delay jitter log func s).2 g /\
  group_of (after_decorator delay jitter log func s).2 (fn_name func) = None /\
  forall v,
    edit func [("group", v)] (after_decorator delay jitter log func s).2 =
      (Raise (NoSuchProperty "group" (fn_name func)),
       (after_decorator delay jitter log func s).2).
Proof.
  intros Hin. split; [by rewrite after_decorator_state|]. split.
  - unfold group_of. by rewrite after_decorator_record.
  - intros v. rewrite edit_run, after_decorator_state. cbn [snd tasks].
    rewrite lookup_insert_eq.
    change (for_each ?f [("group", v)] ?s0) with (mbind (f ("group", v)) (fun _ => mret tt) s0).
    unfold mbind at 1. rewrite edit_item_run. unfold deref. cbn [objs].
    rewrite lookup_insert_eq. by cbn.
Qed.

Lemma overwritten_task_stays_listed_witness :
  fn_name job ∈ members (after_decorator (VFloat (PyFloat.of_Z 5)) (VInt 0) (VBool true)
                           job two_tasks).2 (VStr "A") /\
  group_of (after_decorator (VFloat (PyFloat.of_Z 5)) (VInt 0) (VBool true)
              job two_tasks).2 (fn_name job) = None /\
  forall v,
    edit job [("group", v)]
      (after_decorator (VFloat (PyFloat.of_Z 5)) (VInt 0) (VBool true) job two_tasks).2 =
      (Raise (NoSuchProperty "group" (fn_name job)),
       (after_decorator (VFloat (PyFloat.of_Z 5)) (VInt 0) (VBool true) job two_tasks).2).
Proof.
  apply (overwritten_task_stays_listed (VFloat (PyFloat.of_Z 5)) (VInt 0) (VBool true) job
           (VStr "A") two_tasks).
  replace (members two_tasks (VStr "A")) with ["job"] by (by vm_compute).
  apply list_elem_of_here.
Defined.

(** X7. No call to the facade takes a name out of the registry: a registered
    name is still registered after a call to [every], [after], [edit],
    [pause], [resume] or [stop], whether the call returned or raised.  In
    particular a stopped task keeps its name: registering its function again
    with [every] raises the duplicate-name error and changes nothing. *)
Theorem registered_names_stay (s : scheduler) (c : api_call) (name : string) :
  is_Some (tasks s !! name) ->
  is_Some (tasks (api_step s c) !! name) /\
  forall (func : callable) (interval : string) (delay jitter : option string)
         (limit log group : value) (decorator : callable -> M callable),
    fn_name func = name ->
    every interval delay jitter limit log group = Ok decorator ->
    decorator func (stop func s).2 = (Raise (TaskExists name), (stop func s).2).
Proof.
  intros Hreg. split.
  - destruct c as [[interval delay jitter limit log group func|func updates|func|func|func]
                  |delay jitter log func]; simpl.
    + destruct (every _ _ _ _ _ _) as [dec|] eqn:Hev; [|done].
      apply every_returns_decorator in Hev as (i & d & j & ->).
      destruct (tasks s !! fn_name func) as [l|] eqn:Hl.
      * unfold every_decorator, mbind, get_state, mraise. by rewrite Hl.
      * rewrite (every_decorator_run _ _ _ _ _ _ _ _ Hl). simpl.
        destruct (decide (name = fn_name func)) as [->|Hn].
        -- rewrite lookup_insert_eq. by eexists.
        -- by rewrite lookup_insert_ne.
    + by rewrite edit_tasks.
    + unfold pause. by rewrite set_state_tasks.
    + unfold resume. by rewrite set_state_tasks.
    + unfold stop. by rewrite set_state_tasks.
    + destruct (after _ _ _) as [dec|] eqn:Haf; [|done].
      apply after_returns_decorator in Haf as (d & j & ->).
      rewrite after_decorator_state. simpl.
      destruct (decide (name = fn_name func)) as [->|Hn].
      * rewrite lookup_insert_eq. by eexists.
      * by rewrite lookup_insert_ne.
  - intros func interval delay jitter limit log group decorator <- Hev.
    apply (duplicate_rejected _ _ _ _ _ _ _ _ _ Hev).
    unfold stop. by rewrite set_state_tasks.
Qed.

Lemma registered_names_stay_witness :
  is_Some (tasks (api_step two_tasks (Op (OpStop job))) !! "job") /\
  forall (func : callable) (interval : string) (delay jitter : option string)
         (limit log group : value) (decorator : callable -> M callable),
    fn_name func = "job" ->
    every interval delay jitter limit log group = Ok decorator ->
    decorator func (stop func two_tasks).2 = (Raise (TaskExists "job"), (stop func two_tasks).2).
Proof.
  apply (registered_names_stay two_tasks (Op (OpStop job)) "job").
  exists 1%positive. vm_compute. reflexivity.
Defined.

(** ** Invariants of the reachable states *)

(** X8. In every state reached from a new scheduler by calls to [every],
    [after], [edit], [pause], [resume] and [stop], a registered name has a
    record, the record has exactly the five fields of a one-shot record or
    exactly the eight fields of a periodic one (no call adds or removes a
    field), and no other name shares the record. *)
Theorem record_fields_invariant (calls : list api_call) (name : string) :
  is_Some (tasks (api_run calls) !! name) ->
  exists r,
    task_record (api_run calls) name = Some r /\
    (dom r = oneshot_fields \/ dom r = periodic_fields) /\
    (forall other, tasks (api_run calls) !! other = tasks (api_run calls) !! name ->
                   other = name).
Proof.
  intros Hreg. pose proof (api_run_sound calls) as Hc.
  destruct (sound_record _ name Hc Hreg) as (r & Hrec & Hshape).
  exists r. split; [done|]. split; [done|].
  intros other Heq. destruct Hreg as [l Hl]. rewrite Hl in Heq.
  destruct Hc as ([_ Hinj] & _). by apply (Hinj _ _ l).
Qed.

Lemma record_fields_invariant_witness :
  exists r,
    task_record (api_run demo_calls) "job" = Some r /\
    (dom r = oneshot_fields \/ dom r = periodic_fields) /\
    (forall other, tasks (api_run demo_calls) !! other = tasks (api_run demo_calls) !! "job" ->
                   other = "job").
Proof.
  apply (record_fields_invariant demo_calls "job").
  exists 3%positive. vm_compute. reflexivity.
Defined.

(** X9. In every state reached from a new scheduler by calls to the facade,
    one-shot registrations included, a group of the index has at least one
    member, lists no name twice, has a key that counts as true, and lists
    registered names only. *)
Theorem group_index_invariant (calls : list api_call) (g : value) (lst : list string) :
  groups (api_run calls) !! g = Some lst ->
  lst <> [] /\ NoDup lst /\ truthy g = true /\
  forall name, name ∈ lst -> is_Some (tasks (api_run calls) !! name).
Proof.
  intros Hg. destruct (api_run_sound calls) as (_ & _ & [_ Hlist] & Hnd & Hne).
  assert (Hm : members (api_run calls) g = lst) by (unfold members; by rewrite Hg).
  split; [by eapply Hne|]. split; [rewrite <- Hm; apply Hnd|].
  assert (Hall : forall name, name ∈ lst ->
            truthy g = true /\ is_Some (tasks (api_run calls) !! name)).
  { intros name Hin. rewrite <- Hm in Hin. by destruct (Hlist _ _ Hin) as (? & ? & _). }
  split; [|intros name Hin; by apply Hall].
  destruct lst as [|y lst]; [by apply Hne in Hg|].
  apply (Hall y), list_elem_of_here.
Qed.

Lemma group_index_invariant_witness :
  ["job"; "report"] <> [] /\ NoDup ["job"; "report"] /\ truthy (VStr "A") = true /\
  forall name, name ∈ ["job"; "report"] -> is_Some (tasks (api_run demo_calls) !! name).
Proof.
  apply (group_index_invariant demo_calls (VStr "A") ["job"; "report"]).
  vm_compute. reflexivity.
Defined.

Lemma parse_time_errors (t : string) (e : exn) :
  _parse_time t = Raise e ->
  e = InvalidIntervalFormat \/ e = NegativeInterval \/ exists m, e = FloatSyntax m.
Proof.
  unfold _parse_time, to_float.
  repeat match goal with
         | |- context [if ?b then _ else _] => destruct b
         | |- context [match PyFloat.of_string ?m with _ => _ end] =>
             destruct (PyFloat.of_string m) eqn:?
         end; simpl;
    repeat match goal with
           | |- context [if ?b then _ else _] => destruct b
           end;
    intros [= <-]; eauto.
Qed.

(** X10. In every state reached from a new scheduler by calls to the facade,
    [edit] raises only its own errors: the task is not registered, an update
    names a field the record does not have, or the text given for a timing
    field does not parse.  What it looks up and removes in the group index
    is always there: it raises no [KeyError] and no [ValueError] of
    [list.remove]. *)
Theorem edit_failures (calls : list api_call) (func : callable)
    (updates : list (string * value)) (e : exn) :
  (edit func updates (api_run calls)).1 = Raise e ->
  ((tasks (api_run calls) !! fn_name func = None /\
    e = TaskNotFound (VStr (fn_name func))) \/
   exists prop v,
     (prop, v) ∈ updates /\
     (e = NoSuchProperty prop (fn_name func) \/
      (timing_prop prop = true /\ parse_time_value v = Raise e))) /\
  (forall key, e <> KeyError key) /\ (forall x, e <> NotInList x).
Proof.
  intros He.
  assert (H : (tasks (api_run calls) !! fn_name func = None /\
               e = TaskNotFound (VStr (fn_name func))) \/
              exists prop v,
                (prop, v) ∈ updates /\
                (e = NoSuchProperty prop (fn_name func) \/
                 (timing_prop prop = true /\ parse_time_value v = Raise e))).
  { rewrite edit_run in He.
    destruct (tasks (api_run calls) !! fn_name func) as [l|] eqn:Hl.
    - right. by apply (for_each_edit_ends _ l updates (api_run calls) e (api_run_sound calls)).
    - left. split; [done|]. simpl in He. congruence. }
  split; [exact H|].
  assert (Hparse : forall v, parse_time_value v = Raise e ->
            (forall key, e <> KeyError key) /\ (forall x, e <> NotInList x)).
  { intros v Hv. destruct v; simpl in Hv;
      try (injection Hv as <-; split; intros; discriminate).
    apply parse_time_errors in Hv as [->|[->|[m ->]]]; split; intros; discriminate. }
  destruct H as [[_ ->]|(prop & v & _ & [->|[_ Hv]])];
    [split; intros; discriminate | split; intros; discriminate | by apply (Hparse v)].
Qed.

Lemma edit_failures_witness :
  ((tasks (api_run demo_calls) !! fn_name job = None /\
    NoSuchProperty "group" "job" = TaskNotFound (VStr (fn_name job))) \/
   exists prop v,
     (prop, v) ∈ [("log", VBool true); ("group", VStr "B")] /\
     (NoSuchProperty "group" "job" = NoSuchProperty prop (fn_name job) \/
      (timing_prop prop = true /\ parse_time_value v = Raise (NoSuchProperty "group" "job")))) /\
  (forall key, NoSuchProperty "group" "job" <> KeyError key) /\
  (forall x, NoSuchProperty "group" "job" <> NotInList x).
Proof.
  apply (edit_failures demo_calls job [("log", VBool true); ("group", VStr "B")]).
  vm_compute. reflexivity.
Defined.

(** X11. In every state reached from a new scheduler by calls to the facade,
    [run] with the name of a group as its only target raises nothing and
    starts one thread per member of the group, in the order of the member
    list, each on the function field of the member's record and on the
    arguments given for the member (none when [args] has no entry for it),
    provided the arguments given for the members are lists or tuples.
    Blocking or not makes no difference. *)
Theorem run_group_starts_members (calls : list api_call) (g : string) (lst : list string)
    (blocking : bool) (args : option (gmap string pyargs)) :
  groups (api_run calls) !! VStr g = Some lst ->
  (forall name, name ∈ lst -> exists a, task_args args name = ArgSeq a) ->
  exists launches,
    run (api_run calls) blocking (Some [VStr g]) args = (launches, Ok tt) /\
    Forall2 (started_for (api_run calls) args) lst launches.
Proof.
  intros Hg Hargs. pose proof (api_run_sound calls) as Hc.
  destruct (run_tasks_registered (api_run calls) args lst Hc Hargs) as (launches & Hrun & Hall).
  { intros name Hin. destruct Hc as (_ & _ & [_ Hlist] & _).
    assert (Hm : name ∈ members (api_run calls) (VStr g)) by (unfold members; by rewrite Hg).
    by destruct (Hlist _ _ Hm) as (_ & ? & _). }
  exists launches. split; [|done].
  unfold run, run_targets. cbn [_expand_targets]. rewrite Hg. cbn [result_bind].
  rewrite app_nil_r, Hrun. by destruct blocking.
Qed.

Lemma run_group_starts_members_witness :
  exists launches,
    run (api_run demo_calls) true (Some [VStr "A"]) None = (launches, Ok tt) /\
    Forall2 (started_for (api_run demo_calls) None) ["job"; "report"] launches.
Proof.
  apply (run_group_starts_members demo_calls "A" ["job"; "report"] true None).
  - vm_compute. reflexivity.
  - intros name _. by exists [].
Defined.



(** ** Threads started by [run] *)

Lemma run_tasks_app (s : scheduler) (args : option (gmap string pyargs))
    (n1 n2 : list value) :
  run_tasks s args (n1 ++ n2) =
    match run_tasks s args n1 with
    | (started, Ok _) =>
        ((started ++ (run_tasks s args n2).1), (run_tasks s args n2).2)
    | (started, Raise e) => (started, Raise e)
    end.
Proof.
  induction n1 as [|t n1 IH]; [simpl; by destruct (run_tasks s args n2)|].
  cbn [app run_tasks]. destruct t as [| | | |name|]; try done.
  destruct (tasks s !! name) as [l|]; [|done].
  destruct (task_args args name) as [a|]; [|done].
  destruct (deref s l !! "function") as [f|]; [|done].
  rewrite IH. by destruct (run_tasks s args n1) as [started [[]|e]].
Qed.

(** X13. [run] starts its threads one target after the other and stops at
    the first function that is not registered: the threads of the targets
    before it have been started, none of the targets after it is.  A
    blocking call raises the not-found error; a non-blocking call returns
    normally, the error staying in the background thread. *)
Theorem run_stops_at_unknown_task (s : scheduler) (args : option (gmap string pyargs))
    (before rest : list value) (c : callable) (n1 n2 : list value) (started : list launch) :
  _expand_targets s before = Ok n1 ->
  _expand_targets s rest = Ok n2 ->
  run_tasks s args n1 = (started, Ok tt) ->
  tasks s !! fn_name c = None ->
  run s true (Some (before ++ VFunc c :: rest)) args =
    (started, Raise (TaskNotFound (VStr (fn_name c)))) /\
  run s false (Some (before ++ VFunc c :: rest)) args = (started, Ok tt).
Proof.
  intros H1 H2 Hrun Hnone.
  assert (Hexp : run_targets s (Some (before ++ VFunc c :: rest)) =
                 Ok (n1 ++ VStr (fn_name c) :: n2)).
  { assert (Hgo : run_targets s (Some (before ++ VFunc c :: rest)) =
                  _expand_targets s (before ++ VFunc c :: rest)) by (by destruct before).
    rewrite Hgo, expand_targets_app, H1. cbn [result_bind _expand_targets].
    by rewrite H2. }
  assert (Htasks : run_tasks s args (n1 ++ VStr (fn_name c) :: n2) =
                   (started, Raise (TaskNotFound (VStr (fn_name c))))).
  { rewrite run_tasks_app, Hrun. cbn [run_tasks]. rewrite Hnone. simpl.
    by rewrite app_nil_r. }
  unfold run. by rewrite Hexp, Htasks.
Qed.

Lemma run_stops_at_unknown_task_witness :
  run two_tasks true (Some ([VFunc job] ++ VFunc (Fn "ghost" 7) :: [VFunc report])) None =
    ([Launch (VFunc (Wrapper Periodic job)) []],
     Raise (TaskNotFound (VStr (fn_name (Fn "ghost" 7))))) /\
  run two_tasks false (Some ([VFunc job] ++ VFunc (Fn "ghost" 7) :: [VFunc report])) None =
    ([Launch (VFunc (Wrapper Periodic job)) []], Ok tt).
Proof.
  apply (run_stops_at_unknown_task two_tasks None [VFunc job] [VFunc report] (Fn "ghost" 7)
           [VStr "job"] [VStr "report"]).
  - reflexivity.
  - reflexivity.
  - vm_compute. reflexivity.
  - vm_compute. reflexivity.
Defined.

(** ** More on workers *)

Lemma produces_refl (w : world) : produces w w [] 0.
Proof. unfold produces. by rewrite app_nil_r, Nat.add_0_r. Qed.

Lemma produces_trans (w w1 w2 : world) (e1 e2 : list event) (c1 c2 : nat) :
  produces w w1 e1 c1 -> produces w1 w2 e2 c2 -> produces w w2 (e1 ++ e2) (c1 + c2).
Proof.
  intros [Ha Hc] [Ha' Hc']. unfold produces.
  split; [by rewrite Ha', Ha, app_assoc|lia].
Qed.

Lemma lookup_task_produces (E : env) (name : string) (w w' : world) (o : outcome loc) :
  lookup_task E name w = (o, w') -> produces w w' [] 0.
Proof.
  unfold lookup_task, wbind, yield. simpl.
  destruct (tasks _ !! name); intros [= <- <-]; (split; simpl; [by rewrite app_nil_r|lia]).
Qed.

Lemma get_item_produces (E : env) (l : loc) (key : string) (w w' : world)
    (o : outcome value) :
  get_item E l key w = (o, w') -> produces w w' [] 0.
Proof.
  unfold get_item, wbind, yield. simpl.
  destruct (deref _ l !! key); intros [= <- <-]; (split; simpl; [by rewrite app_nil_r|lia]).
Qed.

Lemma sleep_produces (secs : value) (w w' : world) :
  sleep secs w = (Returned tt, w') -> produces w w' [ESleep secs] 0.
Proof.
  unfold sleep, wbind, wlift, wret, wraise, emit.
  destruct (as_num secs) as [[z|x]|e]; simpl; [| |discriminate].
  - destruct (z <? 0); [discriminate|]. intros [= <-]. split; simpl; [done|lia].
  - destruct (_ || _); [discriminate|]. destruct (PyFloat.is_finite x); [|discriminate].
    intros [= <-]. split; simpl; [done|lia].
Qed.

(** What [time.sleep] raises on a duration it does not take. *)
Lemma sleep_refuses (secs : value) (w : world) :
  accepted secs = false ->
  exists e, sleep secs w = (Raised e, w) /\
            (class_of e = CValueError \/ class_of e = COverflowError \/
             class_of e = CTypeError).
Proof.
  intros Hacc. unfold sleep, wbind, wlift, wret, wraise.
  destruct secs as [|b|z|x|t|c]; simpl in *; try discriminate Hacc;
    try (eexists; split; [reflexivity|]; simpl; by auto).
  - apply negb_false_iff in Hacc. rewrite Hacc. eexists. split; [done|]. by left.
  - destruct (PyFloat.is_nan x || PyFloat.ltb x PyFloat.zero) eqn:Hbad.
    + eexists. split; [done|]. by left.
    + simpl in Hacc. rewrite Hacc. eexists. split; [done|]. right. by left.
Qed.

Lemma flag_print_produces (b : bool) (m : message) (w : world) :
  exists w',
    (if b then print m else wret tt) w = (Returned tt, w') /\
    w_sched w' = w_sched w /\
    produces w w' (if b then [EPrint m] else []) 0.
Proof.
  destruct b.
  - eexists. split; [reflexivity|]. split; [done|]. split; simpl; [done|lia].
  - exists w. split; [done|]. split; [done|]. apply produces_refl.
Qed.

Ltac chain_produces :=
  unfold produces in *;
  repeat match goal with H : _ /\ _ |- _ => destruct H end;
  split;
  [ repeat match goal with
           | H : w_trace ?x = _ |- _ => rewrite H; clear H
           end;
    rewrite ?app_nil_r, <- ?app_assoc; try done
  | lia ].

(** ** A paused task *)

Lemma paused_iteration (E : env) (I : scheduler -> Prop) (name : string) (l : loc)
    (args : list value) (local_limit : value) (w : world) :
  stable E I ->
  (forall s, I s -> task_at name l (fun r => r !! "state" = Some (VStr "paused")) s) ->
  I (w_sched w) ->
  exists w',
    iteration E name args local_limit w = (Returned (Next local_limit), w') /\
    I (w_sched w') /\ produces w w' [ESleep poll_interval] 0.
Proof.
  intros HE HIp HI.
  destruct (lookup_task_step E I HE name l w) as (w1 & H1 & HI1 & _);
    [intros s Hs; by eapply task_at_lookup, HIp | done |].
  destruct (get_item_step E I HE l "state" (fun st => st = VStr "paused") w1)
    as (st & w2 & H2 & -> & HI2 & _); [|done|].
  { intros s Hs. exists (VStr "paused"). split; [|done].
    by apply HIp, task_at_record in Hs. }
  destruct (sleep_step I poll_interval w2 eq_refl HI2) as (w3 & H3 & HI3 & _).
  pose proof (lookup_task_produces _ _ _ _ _ H1) as P1.
  pose proof (get_item_produces _ _ _ _ _ _ H2) as P2.
  pose proof (sleep_produces _ _ _ H3) as P3.
  exists w3. split; [|split; [done|chain_produces]].
  unfold iteration.
  rewrite (wbind_returned _ _ _ _ _ H1), (wbind_returned _ _ _ _ _ H2).
  rewrite decide_True by done. by rewrite (wbind_returned _ _ _ _ _ H3).
Qed.

(** X14. While the task is paused a round of the loop sleeps 0.1 s and hands
    the count on unchanged; the loop then neither executes the function nor
    ends: after any number of rounds the worker has produced that many
    sleeps of 0.1 s and nothing else. *)
Theorem paused_worker_only_polls (E : env) (I : scheduler -> Prop) (name : string)
    (l : loc) (args : list value) (local_limit : value) (fuel : nat) (w : world) :
  stable E I ->
  (forall s, I s -> task_at name l (fun r => r !! "state" = Some (VStr "paused")) s) ->
  loop_condition local_limit = Ok true ->
  I (w_sched w) ->
  (exists w1, iteration E name args local_limit w = (Returned (Next local_limit), w1)) /\
  exists w',
    loop E name args fuel local_limit w = (OutOfFuel, w') /\
    produces w w' (replicate fuel (ESleep poll_interval)) 0.
Proof.
  intros HE HIp Hcond HI. split.
  { destruct (paused_iteration E I name l args local_limit w HE HIp HI) as (w1 & H1 & _).
    by exists w1. }
  revert w HI. induction fuel as [|fuel IH]; intros w HI.
  - exists w. split; [|apply produces_refl].
    by rewrite loop_unfold, Hcond, wbind_lift_ok.
  - destruct (paused_iteration E I name l args local_limit w HE HIp HI) as (w1 & H1 & HI1 & P1).
    destruct (IH w1 HI1) as (w2 & H2 & P2).
    exists w2. split.
    + by rewrite loop_unfold, Hcond, wbind_lift_ok, (wbind_returned _ _ _ _ _ H1).
    + change (replicate (S fuel) (ESleep poll_interval))
        with ([ESleep poll_interval] ++ replicate fuel (ESleep poll_interval)).
      change 0%nat with (0 + 0)%nat. by eapply produces_trans.
Qed.

Lemma paused_job :
  task_at "job" 1%positive (fun r => r !! "state" = Some (VStr "paused"))
    (pause job two_tasks).2.
Proof.
  unfold pause. rewrite set_state_run.
  assert (Hl : tasks two_tasks !! "job" = Some 1%positive) by (vm_compute; reflexivity).
  simpl fn_name. rewrite Hl. split; [exact Hl|]. unfold set_objs. cbn [snd objs].
  eexists. split; [apply lookup_insert_eq|]. apply lookup_insert_eq.
Qed.

Lemma paused_worker_only_polls_witness :
  (exists w1, iteration quiet "job" [] (VInt 3) (start (pause job two_tasks).2) =
                (Returned (Next (VInt 3)), w1)) /\
  exists w',
    loop quiet "job" [] 5 (VInt 3) (start (pause job two_tasks).2) = (OutOfFuel, w') /\
    produces (start (pause job two_tasks).2) w' (replicate 5 (ESleep poll_interval)) 0.
Proof.
  apply (paused_worker_only_polls quiet (fun s => s = (pause job two_tasks).2) "job"
           1%positive [] (VInt 3) 5).
  - apply quiet_stable.
  - intros s ->. apply paused_job.
  - reflexivity.
  - reflexivity.
Defined.

(** ** A stopped task *)

(** X15. When the task is stopped, the next round ends the loop: the worker
    returns without executing the function and without sleeping, and prints
    the line that the task stopped exactly when the log field counts as
    true. *)
Theorem stopped_worker_returns (E : env) (I : scheduler -> Prop) (name : string)
    (l : loc) (args : list value) (local_limit lg : value) (fuel : nat) (w : world) :
  stable E I ->
  (forall s, I s -> task_at name l (fun r =>
     r !! "state" = Some (VStr "stopped") /\ r !! "log" = Some lg) s) ->
  loop_condition local_limit = Ok true ->
  I (w_sched w) ->
  exists w',
    loop E name args (S fuel) local_limit w = (Returned tt, w') /\
    produces w w' (if truthy lg then [EPrint (MsgStopped name)] else []) 0.
Proof.
  intros HE HIs Hcond HI.
  destruct (lookup_task_step E I HE name l w) as (w1 & H1 & HI1 & _);
    [intros s Hs; by eapply task_at_lookup, HIs | done |].
  destruct (get_item_step E I HE l "state" (fun st => st = VStr "stopped") w1)
    as (st & w2 & H2 & -> & HI2 & _); [|done|].
  { intros s Hs. exists (VStr "stopped"). split; [|done].
    by apply HIs, task_at_record in Hs as [? _]. }
  destruct (get_item_step E I HE l "log" (fun v => v = lg) w2)
    as (? & w3 & H3 & -> & HI3 & _); [|done|].
  { intros s Hs. exists lg. split; [|done].
    by apply HIs, task_at_record in Hs as [_ ?]. }
  pose proof (lookup_task_produces _ _ _ _ _ H1) as P1.
  pose proof (get_item_produces _ _ _ _ _ _ H2) as P2.
  pose proof (get_item_produces _ _ _ _ _ _ H3) as P3.
  destruct (flag_print_produces (truthy lg) (MsgStopped name) w3) as (w4 & H4 & _ & P4).
  exists w4. split; [|chain_produces].
  rewrite loop_unfold, Hcond, wbind_lift_ok. unfold iteration.
  rewrite (wbind_returned _ _ w w4 Break); [done|].
  rewrite (wbind_returned _ _ _ _ _ H1), (wbind_returned _ _ _ _ _ H2).
  rewrite decide_False by discriminate. rewrite decide_True by done.
  by rewrite (wbind_returned _ _ _ _ _ H3), (wbind_returned _ _ _ _ _ H4).
Qed.

Lemma stopped_job :
  task_at "job" 1%positive (fun r =>
    r !! "state" = Some (VStr "stopped") /\ r !! "log" = Some (VBool true))
    (stop job loud_task).2.
Proof.
  unfold stop. rewrite set_state_run.
  assert (Hl : tasks loud_task !! "job" = Some 1%positive) by (vm_compute; reflexivity).
  simpl fn_name. rewrite Hl. split; [exact Hl|]. unfold set_objs. cbn [snd objs].
  eexists. split; [apply lookup_insert_eq|]. split; [apply lookup_insert_eq|].
  rewrite lookup_insert_ne by done. vm_compute. reflexivity.
Qed.

Lemma stopped_worker_returns_witness :
  exists w',
    loop quiet "job" [] 1 VNone (start (stop job loud_task).2) = (Returned tt, w') /\
    produces (start (stop job loud_task).2) w'
      (if truthy (VBool true) then [EPrint (MsgStopped "job")] else []) 0.
Proof.
  apply (stopped_worker_returns quiet (fun s => s = (stop job loud_task).2) "job"
           1%positive [] VNone (VBool true) 0).
  - apply quiet_stable.
  - intros s ->. apply stopped_job.
  - reflexivity.
  - reflexivity.
Defined.

(** ** The start of a periodic worker *)

(** The worker up to its loop: the record is fetched and the delay slept. *)
Lemma periodic_start (E : env) (I : scheduler -> Prop) (name : string) (l : loc)
    (args : list value) (delay : value) (fuel : nat) (s : scheduler) :
  stable E I ->
  (forall s', I s' -> task_at name l (fun r => r !! "delay" = Some delay) s') ->
  I s ->
  accepted delay = true ->
  exists w,
    periodic_wrapper E name args fuel (start s) =
      wbind (get_item E l "limit") (fun local_limit => loop E name args fuel local_limit) w /\
    I (w_sched w) /\ w_trace w = [ESleep delay] /\ w_calls w = 0%nat /\ w_draws w = 0%nat.
Proof.
  intros HE HId HI Hacc.
  destruct (lookup_task_step E I HE name l (start s)) as (w1 & H1 & HI1 & L1);
    [intros s' Hs; by eapply task_at_lookup, HId | done |].
  destruct (get_item_step E I HE l "delay" (fun v => v = delay) w1)
    as (? & w2 & H2 & -> & HI2 & L2); [|done|].
  { intros s' Hs. exists delay. split; [|done]. by apply HId, task_at_record in Hs. }
  destruct (sleep_step I delay w2 Hacc HI2) as (w3 & H3 & HI3 & L3).
  pose proof (lookup_task_produces _ _ _ _ _ H1) as P1.
  pose proof (get_item_produces _ _ _ _ _ _ H2) as P2.
  pose proof (sleep_produces _ _ _ H3) as P3.
  exists w3. split; [|split; [done|]].
  - unfold periodic_wrapper.
    by rewrite (wbind_returned _ _ _ _ _ H1), (wbind_returned _ _ _ _ _ H2),
      (wbind_returned _ _ _ _ _ H3).
  - destruct P1 as [T1 C1], P2 as [T2 C2], P3 as [T3 C3].
    split; [by rewrite T3, T2, T1, !app_nil_r|].
    unfold leads in *. simpl in *. split; lia.
Qed.


Lemma zero_limit_job :
  task_at "job" 1%positive (fun r =>
    r !! "delay" = Some (VInt 0) /\ r !! "limit" = Some (VInt 0))
    (apply_operations init [OpEvery "1s" None None (VInt 0) (VBool false) VNone job]).
Proof.
  apply reachable_task_at; [vm_compute; reflexivity|].
  split; vm_compute; reflexivity.
Qed.


(** ** The count of the loop is the worker's own *)

Section Counting.
Context (E : env) (task_name : string) (l : loc) (args : list value).
Context (jitter interval : value).
Context (I : scheduler -> Prop) (HE : stable E I).
Context (HIr : forall s, I s -> round_task task_name l jitter interval s).
Context (Hbody : forall k a s, (body E k a s).1 = None).
Context (Hgap : forall k, gap_ok jitter interval (random E k)).

Lemma counted_iteration (m : Z) (w : world) :
  I (w_sched w) ->
  exists w',
    iteration E task_name args (VInt m) w = (Returned (Next (VInt (m - 1))), w') /\
    I (w_sched w') /\
    leads w w' (ECall args :: gap_events jitter interval (random E (w_draws w))) 1 1.
Proof.
  intros HI.
  destruct (lookup_task_step E I HE task_name l w) as (w1 & H1 & HI1 & L1);
    [intros s Hs; by eapply task_at_lookup, HIr | done |].
  destruct (get_item_step E I HE l "state"
              (fun st => st <> VStr "paused" /\ st <> VStr "stopped") w1)
    as (st & w2 & H2 & [Hnp Hns] & HI2 & L2); [|done|].
  { intros s Hs. apply HIr, task_at_record in Hs as (_ & _ & _ & st & Hst & Hrun).
    by exists st. }
  destruct (execute_returns E I HE task_name l args w2) as (w3 & H3 & HI3 & L3);
    [|intros s; apply Hbody|done|].
  { intros s Hs. by apply HIr, task_at_record in Hs as (_ & _ & Hlog & _). }
  destruct (jittered_sleep_step E I HE l "interval" jitter interval w3)
    as (w4 & H4 & HI4 & L4); [| |apply Hgap|done|].
  { intros s Hs. by apply HIr, task_at_record in Hs as (Hj & _). }
  { intros s Hs. by apply HIr, task_at_record in Hs as (_ & Hi & _). }
  destruct (get_item_step E I HE l "log" (fun _ => True) w4) as (lg & w5 & H5 & _ & HI5 & L5);
    [|done|].
  { intros s Hs. apply HIr, task_at_record in Hs as (_ & _ & [v Hv] & _). by exists v. }
  destruct (flag_print_step I
              (truthy lg && negb (bool_decide (VInt (m - 1) = VNone)))
              (MsgRemaining task_name (VInt (m - 1))) w5 HI5) as (w6 & H6 & HI6 & L6).
  assert (Hd : w_draws w3 = w_draws w) by (unfold leads in *; lia).
  rewrite Hd in L4.
  exists w6. split; [|split; [done|chain_leads]].
  unfold iteration.
  rewrite (wbind_returned _ _ _ _ _ H1), (wbind_returned _ _ _ _ _ H2).
  rewrite decide_False, decide_False by done.
  rewrite (wbind_returned _ _ _ _ _ H3), (wbind_returned _ _ _ _ _ H4).
  change (py_sub (VInt m) (VInt 1)) with (Ok (VInt (m - 1))).
  rewrite wbind_lift_ok, (wbind_returned _ _ _ _ _ H5), (wbind_returned _ _ _ _ _ H6).
  done.
Qed.

Lemma counted_loop (c fuel : nat) (m : Z) (w : world) :
  Z.to_nat m = c -> (c <= fuel)%nat ->
  I (w_sched w) ->
  exists w',
    loop E task_name args fuel (VInt m) w = (Returned tt, w') /\
    I (w_sched w') /\
    leads w w' (rounds E args jitter interval (w_draws w) c) c c.
Proof.
  revert fuel m w. induction c as [|c IH]; intros fuel m w Hm Hfuel HI.
  - exists w. split; [|split; [done|apply leads_refl]].
    assert (Hcond : loop_condition (VInt m) = Ok false).
    { unfold loop_condition, py_positive. simpl. f_equal. apply Z.ltb_ge. lia. }
    by rewrite loop_unfold, Hcond, wbind_lift_ok.
  - assert (Hcond : loop_condition (VInt m) = Ok true).
    { unfold loop_condition, py_positive. simpl. f_equal. apply Z.ltb_lt. lia. }
    destruct fuel as [|fuel]; [lia|].
    destruct (counted_iteration m w HI) as (w1 & H1 & HI1 & L1).
    destruct (IH fuel (m - 1) w1) as (w2 & H2 & HI2 & L2); [lia|lia|done|].
    assert (Hd : w_draws w1 = S (w_draws w)) by (unfold leads in *; lia).
    rewrite Hd in L2.
    exists w2. split; [|split; [done|]].
    + rewrite loop_unfold, Hcond, wbind_lift_ok, (wbind_returned _ _ _ _ _ H1).
      exact H2.
    + simpl rounds. chain_leads.
Qed.
End Counting.


(** An edit of the limit leaves what a round needs of the record. *)
Lemma relimit_round_task (func : callable) (v : value) (name : string) (l : loc)
    (jitter interval : value) (s : scheduler) :
  round_task name l jitter interval s ->
  round_task name l jitter interval (edit func [("limit", v)] s).2.
Proof.
  intros (Hl & r & Hr & Hj & Hi & Hlog & st & Hst & Hrun).
  rewrite edit_run. destruct (tasks s !! fn_name func) as [l'|] eqn:Hl'.
  2: { split; [done|]. exists r. repeat (split; [done|]). by exists st. }
  change (for_each (edit_item (fn_name func) l') [("limit", v)] s)
    with (mbind (edit_item (fn_name func) l' ("limit", v)) (fun _ => mret tt) s).
  unfold mbind at 1. rewrite edit_item_run.
  destruct (deref s l' !! "limit") as [old|] eqn:Hold.
  2: { split; [done|]. exists r. repeat (split; [done|]). by exists st. }
  change (String.eqb "limit" "group") with false.
  change (timing_prop "limit") with false. cbv iota.
  unfold mbind, mret. rewrite set_item_run. unfold set_objs. cbn [snd].
  split; [done|]. cbn [objs].
  destruct (decide (l' = l)) as [->|Hne].
  - assert (Hd : deref s l = r) by (unfold deref; by rewrite Hr).
    rewrite Hd, lookup_insert_eq. eexists. split; [done|].
    rewrite !lookup_insert_ne by done. repeat (split; [done|]).
    exists st. by rewrite lookup_insert_ne.
  - rewrite lookup_insert_ne by done. exists r. repeat (split; [done|]). by exists st.
Qed.

Lemma two_tasks_round : round_task "job" 1%positive (VInt 0) (VFloat (PyFloat.of_Z 1)) two_tasks.
Proof.
  destruct two_tasks_job as (Hl & r & Hr & _ & _ & Hj & Hi & Hlog & Hrun).
  split; [exact Hl|]. exists r.
  split; [exact Hr|]. split; [exact Hj|]. split; [exact Hi|]. split; [exact Hlog|exact Hrun].
Qed.


(** ** A periodic wrapper whose name was registered again by [after] *)


Lemma overwritten_job :
  task_at (fn_name job) 3%positive (fun r =>
    r !! "delay" = Some (VFloat (PyFloat.of_Z 5)) /\ r !! "limit" = None)
    (after_decorator (VFloat (PyFloat.of_Z 5)) (VInt 0) (VBool true) job two_tasks).2.
Proof.
  rewrite after_decorator_state.
  assert (Hf : fresh (dom (objs two_tasks)) = 3%positive) by (vm_compute; reflexivity).
  rewrite Hf. cbn [snd]. split; [apply lookup_insert_eq|].
  eexists. split; [apply lookup_insert_eq|]. by split.
Qed.


(** ** One-shot tasks and the state field *)


Lemma stopped_oneshot :
  task_at "job" 1%positive (fun r =>
    r !! "state" = Some (VStr "stopped") /\ r !! "delay" = Some (VFloat (PyFloat.of_Z 1)) /\
    r !! "jitter" = Some (VInt 0) /\ is_Some (r !! "log"))
    (stop job loud_oneshot).2.
Proof.
  unfold stop. rewrite set_state_run.
  assert (Hl : tasks loud_oneshot !! "job" = Some 1%positive) by (vm_compute; reflexivity).
  simpl fn_name. rewrite Hl. split; [exact Hl|]. unfold set_objs. cbn [snd objs].
  eexists. split; [apply lookup_insert_eq|].
  split; [apply lookup_insert_eq|]. rewrite !lookup_insert_ne by done.
  split; [vm_compute; reflexivity|]. split; [vm_compute; reflexivity|].
  exists (VBool true). vm_compute. reflexivity.
Qed.


(** ** Console output *)

Lemma call_produces (E : env) (args : list value) (w w' : world) (o : outcome unit) :
  call E args w = (o, w') -> produces w w' [ECall args] 1 /\ w_draws w' = w_draws w.
Proof.
  unfold call. destruct (body E (w_calls w) args (w_sched w)) as [r s'].
  intros [= <- <-]. split; [split; simpl; [done|lia]|done].
Qed.

Lemma uniform_produces (E : env) (a b : value) (w w' : world) (o : outcome value) :
  uniform E a b w = (o, w') -> produces w w' [] 0.
Proof.
  unfold uniform, wbind, wlift, wret, wraise, draw.
  destruct (py_sub b a) as [width|]; [|intros [= <- <-]; apply produces_refl].
  destruct (py_mul width _) as [scaled|]; [|intros [= <- <-]; split; simpl; [by rewrite app_nil_r|lia]].
  destruct (py_add a scaled); intros [= <- <-]; (split; simpl; [by rewrite app_nil_r|lia]).
Qed.

Section Output.
Context (E : env) (I : scheduler -> Prop) (HE : stable E I).
Context (task_name : string) (l : loc) (args : list value).
Context (jitter interval log : value).
Context (HIl : forall s, I s -> logged_task task_name l jitter interval log s).
Context (Hbody : forall k a s, (body E k a s).1 = None).
Context (Hgap : forall k, gap_ok jitter interval (random E k)).

Lemma log_read (w : world) :
  I (w_sched w) ->
  exists w', get_item E l "log" w = (Returned log, w') /\ I (w_sched w') /\
             produces w w' [] 0 /\ w_draws w' = w_draws w.
Proof.
  intros HI.
  destruct (get_item_step E I HE l "log" (fun v => v = log) w)
    as (? & w1 & H1 & -> & HI1 & L1); [|done|].
  { intros s Hs. exists log. split; [|done].
    by apply HIl, task_at_record in Hs as (_ & _ & ? & _). }
  exists w1. split; [done|]. split; [done|].
  split; [by eapply get_item_produces|]. unfold leads in L1. lia.
Qed.

Lemma flag_print_exact (b : bool) (m : message) (w : world) :
  I (w_sched w) ->
  exists w', (if b then print m else wret tt) w = (Returned tt, w') /\ I (w_sched w') /\
             produces w w' (if b then [EPrint m] else []) 0 /\ w_draws w' = w_draws w.
Proof.
  intros HI. destruct b.
  - eexists. split; [reflexivity|]. split; [done|]. split; [|done]. split; simpl; [done|lia].
  - exists w. split; [done|]. split; [done|]. split; [apply produces_refl|done].
Qed.

Lemma execute_output (w : world) :
  I (w_sched w) ->
  exists w',
    execute E task_name l args w = (Returned tt, w') /\ I (w_sched w') /\
    produces w w'
      ((if truthy log then [EPrint (MsgExecuting task_name)] else []) ++ [ECall args] ++
       (if truthy log then [EPrint (MsgSuccess task_name)] else [])) 1 /\
    w_draws w' = w_draws w.
Proof.
  intros HI.
  destruct (log_read w HI) as (w1 & H1 & HI1 & P1 & D1).
  destruct (flag_print_exact (truthy log) (MsgExecuting task_name) w1 HI1)
    as (w2 & H2 & HI2 & P2 & D2).
  destruct (call_step E I HE args w2 HI2) as (w3 & H3 & HI3 & _).
  rewrite Hbody in H3.
  destruct (call_produces _ _ _ _ _ H3) as [P3 D3].
  destruct (log_read w3 HI3) as (w4 & H4 & HI4 & P4 & D4).
  destruct (flag_print_exact (truthy log) (MsgSuccess task_name) w4 HI4)
    as (w5 & H5 & HI5 & P5 & D5).
  exists w5. split; [|split; [done|split; [|lia]]].
  - unfold execute, try_except.
    rewrite (wbind_returned _ _ _ _ _ H1), (wbind_returned _ _ _ _ _ H2),
      (wbind_returned _ _ _ _ _ H3), (wbind_returned _ _ _ _ _ H4).
    by rewrite H5.
  - chain_produces.
Qed.

Lemma wait_output (w : world) :
  I (w_sched w) ->
  exists w',
    jittered_sleep E l "interval" w = (Returned tt, w') /\ I (w_sched w') /\
    produces w w' (gap_events jitter interval (random E (w_draws w))) 0 /\
    w_draws w' = S (w_draws w).
Proof.
  intros HI.
  destruct (Hgap (w_draws w)) as (gap & positive & Hgapv & Hpos & Hacc).
  unfold gap_events. rewrite Hgapv, Hpos. unfold gap_value in Hgapv.
  destruct (py_neg jitter) as [lo|] eqn:Hlo; [|discriminate Hgapv]. simpl in Hgapv.
  destruct (py_sub jitter lo) as [width|] eqn:Hwidth; [|discriminate Hgapv]. simpl in Hgapv.
  destruct (py_mul width _) as [scaled|] eqn:Hscaled; [|discriminate Hgapv]. simpl in Hgapv.
  destruct (py_add lo scaled) as [amount|] eqn:Hamount; [|discriminate Hgapv]. simpl in Hgapv.
  destruct (get_item_step E I HE l "jitter" (fun v => v = jitter) w)
    as (? & w1 & H1 & -> & HI1 & L1); [|done|].
  { intros s Hs. exists jitter. split; [|done].
    by apply HIl, task_at_record in Hs as (? & _). }
  pose proof (get_item_produces _ _ _ _ _ _ H1) as P1.
  assert (Hd : w_draws w1 = w_draws w) by (unfold leads in *; lia).
  rewrite <- Hd in Hscaled.
  destruct (uniform_step E I lo jitter width scaled amount w1 Hwidth Hscaled Hamount HI1)
    as (w2 & H2 & HI2 & L2).
  pose proof (uniform_produces _ _ _ _ _ _ H2) as P2.
  destruct (get_item_step E I HE l "interval" (fun v => v = interval) w2)
    as (? & w3 & H3 & -> & HI3 & L3); [|done|].
  { intros s Hs. exists interval. split; [|done].
    by apply HIl, task_at_record in Hs as (_ & ? & _). }
  pose proof (get_item_produces _ _ _ _ _ _ H3) as P3.
  assert (Hrun : jittered_sleep E l "interval" w = (if positive then sleep gap else wret tt) w3).
  { unfold jittered_sleep.
    rewrite (wbind_returned _ _ _ _ _ H1), Hlo, wbind_lift_ok.
    rewrite (wbind_returned _ _ _ _ _ H2), (wbind_returned _ _ _ _ _ H3).
    by rewrite Hgapv, wbind_lift_ok, Hpos, wbind_lift_ok. }
  rewrite Hrun. destruct positive.
  - destruct (sleep_step I gap w3 (Hacc eq_refl) HI3) as (w4 & H4 & HI4 & L4).
    pose proof (sleep_produces _ _ _ H4) as P4.
    exists w4. split; [done|]. split; [done|]. split; [chain_produces|].
    unfold leads in *. lia.
  - exists w3. split; [done|]. split; [done|]. split; [chain_produces|].
    unfold leads in *. lia.
Qed.

(** One round of a running task, whatever the count. *)
Lemma round_output (local_limit remaining : value) (w : world) :
  match local_limit with
  | VNone => Ok VNone
  | _ => py_sub local_limit (VInt 1)
  end = Ok remaining ->
  I (w_sched w) ->
  exists w',
    iteration E task_name args local_limit w = (Returned (Next remaining), w') /\
    I (w_sched w') /\
    produces w w'
      (round_events task_name args (truthy log)
         (gap_events jitter interval (random E (w_draws w))) remaining) 1 /\
    w_draws w' = S (w_draws w).
Proof.
  intros Hnext HI.
  destruct (lookup_task_step E I HE task_name l w) as (w1 & H1 & HI1 & L1);
    [intros s Hs; by eapply task_at_lookup, HIl | done |].
  pose proof (lookup_task_produces _ _ _ _ _ H1) as P1.
  destruct (get_item_step E I HE l "state"
              (fun st => st <> VStr "paused" /\ st <> VStr "stopped") w1)
    as (st & w2 & H2 & [Hnp Hns] & HI2 & L2); [|done|].
  { intros s Hs. apply HIl, task_at_record in Hs as (_ & _ & _ & st & Hst & Hrun).
    by exists st. }
  pose proof (get_item_produces _ _ _ _ _ _ H2) as P2.
  destruct (execute_output w2 HI2) as (w3 & H3 & HI3 & P3 & D3).
  destruct (wait_output w3 HI3) as (w4 & H4 & HI4 & P4 & D4).
  destruct (log_read w4 HI4) as (w5 & H5 & HI5 & P5 & D5).
  destruct (flag_print_exact (truthy log && negb (bool_decide (remaining = VNone)))
              (MsgRemaining task_name remaining) w5 HI5) as (w6 & H6 & HI6 & P6 & D6).
  assert (Hd : w_draws w3 = w_draws w) by (unfold leads in *; lia).
  rewrite Hd in P4.
  exists w6. split; [|split; [done|split]].
  - unfold iteration.
    rewrite (wbind_returned _ _ _ _ _ H1), (wbind_returned _ _ _ _ _ H2).
    rewrite decide_False, decide_False by done.
    rewrite (wbind_returned _ _ _ _ _ H3), (wbind_returned _ _ _ _ _ H4).
    assert (Hstep : (match local_limit with
                     | VNone => wret VNone
                     | _ => wlift (py_sub local_limit (VInt 1))
                     end) w4 = (Returned remaining, w4)).
    { destruct local_limit; simpl in Hnext; try (by rewrite Hnext).
      by injection Hnext as <-. }
    rewrite (wbind_returned _ _ _ _ _ Hstep).
    by rewrite (wbind_returned _ _ _ _ _ H5), (wbind_returned _ _ _ _ _ H6).
  - unfold round_events. chain_produces.
  - unfold leads in *. lia.
Qed.
End Output.



Lemma loud_task_logged :
  logged_task "job" 1%positive (VInt 0) (VFloat (PyFloat.of_Z 1)) (VBool true) loud_task.
Proof.
  apply reachable_task_at; [vm_compute; reflexivity|].
  split; [vm_compute; reflexivity|]. split; [vm_compute; reflexivity|].
  split; [vm_compute; reflexivity|].
  exists (VStr "active"). split; [vm_compute; reflexivity|]. split; discriminate.
Qed.



(** ** Exceptions that are not handled *)

(** X22. An exception of the task body that is no [Exception] ([SystemExit],
    [KeyboardInterrupt]) is not handled: whatever the log field, also when
    it is false, it leaves the loop as it is, unwrapped, in the round in
    which it is raised. *)
Theorem base_exception_leaves_worker (E : env) (I : scheduler -> Prop) (name : string)
    (l : loc) (args : list value) (e : exn) (fuel : nat) (local_limit : value) (w : world) :
  stable E I ->
  (forall s, I s -> task_at name l (fun r => is_Some (r !! "log") /\ running r) s) ->
  loop_condition local_limit = Ok true ->
  (forall s, (body E (w_calls w) args s).1 = Some e) ->
  is_Exception e = false ->
  I (w_sched w) ->
  exists w',
    loop E name args (S fuel) local_limit w = (Raised e, w') /\
    leads w w' [ECall args] 1 0.
Proof.
  intros HE HIs Hcond Hbody Hexc HI.
  destruct (lookup_task_step E I HE name l w) as (w1 & H1 & HI1 & L1);
    [intros s Hs; by eapply task_at_lookup, HIs | done |].
  destruct (get_item_step E I HE l "state"
              (fun st => st <> VStr "paused" /\ st <> VStr "stopped") w1)
    as (st & w2 & H2 & [Hnp Hns] & HI2 & L2); [|done|].
  { intros s Hs. apply HIs, task_at_record in Hs as (_ & st & Hst & Hrun). by exists st. }
  assert (Hc : w_calls w2 = w_calls w) by (unfold leads in *; lia).
  destruct (execute_passes E I name l args e w2 HE) as (w3 & H3 & L3);
    [intros s Hs; by apply HIs, task_at_record in Hs as [? _] | by rewrite Hc | done | done |].
  exists w3. split; [|chain_leads].
  rewrite loop_unfold, Hcond, wbind_lift_ok. unfold iteration.
  rewrite (wbind_raised _ _ w w3 e); [done|].
  rewrite (wbind_returned _ _ _ _ _ H1), (wbind_returned _ _ _ _ _ H2).
  rewrite decide_False, decide_False by done.
  by rewrite (wbind_raised _ _ _ _ _ H3).
Qed.

Lemma exiting_stable (I : scheduler -> Prop) : stable exiting I.
Proof. by split. Qed.

Lemma two_tasks_running :
  task_at "job" 1%positive (fun r => is_Some (r !! "log") /\ running r) two_tasks.
Proof.
  destruct two_tasks_job as (Hl & r & Hr & _ & _ & _ & _ & Hlog & Hrun).
  split; [exact Hl|]. exists r. split; [exact Hr|]. split; [exact Hlog|exact Hrun].
Qed.

Lemma base_exception_leaves_worker_witness :
  exists w',
    loop exiting "job" [] 3 (VInt 3) (start two_tasks) = (Raised SystemExit, w') /\
    leads (start two_tasks) w' [ECall []] 1 0.
Proof.
  apply (base_exception_leaves_worker exiting (fun s => s = two_tasks) "job" 1%positive []
           SystemExit 2 (VInt 3)).
  - apply exiting_stable.
  - intros s ->. apply two_tasks_running.
  - reflexivity.
  - reflexivity.
  - reflexivity.
  - reflexivity.
Defined.

(** ** Durations that cannot be slept *)

(** X23. When the delay of the record is something [time.sleep] refuses (a
    negative number, NaN, an infinite number, not a number at all), the
    periodic worker raises at its first sleep, with [ValueError],
    [OverflowError] or [TypeError], before any execution and any output. *)
Theorem unsleepable_delay_stops_worker (E : env) (I : scheduler -> Prop) (name : string)
    (l : loc) (args : list value) (delay : value) (fuel : nat) (s : scheduler) :
  stable E I ->
  (forall s', I s' -> task_at name l (fun r => r !! "delay" = Some delay) s') ->
  I s ->
  accepted delay = false ->
  exists e w,
    periodic_wrapper E name args fuel (start s) = (Raised e, w) /\
    w_trace w = [] /\ w_calls w = 0%nat /\
    (class_of e = CValueError \/ class_of e = COverflowError \/ class_of e = CTypeError).
Proof.
  intros HE HId HI Hacc.
  destruct (lookup_task_step E I HE name l (start s)) as (w1 & H1 & HI1 & _);
    [intros s' Hs; by eapply task_at_lookup, HId | done |].
  destruct (get_item_step E I HE l "delay" (fun v => v = delay) w1)
    as (? & w2 & H2 & -> & HI2 & _); [|done|].
  { intros s' Hs. exists delay. split; [|done]. by apply HId, task_at_record in Hs. }
  destruct (sleep_refuses delay w2 Hacc) as (e & H3 & Hclass).
  pose proof (lookup_task_produces _ _ _ _ _ H1) as [T1 C1].
  pose proof (get_item_produces _ _ _ _ _ _ H2) as [T2 C2].
  exists e, w2. split; [|split; [|split; [|done]]].
  - unfold periodic_wrapper.
    by rewrite (wbind_returned _ _ _ _ _ H1), (wbind_returned _ _ _ _ _ H2),
      (wbind_raised _ _ _ _ _ H3).
  - rewrite T2, T1. done.
  - simpl in *. lia.
Qed.



Lemma forever_job :
  task_at "job" 1%positive (fun r => r !! "delay" = Some (VFloat (PyFloat.infinity false)))
    (apply_operations init
       [OpEvery "1s" (Some "infinity h") None VNone (VBool false) VNone job]).
Proof. apply reachable_task_at; vm_compute; reflexivity. Qed.

Lemma unsleepable_delay_stops_worker_witness :
  exists e w,
    periodic_wrapper quiet "job" [] 3
      (start (apply_operations init
                [OpEvery "1s" (Some "infinity h") None VNone (VBool false) VNone job])) =
      (Raised e, w) /\
    w_trace w = [] /\ w_calls w = 0%nat /\
    (class_of e = CValueError \/ class_of e = COverflowError \/ class_of e = CTypeError).
Proof.
  apply (unsleepable_delay_stops_worker quiet
           (fun s => s = apply_operations init
                           [OpEvery "1s" (Some "infinity h") None VNone (VBool false) VNone job])
           "job" 1%positive [] (VFloat (PyFloat.infinity false)) 3).
  - apply quiet_stable.
  - intros s ->. apply forever_job.
  - reflexivity.
  - reflexivity.
Defined.

(** ** From registration to execution *)



(** ** The order of the members of a group *)

Lemma filter_other (x : string) (lst : list string) :
  x ∉ lst -> filter (fun y => y <> x) lst = lst.
Proof.
  induction lst as [|y lst IH]; [done|]. intros Hx.
  apply not_elem_of_cons in Hx as [Hne Hx].
  rewrite filter_cons_True by done. by rewrite IH.
Qed.

Lemma list_remove_filter (x : string) (lst : list string) :
  NoDup lst -> x ∈ lst ->
  list_remove x lst = Some (filter (fun y => y <> x) lst).
Proof.
  induction 1 as [|y lst Hy Hnd IH]; intros Hin; [by apply elem_of_nil in Hin|].
  simpl. destruct (decide (y = x)) as [->|Hne].
  - rewrite filter_cons_False by (intros H; by apply H). f_equal.
    symmetry. by apply filter_other.
  - apply elem_of_cons in Hin as [->|Hin]; [done|].
    rewrite filter_cons_True by done. by rewrite (IH Hin).
Qed.

(** Leaving a group the name is listed in, list by list. *)
Lemma group_leave_lists (old : value) (name : string) (s : scheduler) :
  groups_nodup s -> name ∈ members s old ->
  exists G',
    group_leave old name s = (Ok tt, set_groups G' s) /\
    forall g, default [] (G' !! g) =
      if decide (g = old) then filter (fun y => y <> name) (members s old)
      else members s g.
Proof.
  intros Hnd Hin. unfold group_leave, mbind, get_state.
  pose proof (Hnd old) as Hnd_old. unfold members in Hin, Hnd_old |- *.
  destruct (groups s !! old) as [lst|] eqn:Hold; [|by apply elem_of_nil in Hin].
  simpl in Hin, Hnd_old. rewrite (list_remove_filter name lst Hnd_old Hin). simpl.
  destruct (filter (fun y => y <> name) lst) as [|z lst'] eqn:Hf.
  - exists (delete old (groups s)). split; [done|]. intros g.
    destruct (decide (g = old)) as [->|Hg].
    + by rewrite lookup_delete_eq.
    + by rewrite lookup_delete_ne.
  - exists (<[old := z :: lst']> (groups s)). split; [done|]. intros g.
    destruct (decide (g = old)) as [->|Hg].
    + by rewrite lookup_insert_eq.
    + by rewrite lookup_insert_ne.
Qed.



(** ** The wait without jitter *)

(** Without jitter the amount drawn is 0.0, whatever the draw. *)
Lemma zero_jitter_amount (x : PyFloat.float) :
  PyFloat.is_finite x = true ->
  result_bind (py_neg (VInt 0)) (fun lo =>
  result_bind (py_sub (VInt 0) lo) (fun width =>
  result_bind (py_mul width (VFloat x)) (fun scaled =>
  py_add lo scaled))) = Ok (VFloat PyFloat.zero).
Proof.
  intros Hfin. destruct x as [sx| | |sx m e]; try discriminate Hfin.
  - by destruct sx.
  - by destruct sx.
Qed.

Lemma zero_jitter_gap (i x : PyFloat.float) :
  PyFloat.is_finite x = true ->
  gap_value (VInt 0) (VFloat i) x = Ok (VFloat (PyFloat.add i PyFloat.zero)).
Proof.
  intros Hfin. pose proof (zero_jitter_amount x Hfin) as H. unfold gap_value.
  destruct (py_neg (VInt 0)) as [lo|]; [|discriminate H]. simpl in *.
  destruct (py_sub (VInt 0) lo) as [width|]; [|discriminate H]. simpl in *.
  destruct (py_mul width (VFloat x)) as [scaled|]; [|discriminate H]. simpl in *.
  by rewrite H.
Qed.

Lemma zero_jitter_events (i x : PyFloat.float) :
  PyFloat.is_finite x = true ->
  PyFloat.is_finite i = true ->
  gap_ok (VInt 0) (VFloat i) x /\
  gap_events (VInt 0) (VFloat i) x =
    if PyFloat.ltb PyFloat.zero i then [ESleep (VFloat i)] else [].
Proof.
  intros Hx Hi. unfold gap_ok, gap_events. rewrite (zero_jitter_gap i x Hx).
  destruct i as [si| | |si m e]; try discriminate Hi.
  - split; [|by destruct si].
    eexists _, false. split; [done|]. split; [by destruct si|done].
  - destruct si.
    + split; [|done]. eexists _, false. by split.
    + split; [|done]. eexists _, true. by split.
Qed.


